(** * Othello rules engine, MCTS and NegaScout players: a shallow embedding

    The development follows [src/main.py] (rules engine and MCTS player)
    and [src/main1.py] (the same rules engine and the NegaScout player).
    Python integers are modelled by [Z], Python lists by [list], the
    [None]-or-value fields by [option], and raised exceptions by the [py]
    result type below. *)

From Stdlib Require Import ZArith List Bool Lia Sorted.
From stdpp Require Import base option list gmap.
Import ListNotations.

Local Open Scope Z_scope.

(** ** Python results: a returned value or a raised exception *)

Inductive exn : Type :=
| IndexError       (* list index out of range *)
| AttributeError   (* attribute access on None *)
| OutOfFuel        (* the model's iteration budget was too small *)
| DanglingRef.     (* the model followed a reference to no node *)

Inductive py (A : Type) : Type :=
| Ret (a : A)
| Raise (e : exn).

Arguments Ret {A} a.
Arguments Raise {A} e.

Definition py_bind {A B : Type} (m : py A) (k : A -> py B) : py B :=
  match m with
  | Ret a => k a
  | Raise e => Raise e
  end.

Notation "'let!' x ':=' m 'in' k" := (py_bind m (fun x => k))
  (at level 10, x name, m at level 100, k at level 200).

(** Lines written to standard output by the rules engine. *)
Inductive event : Type :=
| InvalidMoveDetected (move : option Z)   (* "Invalid move detected: {move}" *)
| HasPassed (player : Z).                 (* "Player {p} has passed their turn." *)

(** ** Python list indexing *)

(** [l[i]] accepts [-len <= i < len]; a negative index counts from the
    end. [norm_index] gives the position that is read or written. *)
Definition norm_index (n : nat) (i : Z) : option nat :=
  if (0 <=? i) && (i <? Z.of_nat n) then Some (Z.to_nat i)
  else if (- Z.of_nat n <=? i) && (i <? 0) then Some (Z.to_nat (i + Z.of_nat n))
  else None.

Definition getitem (l : list Z) (i : Z) : py Z :=
  match norm_index (length l) i with
  | Some k => match l !! k with
              | Some v => Ret v
              | None => Raise IndexError
              end
  | None => Raise IndexError
  end.

Definition setitem (l : list Z) (i : Z) (v : Z) : py (list Z) :=
  match norm_index (length l) i with
  | Some k => Ret (<[k := v]> l)
  | None => Raise IndexError
  end.

(** A read at an index [nx * 8 + ny] that the loop guard keeps in
    [0..63]. The board always has 64 cells ([initialize_board] builds it,
    [clone] copies it, item assignment never resizes it), so the read
    cannot fail; the model reads 0 outside the list. *)
Definition cell (b : list Z) (i : Z) : Z := default 0 (b !! Z.to_nat i).

(** A write at an index kept in [0..63] by the same guard. *)
Definition put (b : list Z) (i : Z) (v : Z) : list Z := <[Z.to_nat i := v]> b.

(** ** OthelloGame *)

Record OthelloGame : Type := {
  board : list Z;            (* 64 cells: 0 empty, 1 black, -1 white *)
  current_player : Z;        (* 1: black, -1: white *)
  last_move : option Z;
  turns_passed : Z
}.

Definition set_board (b : list Z) (g : OthelloGame) : OthelloGame :=
  {| board := b; current_player := current_player g;
     last_move := last_move g; turns_passed := turns_passed g |}.

Definition set_current_player (p : Z) (g : OthelloGame) : OthelloGame :=
  {| board := board g; current_player := p;
     last_move := last_move g; turns_passed := turns_passed g |}.

Definition set_last_move (m : option Z) (g : OthelloGame) : OthelloGame :=
  {| board := board g; current_player := current_player g;
     last_move := m; turns_passed := turns_passed g |}.

Definition set_turns_passed (t : Z) (g : OthelloGame) : OthelloGame :=
  {| board := board g; current_player := current_player g;
     last_move := last_move g; turns_passed := t |}.

(** [initialize_board]: [[0] * 64] with the four central discs. *)
Definition initialize_board : list Z :=
  put (put (put (put (replicate 64%nat 0) 27 (-1)) 36 (-1)) 28 1) 35 1.

(** [OthelloGame.__init__]. *)
Definition new_game : OthelloGame :=
  {| board := initialize_board; current_player := 1;
     last_move := None; turns_passed := 0 |}.

(** The direction lists, in the order each method writes them. *)
Definition directions_valid : list (Z * Z) :=
  [(-1, -1); (-1, 0); (-1, 1); (0, -1); (0, 1); (1, -1); (1, 0); (1, 1)].

Definition directions_flip : list (Z * Z) :=
  [(-1, 0); (1, 0); (0, -1); (0, 1); (-1, -1); (-1, 1); (1, -1); (1, 1)].

Definition in_bounds (nx ny : Z) : bool :=
  (0 <=? nx) && (nx <? 8) && (0 <=? ny) && (ny <? 8).

(** The [while] loop of [can_flip]. Every pass moves [(nx, ny)] one step
    along a non-zero direction, so the guard fails after at most eight
    passes; running out of [fuel] returns what leaving the board returns
    ([can_flip_fuel] shows that more fuel changes nothing). *)
Fixpoint can_flip_loop (fuel : nat) (b : list Z) (player : Z)
    (dx dy nx ny : Z) (flipped : bool) : bool :=
  match fuel with
  | O => false
  | S k =>
    if in_bounds nx ny then
      let ni := nx * 8 + ny in
      if cell b ni =? - player then
        can_flip_loop k b player dx dy (nx + dx) (ny + dy) true
      else if cell b ni =? player then flipped
      else false
    else false
  end.

Definition walk_fuel : nat := 9.

Definition can_flip (g : OthelloGame) (x y dx dy : Z) : bool :=
  can_flip_loop walk_fuel (board g) (current_player g) dx dy (x + dx) (y + dy) false.

(** [is_valid_move]: the first read uses the caller's index and may
    raise; [//] and [%] are floor division and modulus, as [Z.div] and
    [Z.modulo] are for the divisor 8. *)
Definition is_valid_move (g : OthelloGame) (index : Z) : py bool :=
  let! c := getitem (board g) index in
  if negb (c =? 0) then Ret false
  else
    let x := index / 8 in
    let y := index mod 8 in
    Ret (existsb (fun d => can_flip g x y (fst d) (snd d)) directions_valid).

Definition truthy (r : py bool) : bool :=
  match r with
  | Ret b => b
  | Raise _ => false
  end.

Definition range64 : list Z := map Z.of_nat (seq 0 64).

(** [get_valid_moves]: the indices of [range(64)] that pass
    [is_valid_move], ascending. On a 64-cell board no read raises
    ([is_valid_move_no_raise]). *)
Definition get_valid_moves (g : OthelloGame) : list Z :=
  List.filter (fun i => truthy (is_valid_move g i)) range64.

(** The inner [while] loop of [flip_discs] for one direction; the result
    is what the direction adds to [flips]. *)
Fixpoint flip_loop (fuel : nat) (b : list Z) (player : Z)
    (dx dy nx ny : Z) (flipped : list Z) : list Z :=
  match fuel with
  | O => []
  | S k =>
    if in_bounds nx ny then
      let index := nx * 8 + ny in
      if cell b index =? 0 then []
      else if cell b index =? player then flipped
      else flip_loop k b player dx dy (nx + dx) (ny + dy) (flipped ++ [index])
    else []
  end.

Definition flip_discs (b : list Z) (move : Z) (player : Z) : list Z :=
  flat_map
    (fun d =>
       let x := move / 8 in
       let y := move mod 8 in
       flip_loop walk_fuel b player (fst d) (snd d) (x + fst d) (y + snd d) [])
    directions_flip.

(** [pass_turn]. *)
Definition pass_turn (g : OthelloGame) : OthelloGame * list event :=
  let g1 := set_turns_passed (turns_passed g + 1) g in
  let g2 := set_current_player (- current_player g1) g1 in
  (g2, [HasPassed (current_player g2)]).

(** The branch of [apply_move] taken for a valid move. *)
Definition place (g : OthelloGame) (move : Z) : py OthelloGame :=
  let! b1 := setitem (board g) move (current_player g) in
  let g1 := set_last_move (Some move) (set_board b1 g) in
  let flips := flip_discs (board g1) move (current_player g1) in
  let b2 := fold_left (fun b flip => put b flip (current_player g1)) flips (board g1) in
  let g2 := set_board b2 g1 in
  let g3 := set_current_player (current_player g2 * -1) g2 in
  Ret (set_turns_passed 0 g3).

(** [apply_move]: returns the state after the call and what was printed.
    An exception can only come from the read in [is_valid_move], before
    any assignment, so a raise leaves the object as it was. *)
Definition apply_move (g : OthelloGame) (move : option Z)
    : py (OthelloGame * list event) :=
  match move with
  | None => Ret (g, [InvalidMoveDetected None])
  | Some m =>
    let! ok := is_valid_move g m in
    if ok then (let! g' := place g m in Ret (g', []))
    else Ret (g, [InvalidMoveDetected (Some m)])
  end.

(** [clone]: a new game from [__init__], then the board copy and the
    player are assigned. *)
Definition clone (g : OthelloGame) : OthelloGame :=
  let fresh := new_game in
  let fresh := set_board (board g) fresh in
  set_current_player (current_player g) fresh.

(** [all(cell != 0 for cell in self.board)]. *)
Definition board_full (b : list Z) : bool :=
  forallb (fun c => negb (c =? 0)) b.

Definition is_game_over (g : OthelloGame) : bool :=
  if board_full (board g) then
    match get_valid_moves g with [] => true | _ => false end
  else if turns_passed g >=? 2 then false
  else match get_valid_moves g with [] => true | _ => false end.

Definition sum_board (b : list Z) : Z := fold_right Z.add 0 b.

Definition get_winner (g : OthelloGame) : Z :=
  let score := sum_board (board g) in
  if score >? 0 then 1 else if score <? 0 then -1 else 0.

(** Playing a list of moves from a state; a move that raises leaves the
    state as it was. *)
Definition after_move (g : OthelloGame) (m : option Z) : OthelloGame :=
  match apply_move g m with
  | Ret (g', _) => g'
  | Raise _ => g
  end.

Definition play (ms : list Z) (g : OthelloGame) : OthelloGame :=
  fold_left (fun s m => after_move s (Some m)) ms g.

(** States that the public operations produce from a new game. *)
Inductive reachable : OthelloGame -> Prop :=
| reach_new : reachable new_game
| reach_move g m : reachable g -> reachable (after_move g m)
| reach_pass g : reachable g -> reachable (fst (pass_turn g))
| reach_clone g : reachable g -> reachable (clone g).

(** Number of discs of colour [p] on a board. *)
Definition disc_count (p : Z) (b : list Z) : nat :=
  length (List.filter (Z.eqb p) b).

(** Cells left in front of [(nx, ny)] along a direction. *)
Definition room (dx dy nx ny : Z) : nat :=
  Z.to_nat
    (if dx =? 1 then 8 - nx
     else if dx =? -1 then nx + 1
     else if dy =? 1 then 8 - ny
     else ny + 1).

Definition is_direction (dx dy : Z) : Prop :=
  (dx = -1 \/ dx = 0 \/ dx = 1) /\ (dy = -1 \/ dy = 0 \/ dy = 1) /\
  (dx <> 0 \/ dy <> 0).


(** The termination rule in the words of the specification: two passes
    in a row with no legal move available, or a full board with no legal
    move for the player to move. *)
Definition game_over_spec (g : OthelloGame) : Prop :=
  (turns_passed g >= 2 /\ get_valid_moves g = []) \/
  (board_full (board g) = true /\ get_valid_moves g = []).

(** A move argument the rules reject: absent, outside the board, on an
    occupied cell, or capturing in no direction. *)
Definition invalid_move (g : OthelloGame) (move : option Z) : Prop :=
  match move with
  | None => True
  | Some m =>
    ~ (0 <= m < 64) \/
    cell (board g) m <> 0 \/
    existsb (fun d => can_flip g (m / 8) (m mod 8) (fst d) (snd d))
            directions_valid = false
  end.

(** ** NegaScout player ([src/main1.py]) *)

(** Scores are Python integers, or [float('inf')] and its negation. *)
Inductive ext : Type :=
| NegInf
| Fin (z : Z)
| PosInf.

Definition ext_neg (a : ext) : ext :=
  match a with
  | NegInf => PosInf
  | Fin z => Fin (- z)
  | PosInf => NegInf
  end.

(** [a - 1]: an infinity stays what it is. *)
Definition ext_pred (a : ext) : ext :=
  match a with
  | Fin z => Fin (z - 1)
  | _ => a
  end.

Definition ext_ltb (a b : ext) : bool :=
  match a, b with
  | NegInf, NegInf => false
  | NegInf, _ => true
  | Fin _, NegInf => false
  | Fin x, Fin y => x <? y
  | Fin _, PosInf => true
  | PosInf, _ => false
  end.

Definition ext_leb (a b : ext) : bool := negb (ext_ltb b a).

(** [max(a, b)]. *)
Definition ext_max (a b : ext) : ext := if ext_ltb a b then b else a.

(** [evaluate]: [sum(state.board)]. *)
Definition evaluate (state : OthelloGame) : Z := sum_board (board state).

(** The state of a child node: [clone] then [apply_move]. *)
Definition child_state (state : OthelloGame) (move : Z) : OthelloGame :=
  after_move (clone state) (Some move).

(** The [for i, move in enumerate(moves)] loop of [negascout].
    [search_child] is the recursive call on a child node at [depth - 1];
    [i] is the position of the next move; [score], [alpha] and
    [best_move] are the loop's variables and the node's field. *)
Fixpoint negascout_loop (search_child : OthelloGame -> ext -> ext -> Z -> ext)
    (state : OthelloGame) (moves : list Z) (i : nat)
    (score alpha beta : ext) (color : Z) (best_move : option Z)
    : ext * option Z :=
  match moves with
  | [] => (score, best_move)
  | move :: rest =>
    let new_state := child_state state move in
    let current_score :=
      if Nat.eqb i 0 then
        ext_neg (search_child new_state (ext_neg beta) (ext_neg alpha) (- color))
      else
        let current_score :=
          ext_neg (search_child new_state (ext_pred (ext_neg alpha))
                                (ext_neg alpha) (- color)) in
        if ext_ltb alpha current_score && ext_ltb current_score beta then
          ext_neg (search_child new_state (ext_neg beta)
                                (ext_neg current_score) (- color))
        else current_score in
    let '(score, best_move) :=
      if ext_ltb score current_score then (current_score, Some move)
      else (score, best_move) in
    let alpha := ext_max alpha score in
    if ext_leb beta alpha then (score, best_move)
    else negascout_loop search_child state rest (S i) score alpha beta color best_move
  end.

(** [negascout(node, depth, alpha, beta, color)]: the returned score and
    the node's [best_move] after the call, given its value before. A
    child node starts with [best_move = None] and its field is not read
    again, so only its score is kept. *)
Fixpoint negascout (depth : nat) (state : OthelloGame) (best_move : option Z)
    (alpha beta : ext) (color : Z) : ext * option Z :=
  match depth with
  | O => (Fin (color * evaluate state), best_move)
  | S depth' =>
    if is_game_over state then (Fin (color * evaluate state), best_move)
    else
      let moves := get_valid_moves state in
      match moves with
      | [] =>
        let r := negascout depth' state best_move (ext_neg beta) (ext_neg alpha) (- color) in
        (ext_neg (fst r), snd r)
      | _ =>
        negascout_loop
          (fun child a b c => fst (negascout depth' child None a b c))
          state moves 0 NegInf alpha beta color best_move
      end
  end.

(** [Negascout.search]: the root's [best_move], paired here with the
    score the method computes and drops. *)
Definition negascout_search (depth_limit : nat) (root_state : OthelloGame)
    : option Z * ext :=
  let r := negascout depth_limit root_state None NegInf PosInf 1 in
  (snd r, fst r).

(** *** The reference: exhaustive minimax

    The search the specification compares with: every move of every
    node down to the depth limit is examined, no window, no cut-off. The
    side to move at the root maximises [evaluate], the other side
    minimises it, and a node without a legal move hands the turn over at
    one less depth. Ties keep the earliest move. *)
Fixpoint minimax (depth : nat) (state : OthelloGame) (maximizing : bool) : Z :=
  match depth with
  | O => evaluate state
  | S depth' =>
    if is_game_over state then evaluate state
    else
      match get_valid_moves state with
      | [] => minimax depth' state (negb maximizing)
      | move :: rest =>
        let value m := minimax depth' (child_state state m) (negb maximizing) in
        fold_left
          (fun best m => if maximizing then Z.max best (value m)
                         else Z.min best (value m))
          rest (value move)
      end
  end.

Definition minimax_search (depth_limit : nat) (root_state : OthelloGame)
    : option Z * Z :=
  match depth_limit with
  | O => (None, evaluate root_state)
  | S depth' =>
    if is_game_over root_state then (None, evaluate root_state)
    else
      match get_valid_moves root_state with
      | [] => (None, minimax depth' root_state false)
      | move :: rest =>
        let value m := minimax depth' (child_state root_state m) false in
        fold_left
          (fun best m =>
             if value m >? snd best then (Some m, value m) else best)
          rest (Some move, value move)
      end
  end.

(** Exhaustive negamax with the colour convention of [negascout]; it
    links [negascout] to [minimax] in the proofs. *)
Fixpoint negamax (depth : nat) (state : OthelloGame) (color : Z) : Z :=
  match depth with
  | O => color * evaluate state
  | S depth' =>
    if is_game_over state then color * evaluate state
    else
      match get_valid_moves state with
      | [] => - negamax depth' state (- color)
      | move :: rest =>
        let value m := - negamax depth' (child_state state m) (- color) in
        fold_left (fun best m => Z.max best (value m)) rest (value move)
      end
  end.

(** The score [negascout_loop] gives a move: the full-window search for
    the first move, the scout search and its re-search for the others. *)
Definition current_score_of (search_child : OthelloGame -> ext -> ext -> Z -> ext)
    (state : OthelloGame) (move : Z) (i : nat) (alpha beta : ext) (color : Z) : ext :=
  let new_state := child_state state move in
  if Nat.eqb i 0 then
    ext_neg (search_child new_state (ext_neg beta) (ext_neg alpha) (- color))
  else
    let current_score :=
      ext_neg (search_child new_state (ext_pred (ext_neg alpha))
                            (ext_neg alpha) (- color)) in
    if ext_ltb alpha current_score && ext_ltb current_score beta then
      ext_neg (search_child new_state (ext_neg beta)
                            (ext_neg current_score) (- color))
    else current_score.

(** What a fail-soft search with window [(alpha, beta)] promises about its
    result [r] when the exact value is [e]: a result at or below [alpha]
    is an upper bound, one at or above [beta] a lower bound, one strictly
    inside is exact. *)
Definition fail_soft (r : ext) (e : Z) (alpha beta : ext) : Prop :=
  exists z, r = Fin z /\
    (ext_leb (Fin z) alpha = true -> e <= z) /\
    (ext_ltb alpha (Fin z) = true -> ext_ltb (Fin z) beta = true -> z = e) /\
    (ext_leb beta (Fin z) = true -> z <= e).

(** ** MCTS player ([src/main.py]) *)

(** The search tree is a store of nodes: a node is referred to by its
    position in the store, [parent] and [children] hold such references,
    and the methods that mutate a node update the store. The unused field
    [exploration_weight] is left out. *)
Record MCTSNode : Type := {
  state : OthelloGame;
  parent : option nat;
  children : list nat;
  visits : Z;
  wins : Z;
  untried_moves : list Z
}.

(** [MCTSNode.__init__]. *)
Definition new_node (st : OthelloGame) (par : option nat) : MCTSNode :=
  {| state := st; parent := par; children := []; visits := 0; wins := 0;
     untried_moves := get_valid_moves st |}.

Definition node_at (tree : list MCTSNode) (i : nat) : py MCTSNode :=
  match tree !! i with
  | Some n => Ret n
  | None => Raise DanglingRef
  end.

Definition is_fully_expanded (n : MCTSNode) : bool :=
  Nat.eqb (length (untried_moves n)) 0.

(** [list.pop()]: the last element and the list without it. *)
Definition pop (l : list Z) : option (Z * list Z) :=
  match last l with
  | Some x => Some (x, removelast l)
  | None => None
  end.

(** [expand]: the store after the call and the node returned. *)
Definition expand (tree : list MCTSNode) (i : nat) : py (list MCTSNode * nat) :=
  let! n := node_at tree i in
  match pop (untried_moves n) with
  | None => Ret (tree, i)
  | Some (move, untried) =>
    let new_state := clone (state n) in
    let! r := apply_move new_state (Some move) in
    let child_node := new_node (fst r) (Some i) in
    let c := length tree in
    let n' := {| state := state n; parent := parent n;
                 children := children n ++ [c];
                 visits := visits n; wins := wins n;
                 untried_moves := untried |} in
    Ret (<[i := n']> tree ++ [child_node], c)
  end.

(** [backpropagate]: the recursion follows [parent] up to the root. *)
Fixpoint backpropagate (fuel : nat) (tree : list MCTSNode) (i : nat) (result : Z)
    : py (list MCTSNode) :=
  match fuel with
  | O => Raise OutOfFuel
  | S fuel' =>
    let! n := node_at tree i in
    let n' := {| state := state n; parent := parent n; children := children n;
                 visits := visits n + 1; wins := wins n + result;
                 untried_moves := untried_moves n |} in
    let tree' := <[i := n']> tree in
    match parent n with
    | Some p => backpropagate fuel' tree' p (- result)
    | None => Ret tree'
    end
  end.

Section MCTS.
(** Python floats and the UCB1 arithmetic on them are kept abstract:
    [value] stands for [float], [value_gt] for [>], [inf] for
    [float('inf')] and [ucb1 wins visits parent_visits weight] for
    [wins / visits + weight * parent_visits ** 0.5 / (1 + visits)]. *)
Variable value : Type.
Variable value_gt : value -> value -> bool.
Variable inf : value.
Variable ucb1 : Z -> Z -> Z -> value -> value.

(** The exploration weights: [1.4] during the search, [0] for the
    final choice. *)
Variable search_weight : value.
Variable final_weight : value.

(** The random generator: [rand k] is its [k]-th draw. *)
Variable rand : nat -> nat.

(** [random.choice(moves)] at draw [k]. *)
Definition choice (k : nat) (moves : list Z) : Z :=
  nth (rand k mod length moves)%nat moves 0.

(** [get_value] of the node [c]. *)
Definition get_value (tree : list MCTSNode) (c : nat) (exploration_weight : value)
    : py value :=
  let! n := node_at tree c in
  if visits n =? 0 then Ret inf
  else
    match parent n with
    | None => Raise AttributeError
    | Some p =>
      let! pn := node_at tree p in
      Ret (ucb1 (wins n) (visits n) (visits pn) exploration_weight)
    end.

(** [max(children, key=...)]: the first child with the largest key. *)
Fixpoint max_child (tree : list MCTSNode) (w : value)
    (best : nat) (best_key : value) (rest : list nat) : py nat :=
  match rest with
  | [] => Ret best
  | c :: rest' =>
    let! k := get_value tree c w in
    if value_gt k best_key then max_child tree w c k rest'
    else max_child tree w best best_key rest'
  end.

(** [best_child]: [None] (after a warning is printed) when the node has
    no child. *)
Definition best_child (tree : list MCTSNode) (i : nat) (exploration_weight : value)
    : py (option nat) :=
  let! n := node_at tree i in
  match children n with
  | [] => Ret None
  | c :: rest =>
    let! k := get_value tree c exploration_weight in
    let! b := max_child tree exploration_weight c k rest in
    Ret (Some b)
  end.

(** [select_node]: reading [node.state] when [best_child] returned
    [None] raises [AttributeError]. *)
Fixpoint select_node (fuel : nat) (tree : list MCTSNode) (i : nat) : py nat :=
  match fuel with
  | O => Raise OutOfFuel
  | S fuel' =>
    let! n := node_at tree i in
    if negb (is_game_over (state n)) && is_fully_expanded n then
      let! b := best_child tree i search_weight in
      match b with
      | Some c => select_node fuel' tree c
      | None => Raise AttributeError
      end
    else Ret i
  end.

(** The [while] loop of [simulate]: the state it stops in and the
    number of draws used so far. *)
Fixpoint simulate_loop (fuel : nat) (k : nat) (current_state : OthelloGame)
    : py (OthelloGame * nat) :=
  match fuel with
  | O => Raise OutOfFuel
  | S fuel' =>
    if is_game_over current_state then Ret (current_state, k)
    else
      let moves := get_valid_moves current_state in
      match moves with
      | [] => simulate_loop fuel' k current_state
      | _ =>
        let move := choice k moves in
        let! r := apply_move current_state (Some move) in
        simulate_loop fuel' (S k) (fst r)
      end
  end.

(** [simulate]: the winner of the playout. *)
Definition simulate (fuel : nat) (k : nat) (st : OthelloGame) : py (Z * nat) :=
  let current_state := clone st in
  let! r := simulate_loop fuel k current_state in
  Ret (get_winner (fst r), snd r).

(** One pass of the [for] loop of [search]; [time_limit] is [None]. *)
Definition iteration (fuel : nat) (tree : list MCTSNode) (k : nat)
    : py (list MCTSNode * nat) :=
  let! node := select_node fuel tree 0 in
  let! n := node_at tree node in
  let! e := (if negb (is_game_over (state n)) then expand tree node
             else Ret (tree, node)) in
  let! n1 := node_at (fst e) (snd e) in
  let! s := simulate fuel k (state n1) in
  let! tree' := backpropagate fuel (fst e) (snd e) (fst s) in
  Ret (tree', snd s).

Fixpoint iterate (count : nat) (fuel : nat) (tree : list MCTSNode) (k : nat)
    : py (list MCTSNode * nat) :=
  match count with
  | O => Ret (tree, k)
  | S count' =>
    let! r := iteration fuel tree k in
    iterate count' fuel (fst r) (snd r)
  end.

(** [MCTS.search]: [best_child(0).state.last_move]. *)
Definition search (fuel : nat) (iteration_limit : nat) (k : nat)
    (root_state : OthelloGame) : py (option Z) :=
  let root_node := new_node root_state None in
  let! r := iterate iteration_limit fuel [root_node] k in
  let! b := best_child (fst r) 0 final_weight in
  match b with
  | Some c => let! n := node_at (fst r) c in Ret (last_move (state n))
  | None => Raise AttributeError
  end.
End MCTS.

(** [visits] of the node [c], 0 for a reference to no node. *)
Definition visits_at (tree : list MCTSNode) (c : nat) : Z :=
  match tree !! c with
  | Some n => visits n
  | None => 0
  end.

(** The sum of [visits] over the children of the root. *)
Definition root_children_visits (tree : list MCTSNode) : Z :=
  match tree !! 0%nat with
  | Some root =>
    fold_right Z.add 0 (map (visits_at tree) (children root))
  | None => 0
  end.

(** What [backpropagate] leaves alone in a node. *)
Definition shape (n : MCTSNode) : OthelloGame * option nat * list nat * list Z :=
  (state n, parent n, children n, untried_moves n).

(** The tree invariant of a search in progress; [bound] limits the empty
    cells of every node's board. *)
Record tree_ok (bound : nat) (tree : list MCTSNode) : Prop := {
  ok_root :
    exists r, tree !! 0%nat = Some r /\ parent r = None /\
              is_game_over (state r) = false;
  ok_parent :
    forall j n p, tree !! j = Some n -> parent n = Some p ->
      (p < j)%nat /\ exists np, tree !! p = Some np /\ In j (children np);
  ok_orphan :
    forall j n, tree !! j = Some n -> parent n = None -> j = 0%nat;
  ok_children :
    forall i n c, tree !! i = Some n -> In c (children n) ->
      exists nc, tree !! c = Some nc /\ parent nc = Some i;
  ok_nodup :
    forall r, tree !! 0%nat = Some r -> NoDup (children r);
  ok_expanded :
    forall i n, tree !! i = Some n -> is_game_over (state n) = false ->
      untried_moves n = [] -> children n <> [];
  ok_untried :
    forall i n m, tree !! i = Some n -> In m (untried_moves n) ->
      In m (get_valid_moves (state n));
  ok_board :
    forall i n, tree !! i = Some n ->
      (disc_count 0 (board (state n)) <= bound)%nat
}.

(** ** Objects and aliasing

    [clone] is about object identity: a game object refers to its board
    list, and [apply_move] and [pass_turn] assign to the attributes of
    [self] and to the items of the list [self.board] refers to. The heap
    keeps list objects and game objects apart, each under a reference. *)
Record GameObject : Type := {
  board_ref : nat;                  (* the list [self.board] refers to *)
  obj_current_player : Z;
  obj_last_move : option Z;
  obj_turns_passed : Z
}.

Record heap : Type := {
  lists : gmap nat (list Z);
  objects : gmap nat GameObject
}.

(** The value of the game object [o]. *)
Definition load (h : heap) (o : nat) : option OthelloGame :=
  match objects h !! o with
  | Some ob =>
    match lists h !! board_ref ob with
    | Some cells =>
      Some {| board := cells; current_player := obj_current_player ob;
              last_move := obj_last_move ob; turns_passed := obj_turns_passed ob |}
    | None => None
    end
  | None => None
  end.

(** Writing the value [g] back into the object [o]: item assignments go
    to the list the object refers to, attribute assignments to the object;
    the [board] attribute itself is not reassigned. *)
Definition store (h : heap) (o : nat) (g : OthelloGame) : heap :=
  match objects h !! o with
  | Some ob =>
    {| lists := <[board_ref ob := board g]> (lists h);
       objects := <[o := {| board_ref := board_ref ob;
                            obj_current_player := current_player g;
                            obj_last_move := last_move g;
                            obj_turns_passed := turns_passed g |}]> (objects h) |}
  | None => h
  end.

(** [OthelloGame()]: a new board list and a new object. *)
Definition heap_new_game (h : heap) : heap * nat :=
  let l := fresh (dom (lists h)) in
  let o := fresh (dom (objects h)) in
  ({| lists := <[l := board new_game]> (lists h);
      objects := <[o := {| board_ref := l;
                           obj_current_player := current_player new_game;
                           obj_last_move := last_move new_game;
                           obj_turns_passed := turns_passed new_game |}]> (objects h) |},
   o).

(** [clone] on the object [self]: [self.board[:]] is a new list with the
    same items, assigned to the [board] attribute of the new object. *)
Definition heap_clone (h : heap) (self : nat) : py (heap * nat) :=
  match objects h !! self with
  | None => Raise DanglingRef
  | Some s =>
    match lists h !! board_ref s with
    | None => Raise DanglingRef
    | Some cells =>
      let h1 := fst (heap_new_game h) in
      let new := snd (heap_new_game h) in
      match objects h1 !! new with
      | None => Raise DanglingRef
      | Some ng =>
        let l := fresh (dom (lists h1)) in
        Ret ({| lists := <[l := cells]> (lists h1);
                objects := <[new := {| board_ref := l;
                                       obj_current_player := obj_current_player s;
                                       obj_last_move := obj_last_move ng;
                                       obj_turns_passed := obj_turns_passed ng |}]>
                             (objects h1) |},
             new)
      end
    end
  end.

Definition heap_apply_move (h : heap) (o : nat) (move : option Z)
    : py (heap * list event) :=
  match load h o with
  | None => Raise DanglingRef
  | Some g =>
    let! r := apply_move g move in
    Ret (store h o (fst r), snd r)
  end.

Definition heap_pass_turn (h : heap) (o : nat) : py (heap * list event) :=
  match load h o with
  | None => Raise DanglingRef
  | Some g => Ret (store h o (fst (pass_turn g)), snd (pass_turn g))
  end.

(** The calls that mutate a game. *)
Inductive op : Type :=
| ApplyMove (move : option Z)
| PassTurn.

Definition run_op (h : heap) (o : nat) (c : op) : heap :=
  match (match c with
         | ApplyMove move => heap_apply_move h o move
         | PassTurn => heap_pass_turn h o
         end) with
  | Ret r => fst r
  | Raise _ => h        (* an exception leaves every object as it was *)
  end.

Definition run_ops (h : heap) (o : nat) (cs : list op) : heap :=
  fold_left (fun h c => run_op h o c) cs h.

Definition empty_heap : heap := {| lists := ∅; objects := ∅ |}.

(** What the operations on the clone [o'] keep true: the original object
    and its list are as they were, and the clone has a list of its own. *)
Definition apart (h0 h : heap) (o o' : nat) : Prop :=
  o' <> o /\
  objects h !! o = objects h0 !! o /\
  exists ob ob',
    objects h0 !! o = Some ob /\
    lists h !! board_ref ob = lists h0 !! board_ref ob /\
    objects h !! o' = Some ob' /\
    board_ref ob' <> board_ref ob.

(** ** Well-formed games *)

(** A cell is empty, black or white. *)
Definition valid_cell (c : Z) : Prop := c = 0 \/ c = 1 \/ c = -1.

(** What every game built by the engine satisfies: 64 cells, each
    empty, black or white, a player who is black or white, and a pass
    count that is not negative. *)
Definition wf_game (g : OthelloGame) : Prop :=
  length (board g) = 64%nat /\
  Forall valid_cell (board g) /\
  (current_player g = 1 \/ current_player g = -1) /\
  0 <= turns_passed g.

(** The cell [k] steps from [(x, y)] in the direction [(dx, dy)]. *)
Definition step_index (x y dx dy : Z) (k : nat) : Z :=
  (x + Z.of_nat k * dx) * 8 + (y + Z.of_nat k * dy).

Definition step_in_bounds (x y dx dy : Z) (k : nat) : bool :=
  in_bounds (x + Z.of_nat k * dx) (y + Z.of_nat k * dy).

(** The capture rule, stated on its own: the [k >= 1] cells after
    [(x, y)] in the direction are on the board and hold the opponent's
    discs, and the next cell is on the board and holds the player's. *)
Definition brackets (b : list Z) (player : Z) (x y dx dy : Z) (k : nat) : Prop :=
  (1 <= k)%nat /\
  (forall j, (1 <= j <= k)%nat ->
     step_in_bounds x y dx dy j = true /\
     cell b (step_index x y dx dy j) = - player) /\
  step_in_bounds x y dx dy (S k) = true /\
  cell b (step_index x y dx dy (S k)) = player.

(** The cells [1..k] of a direction, nearest first. *)
Definition bracketed (x y dx dy : Z) (k : nat) : list Z :=
  map (step_index x y dx dy) (seq 1 k).

(** The capture rule started at step [s]: the cells [s..k] hold the
    opponent's discs and the cell [k + 1] the player's. *)
Definition brackets_from (b : list Z) (player : Z) (x y dx dy : Z) (s k : nat) : Prop :=
  (s <= S k)%nat /\
  (forall j, (s <= j <= k)%nat ->
     step_in_bounds x y dx dy j = true /\
     cell b (step_index x y dx dy j) = - player) /\
  step_in_bounds x y dx dy (S k) = true /\
  cell b (step_index x y dx dy (S k)) = player.

(** The cell [i] is captured by the move [m] of [player] on the board
    [b]: it lies between [m] and a disc of [player] in some direction,
    behind opponent discs only. *)
Definition captured (b : list Z) (player : Z) (m i : Z) : Prop :=
  exists d k,
    In d directions_flip /\
    brackets b player (m / 8) (m mod 8) (fst d) (snd d) k /\
    In i (bracketed (m / 8) (m mod 8) (fst d) (snd d) k).

(** ** The players *)

(** [NegascoutPlayer.get_move]: [None] stands for a pass; the time
    bookkeeping ([total_time]) is left out. *)
Definition negascout_get_move (depth_limit : nat) (game_state : OthelloGame)
    : option Z :=
  match get_valid_moves game_state with
  | [] => None
  | _ => fst (negascout_search depth_limit game_state)
  end.

(** Every node but the root holds the state its parent's state gives by
    the legal move recorded in [last_move]; the root holds [root_state]. *)
Definition moves_recorded (root_state : OthelloGame) (tree : list MCTSNode) : Prop :=
  (exists r, tree !! 0%nat = Some r /\ state r = root_state) /\
  forall c nc p np,
    tree !! c = Some nc -> parent nc = Some p -> tree !! p = Some np ->
    exists m, last_move (state nc) = Some m /\ In m (get_valid_moves (state np)).

Section MCTSPlayer.
Variable value : Type.
Variable value_gt : value -> value -> bool.
Variable inf : value.
Variable ucb1 : Z -> Z -> Z -> value -> value.
Variable search_weight : value.
Variable final_weight : value.
Variable rand : nat -> nat.

(** [MCTSPlayer.get_move]: [None] stands for a pass; the time
    bookkeeping ([total_time]) is left out. *)
Definition mcts_get_move (fuel : nat) (iteration_limit : nat) (k : nat)
    (game_state : OthelloGame) : py (option Z) :=
  match get_valid_moves game_state with
  | [] => Ret None
  | _ => search value value_gt inf ucb1 search_weight final_weight rand
                fuel iteration_limit k game_state
  end.
End MCTSPlayer.

(** [wins] of the node [c], 0 for a reference to no node. *)
Definition wins_at (tree : list MCTSNode) (c : nat) : Z :=
  match tree !! c with
  | Some n => wins n
  | None => 0
  end.

(** The sum of [wins] over the children of the root. *)
Definition root_children_wins (tree : list MCTSNode) : Z :=
  match tree !! 0%nat with
  | Some root => fold_right Z.add 0 (map (wins_at tree) (children root))
  | None => 0
  end.

(** The statistics of the root mirror those of its children: as many
    visits, and the opposite wins. *)
Definition root_mirrors (tree : list MCTSNode) : Prop :=
  visits_at tree 0 = root_children_visits tree /\
  wins_at tree 0 + root_children_wins tree = 0.

(** ** The game loops of the two programs *)

(** What the loops write to standard output. *)
Inductive line : Type :=
| Engine (e : event)            (* written by [apply_move] or [pass_turn] *)
| BoardPrinted (b : list Z)     (* [print_board]; the drawing is left out *)
| SaysPass                      (* "Pass" *)
| SaysThinking                  (* the AI announces that it is thinking *)
| SaysAIPasses                  (* the AI announces that it passes *)
| SaysCannotPlace.              (* the move is not among the legal ones *)

(** [move in moves]. *)
Definition is_member (move : Z) (moves : list Z) : bool :=
  existsb (Z.eqb move) moves.

Section Main1.
(** [main] of [src/main1.py]: black draws its moves at random, white is
    the NegaScout player. *)
Variable depth_limit : nat.
Variable rand : nat -> nat.

(** The inner [while True] loop. After a move is applied the loop goes
    on: only two passes in a row leave it. *)
Fixpoint main1_inner (fuel : nat) (game : OthelloGame) (k : nat) (out : list line)
    : py (OthelloGame * nat * list line) :=
  match fuel with
  | O => Raise OutOfFuel
  | S fuel' =>
    if turns_passed game >=? 2 then Ret (game, k, out)
    else
      let moves := get_valid_moves game in
      let place (move : Z) (k : nat) (out : list line) :=
        if is_member move moves then
          let! r := apply_move game (Some move) in
          main1_inner fuel' (fst r) k
                      (out ++ map Engine (snd r) ++ [BoardPrinted (board (fst r))])
        else main1_inner fuel' game k (out ++ [SaysCannotPlace]) in
      if Nat.eqb (length moves) 0 then
        let p := pass_turn game in
        main1_inner fuel' (fst p) k (out ++ [SaysPass] ++ map Engine (snd p))
      else if current_player game =? 1 then
        place (nth (rand k mod length moves)%nat moves 0) (S k) out
      else
        match negascout_get_move depth_limit game with
        | None =>
          let p := pass_turn game in
          main1_inner fuel' (fst p) k
                      (out ++ [SaysThinking; SaysAIPasses] ++ map Engine (snd p))
        | Some move => place move k (out ++ [SaysThinking])
        end
  end.

(** The outer [while not game.is_game_over()] loop. *)
Fixpoint main1_loop (fuel inner_fuel : nat) (game : OthelloGame) (k : nat)
    (out : list line) : py (OthelloGame * nat * list line) :=
  match fuel with
  | O => Raise OutOfFuel
  | S fuel' =>
    if is_game_over game then Ret (game, k, out)
    else
      let! r := main1_inner inner_fuel game k (out ++ [BoardPrinted (board game)]) in
      main1_loop fuel' inner_fuel (fst (fst r)) (snd (fst r)) (snd r)
  end.
End Main1.

Section Main.
(** One game of [main] of [src/main.py]: black draws its moves at
    random, white is the MCTS player; the tally over fifty games and the
    time bookkeeping are left out. *)
Variable value : Type.
Variable value_gt : value -> value -> bool.
Variable inf : value.
Variable ucb1 : Z -> Z -> Z -> value -> value.
Variable search_weight : value.
Variable final_weight : value.
Variable rand : nat -> nat.
Variable iteration_limit : nat.
Variable search_fuel : nat.

(** [ai_player.get_move(game)] with the position of the random
    generator after the call: the playouts of the search draw from the
    generator black draws from. *)
Definition ai_move (k : nat) (game : OthelloGame) : py (option Z * nat) :=
  let! move := mcts_get_move value value_gt inf ucb1 search_weight final_weight
                             rand search_fuel iteration_limit k game in
  match get_valid_moves game with
  | [] => Ret (move, k)
  | _ =>
    let! r := iterate value value_gt inf ucb1 search_weight rand iteration_limit
                      search_fuel [new_node game None] k in
    Ret (move, snd r)
  end.

(** The inner [while True] loop: it is left after a move is applied, or
    after two passes in a row. *)
Fixpoint main_inner (fuel : nat) (game : OthelloGame) (k : nat) (out : list line)
    : py (OthelloGame * nat * list line) :=
  match fuel with
  | O => Raise OutOfFuel
  | S fuel' =>
    if turns_passed game >=? 2 then Ret (game, k, out)
    else
      let moves := get_valid_moves game in
      let place (move : Z) (k : nat) :=
        if is_member move moves then
          let! r := apply_move game (Some move) in
          Ret (fst r, k, out ++ map Engine (snd r))
        else main_inner fuel' game k out in
      if Nat.eqb (length moves) 0 then
        let p := pass_turn game in
        main_inner fuel' (fst p) k (out ++ map Engine (snd p))
      else if current_player game =? 1 then
        place (nth (rand k mod length moves)%nat moves 0) (S k)
      else
        let! a := ai_move k game in
        match fst a with
        | None =>
          let p := pass_turn game in
          main_inner fuel' (fst p) (snd a) (out ++ map Engine (snd p))
        | Some move => place move (snd a)
        end
  end.

(** The outer [while not game.is_game_over()] loop. *)
Fixpoint main_loop (fuel inner_fuel : nat) (game : OthelloGame) (k : nat)
    (out : list line) : py (OthelloGame * nat * list line) :=
  match fuel with
  | O => Raise OutOfFuel
  | S fuel' =>
    if is_game_over game then Ret (game, k, out)
    else
      let! r := main_inner inner_fuel game k out in
      main_loop fuel' inner_fuel (fst (fst r)) (snd (fst r)) (snd r)
  end.
End Main.

(** What the pass count records: after one pass the player who passed
    had no legal move, after two neither player has one. *)
Definition pass_trail (g : OthelloGame) : Prop :=
  turns_passed g = 0 \/
  (turns_passed g = 1 /\ get_valid_moves (fst (pass_turn g)) = []) \/
  (turns_passed g = 2 /\ get_valid_moves g = [] /\
   get_valid_moves (fst (pass_turn g)) = []).

(** The course of a playout: [played rand k g ms final] says that
    [final] is reached from [g] by playing the moves [ms] in turn, where
    every move is a legal move of the state it is played in, that state
    is not over, and the move is the one the draw number [k], [k + 1],
    ... picks among the legal moves. *)
Inductive played (rand : nat -> nat)
    : nat -> OthelloGame -> list Z -> OthelloGame -> Prop :=
| played_nil k g : played rand k g [] g
| played_cons k g m g' ms final :
    is_game_over g = false ->
    In m (get_valid_moves g) ->
    m = choice rand k (get_valid_moves g) ->
    apply_move g (Some m) = Ret (g', []) ->
    played rand (S k) g' ms final ->
    played rand k g (m :: ms) final.
(** * Properties *)

Example opening_moves : get_valid_moves new_game = [19; 26; 37; 44].
Proof. vm_compute. reflexivity. Qed.

(** ** Basic facts about the rules engine *)

Lemma reachable_play ms g : reachable g -> reachable (play ms g).
Proof.
  revert g. induction ms as [|m ms IH]; intros g Hg; simpl.
  - exact Hg.
  - apply IH. now apply reach_move.
Qed.

Lemma norm_index_in_range n i :
  0 <= i < Z.of_nat n -> norm_index n i = Some (Z.to_nat i).
Proof.
  intros Hi. unfold norm_index.
  destruct (Z.leb_spec 0 i); [|lia].
  destruct (Z.ltb_spec i (Z.of_nat n)); [|lia]. reflexivity.
Qed.

Lemma norm_index_lt n i k : norm_index n i = Some k -> (k < n)%nat.
Proof.
  unfold norm_index.
  destruct (Z.leb_spec 0 i), (Z.ltb_spec i (Z.of_nat n)); simpl;
    try (intros [= <-]; lia);
    destruct (Z.leb_spec (- Z.of_nat n) i), (Z.ltb_spec i 0); simpl;
    try discriminate; intros [= <-]; lia.
Qed.

Lemma getitem_in_range l i :
  0 <= i < Z.of_nat (length l) -> getitem l i = Ret (cell l i).
Proof.
  intros Hi. unfold getitem, cell. rewrite norm_index_in_range by exact Hi.
  destruct (l !! Z.to_nat i) eqn:E; [reflexivity|].
  apply lookup_ge_None in E. lia.
Qed.

Lemma setitem_in_range l i v :
  0 <= i < Z.of_nat (length l) -> setitem l i v = Ret (put l i v).
Proof.
  intros Hi. unfold setitem, put. now rewrite norm_index_in_range.
Qed.

Lemma getitem_out_of_range l i :
  i < - Z.of_nat (length l) \/ Z.of_nat (length l) <= i ->
  getitem l i = Raise IndexError.
Proof.
  intros Hi. unfold getitem, norm_index.
  destruct (Z.leb_spec 0 i), (Z.ltb_spec i (Z.of_nat (length l))); simpl;
    try lia; try reflexivity;
    destruct (Z.leb_spec (- Z.of_nat (length l)) i), (Z.ltb_spec i 0); simpl;
    try lia; reflexivity.
Qed.

(** On a 64-cell board [is_valid_move] returns for every index of
    [range(64)]. *)
Lemma is_valid_move_no_raise g i :
  length (board g) = 64%nat -> 0 <= i < 64 ->
  exists ok, is_valid_move g i = Ret ok.
Proof.
  intros Hlen Hi. unfold is_valid_move.
  rewrite getitem_in_range by (rewrite Hlen; lia). simpl.
  destruct (negb _); eauto.
Qed.

Lemma length_put b i v : length (put b i v) = length b.
Proof. unfold put. apply length_insert. Qed.

Lemma length_fold_put p flips b :
  length (fold_left (fun b flip => put b flip p) flips b) = length b.
Proof.
  revert b. induction flips as [|f fs IH]; intros b; simpl; [reflexivity|].
  rewrite IH. apply length_put.
Qed.

(** *** The walks stop within [walk_fuel] passes *)

Lemma room_step dx dy nx ny :
  is_direction dx dy -> in_bounds nx ny = true ->
  (room dx dy (nx + dx) (ny + dy) < room dx dy nx ny)%nat.
Proof.
  unfold is_direction, in_bounds, room. intros (Hx & Hy & Hne) Hb.
  apply andb_prop in Hb as [Hb H4]. apply andb_prop in Hb as [Hb H3].
  apply andb_prop in Hb as [H1 H2].
  apply Z.leb_le in H1, H3. apply Z.ltb_lt in H2, H4.
  destruct Hx as [->|[->| ->]]; destruct Hy as [->|[->| ->]]; simpl; lia.
Qed.

Lemma room_bound dx dy nx ny :
  is_direction dx dy -> in_bounds nx ny = true -> (room dx dy nx ny <= 8)%nat.
Proof.
  unfold is_direction, in_bounds, room. intros (Hx & Hy & Hne) Hb.
  apply andb_prop in Hb as [Hb H4]. apply andb_prop in Hb as [Hb H3].
  apply andb_prop in Hb as [H1 H2].
  apply Z.leb_le in H1, H3. apply Z.ltb_lt in H2, H4.
  destruct Hx as [->|[->| ->]]; destruct Hy as [->|[->| ->]]; simpl; lia.
Qed.

Lemma can_flip_loop_enough b p dx dy :
  is_direction dx dy ->
  forall f1 f2 nx ny fl,
    (room dx dy nx ny < f1)%nat -> (room dx dy nx ny < f2)%nat ->
    can_flip_loop f1 b p dx dy nx ny fl = can_flip_loop f2 b p dx dy nx ny fl.
Proof.
  intros Hd. induction f1 as [|f1 IH]; intros f2 nx ny fl H1 H2; [lia|].
  destruct f2 as [|f2]; [lia|]. simpl.
  destruct (in_bounds nx ny) eqn:Hb; [|reflexivity].
  pose proof (room_step dx dy nx ny Hd Hb) as Hs.
  destruct (cell b (nx * 8 + ny) =? - p); [|reflexivity].
  apply IH; lia.
Qed.

Lemma flip_loop_enough b p dx dy :
  is_direction dx dy ->
  forall f1 f2 nx ny acc,
    (room dx dy nx ny < f1)%nat -> (room dx dy nx ny < f2)%nat ->
    flip_loop f1 b p dx dy nx ny acc = flip_loop f2 b p dx dy nx ny acc.
Proof.
  intros Hd. induction f1 as [|f1 IH]; intros f2 nx ny acc H1 H2; [lia|].
  destruct f2 as [|f2]; [lia|]. simpl.
  destruct (in_bounds nx ny) eqn:Hb; [|reflexivity].
  pose proof (room_step dx dy nx ny Hd Hb) as Hs.
  destruct (cell b (nx * 8 + ny) =? 0); [reflexivity|].
  destruct (cell b (nx * 8 + ny) =? p); [reflexivity|].
  apply IH; lia.
Qed.

(** More fuel than [walk_fuel] never changes [can_flip]'s loop. *)
Lemma can_flip_fuel b p dx dy nx ny fl fuel :
  is_direction dx dy -> (walk_fuel <= fuel)%nat ->
  can_flip_loop fuel b p dx dy nx ny fl
  = can_flip_loop walk_fuel b p dx dy nx ny fl.
Proof.
  intros Hd Hf. unfold walk_fuel in *.
  destruct (in_bounds nx ny) eqn:Hb.
  - pose proof (room_bound dx dy nx ny Hd Hb).
    apply can_flip_loop_enough; [exact Hd|lia|lia].
  - destruct fuel as [|fuel]; [lia|]. simpl. now rewrite Hb.
Qed.

Lemma flip_loop_fuel b p dx dy nx ny acc fuel :
  is_direction dx dy -> (walk_fuel <= fuel)%nat ->
  flip_loop fuel b p dx dy nx ny acc
  = flip_loop walk_fuel b p dx dy nx ny acc.
Proof.
  intros Hd Hf. unfold walk_fuel in *.
  destruct (in_bounds nx ny) eqn:Hb.
  - pose proof (room_bound dx dy nx ny Hd Hb).
    apply flip_loop_enough; [exact Hd|lia|lia].
  - destruct fuel as [|fuel]; [lia|]. simpl. now rewrite Hb.
Qed.

Lemma directions_valid_ok d :
  In d directions_valid -> is_direction (fst d) (snd d).
Proof.
  unfold directions_valid, is_direction. simpl.
  intros H; repeat (destruct H as [<-|H]; [simpl; lia|]); destruct H.
Qed.

Lemma directions_flip_ok d :
  In d directions_flip -> is_direction (fst d) (snd d).
Proof.
  unfold directions_flip, is_direction. simpl.
  intros H; repeat (destruct H as [<-|H]; [simpl; lia|]); destruct H.
Qed.

Lemma directions_same d : In d directions_valid -> In d directions_flip.
Proof.
  unfold directions_valid, directions_flip. simpl. tauto.
Qed.

(** *** Counting discs under writes *)

Lemma disc_count_cons p c b :
  disc_count p (c :: b) = ((if (p =? c)%Z then 1 else 0) + disc_count p b)%nat.
Proof. unfold disc_count. simpl. destruct (p =? c); reflexivity. Qed.

Lemma disc_count_insert p (b : list Z) (k : nat) :
  (k < length b)%nat ->
  disc_count p (<[k := p]> b)
  = (disc_count p b + (if decide (b !! k = Some p) then 0 else 1))%nat.
Proof.
  revert k. induction b as [|c b IH]; intros k Hk; simpl in Hk.
  - lia.
  - destruct k as [|k]; simpl.
    + rewrite !disc_count_cons. rewrite Z.eqb_refl. 
      destruct (decide (Some c = Some p)) as [[= ->]|Hne].
      * rewrite Z.eqb_refl. simpl. lia.
      * destruct (Z.eqb_spec p c) as [->|_]; [congruence|]. lia.
    + rewrite !disc_count_cons. rewrite IH by lia.
      destruct (p =? c); simpl; lia.
Qed.

Lemma disc_count_put_le p b i :
  (disc_count p b <= disc_count p (put b i p))%nat.
Proof.
  unfold put. destruct (Nat.lt_ge_cases (Z.to_nat i) (length b)) as [H|H].
  - rewrite disc_count_insert by exact H. lia.
  - rewrite list_insert_ge by exact H. lia.
Qed.

Lemma disc_count_fold_put_le p flips b :
  (disc_count p b
   <= disc_count p (fold_left (fun b flip => put b flip p) flips b))%nat.
Proof.
  revert b. induction flips as [|f fs IH]; intros b; simpl; [lia|].
  pose proof (disc_count_put_le p b f). pose proof (IH (put b f p)). lia.
Qed.

Lemma disc_count_fold_put_lt p flips b f :
  In f flips -> 0 <= f < Z.of_nat (length b) -> cell b f <> p ->
  (disc_count p b
   < disc_count p (fold_left (fun b flip => put b flip p) flips b))%nat.
Proof.
  revert b. induction flips as [|a fs IH]; intros b Hin Hf Hc; simpl in *.
  - destruct Hin.
  - destruct (decide (cell b a = p /\ (Z.to_nat a < length b)%nat)) as [[Ha Hlt]|Hna].
    + (* the write at [a] changes nothing *)
      assert (put b a p = b) as ->.
      { unfold put, cell in *. apply list_insert_id.
        destruct (b !! Z.to_nat a) eqn:E; simpl in Ha; [congruence|].
        apply lookup_ge_None in E. lia. }
      destruct Hin as [->|Hin]; [congruence|]. now apply IH.
    + destruct (Nat.lt_ge_cases (Z.to_nat a) (length b)) as [Hlt|Hge].
      * assert (disc_count p (put b a p) = S (disc_count p b)) as Hs.
        { unfold put. rewrite disc_count_insert by exact Hlt.
          destruct (decide (b !! Z.to_nat a = Some p)) as [E|_]; [|lia].
          exfalso. apply Hna. split; [|exact Hlt]. unfold cell. now rewrite E. }
        pose proof (disc_count_fold_put_le p fs (put b a p)). lia.
      * assert (put b a p = b) as -> by (unfold put; now apply list_insert_ge).
        destruct Hin as [->|Hin]; [lia|]. now apply IH.
Qed.

(** *** What [can_flip] finds, [flip_discs] flips *)

Lemma can_flip_loop_player fuel b p dx dy nx ny fl :
  can_flip_loop fuel b p dx dy nx ny fl = true -> p <> 0.
Proof.
  revert nx ny fl. induction fuel as [|fuel IH]; intros nx ny fl; simpl.
  - discriminate.
  - destruct (in_bounds nx ny); [|discriminate].
    destruct (Z.eqb_spec (cell b (nx * 8 + ny)) (- p)) as [E|E]; [apply IH|].
    destruct (Z.eqb_spec (cell b (nx * 8 + ny)) p) as [E'|E']; [|discriminate].
    intros _. lia.
Qed.

Lemma in_bounds_index nx ny : in_bounds nx ny = true -> 0 <= nx * 8 + ny < 64.
Proof.
  unfold in_bounds. intros Hb.
  apply andb_prop in Hb as [Hb H4]. apply andb_prop in Hb as [Hb H3].
  apply andb_prop in Hb as [H1 H2].
  apply Z.leb_le in H1, H3. apply Z.ltb_lt in H2, H4. lia.
Qed.

(** If the capture test succeeds on [b0], the flip walk on any board
    [b1] that agrees with [b0] on occupied cells collects opponent cells,
    and at least one when the test had seen none yet. *)
Lemma can_flip_loop_flip_loop b0 b1 p dx dy :
  (forall i, cell b0 i <> 0 -> cell b1 i = cell b0 i) ->
  forall fuel nx ny fl acc,
    can_flip_loop fuel b0 p dx dy nx ny fl = true ->
    exists extra,
      flip_loop fuel b1 p dx dy nx ny acc = acc ++ extra /\
      (fl = false -> extra <> []) /\
      (forall f, In f extra -> 0 <= f < 64 /\ cell b0 f = - p).
Proof.
  intros Hagree. induction fuel as [|fuel IH]; intros nx ny fl acc H.
  - discriminate.
  - pose proof (can_flip_loop_player _ _ _ _ _ _ _ _ H) as Hp.
    simpl in *. destruct (in_bounds nx ny) eqn:Hb; [|discriminate].
    pose proof (in_bounds_index _ _ Hb) as Hidx.
    destruct (Z.eqb_spec (cell b0 (nx * 8 + ny)) (- p)) as [E|E].
    + rewrite (Hagree (nx * 8 + ny)) by lia. rewrite E.
      destruct (Z.eqb_spec (- p) 0); [lia|].
      destruct (Z.eqb_spec (- p) p); [lia|].
      destruct (IH _ _ _ (acc ++ [nx * 8 + ny]) H) as (extra & Hr & _ & Hall).
      exists ((nx * 8 + ny) :: extra). split; [|split].
      * rewrite Hr. now rewrite <- app_assoc.
      * discriminate.
      * intros f [<-|Hf]; [split; [lia|exact E]|now apply Hall].
    + destruct (Z.eqb_spec (cell b0 (nx * 8 + ny)) p) as [E'|E']; [|discriminate].
      rewrite (Hagree (nx * 8 + ny)) by lia. rewrite E'.
      destruct (Z.eqb_spec p 0); [lia|]. rewrite Z.eqb_refl.
      exists []. split; [now rewrite app_nil_r|]. split; [congruence|].
      intros f [].
Qed.

(** A valid move makes [flip_discs], run after the disc is placed, return
    at least one cell, and that cell holds an opponent disc. *)
Lemma valid_move_flips g index :
  length (board g) = 64%nat -> 0 <= index < 64 ->
  is_valid_move g index = Ret true ->
  cell (board g) index = 0 /\
  exists f,
    In f (flip_discs (put (board g) index (current_player g)) index (current_player g)) /\
    0 <= f < 64 /\ cell (board g) f = - current_player g /\ current_player g <> 0.
Proof.
  intros Hlen Hi Hv. unfold is_valid_move in Hv.
  rewrite getitem_in_range in Hv by (rewrite Hlen; lia).
  cbn [py_bind] in Hv.
  destruct (Z.eqb_spec (cell (board g) index) 0) as [Hc|Hc]; cbn [negb] in Hv;
    [|discriminate].
  split; [exact Hc|]. apply (f_equal truthy) in Hv. cbn [truthy] in Hv.
  apply existsb_exists in Hv as (d & Hd & Hflip).
  unfold can_flip in Hflip.
  pose proof (can_flip_loop_player _ _ _ _ _ _ _ _ Hflip) as Hp.
  assert (Hagree : forall i, cell (board g) i <> 0 ->
            cell (put (board g) index (current_player g)) i = cell (board g) i).
  { intros i Hne. unfold cell, put.
    destruct (decide (Z.to_nat index = Z.to_nat i)) as [E|E].
    - exfalso. apply Hne. unfold cell in *. now rewrite <- E.
    - now rewrite list_lookup_insert_ne. }
  destruct (can_flip_loop_flip_loop _ _ _ _ _ Hagree _ _ _ _ [] Hflip)
    as (extra & Hr & Hne & Hall).
  destruct extra as [|f extra]; [now specialize (Hne eq_refl)|].
  exists f. destruct (Hall f (or_introl eq_refl)) as [Hf Hcf].
  split; [|auto]. unfold flip_discs. apply in_flat_map.
  exists d. split; [now apply directions_same|].
  cbn beta. rewrite Hr. now left.
Qed.

(** ** The opening position *)

(** C8: a new game has exactly four occupied cells, 27 and 36 for white
    and 28 and 35 for black, and black, who starts, has exactly the four
    opening moves 19, 26, 37 and 44. *)
Theorem C8_opening_position :
  length (board new_game) = 64%nat /\
  List.filter (fun i => negb (cell (board new_game) i =? 0)) range64
    = [27; 28; 35; 36] /\
  cell (board new_game) 27 = -1 /\ cell (board new_game) 36 = -1 /\
  cell (board new_game) 28 = 1 /\ cell (board new_game) 35 = 1 /\
  disc_count 1 (board new_game) = 2%nat /\
  disc_count (-1) (board new_game) = 2%nat /\
  current_player new_game = 1 /\
  get_valid_moves new_game = [19; 26; 37; 44].
Proof. repeat split; vm_compute; reflexivity. Qed.

(** ** Cloning *)

(** C10: a clone has the original's cells and player, no last move and a
    pass count of zero, whatever the original's last move and pass count. *)
Theorem C10_clone_fields (g : OthelloGame) :
  board (clone g) = board g /\
  current_player (clone g) = current_player g /\
  last_move (clone g) = None /\
  turns_passed (clone g) = 0.
Proof. unfold clone. cbn. repeat split. Qed.

(** ** Legal moves capture *)

Lemma apply_move_valid g index :
  0 <= index < Z.of_nat (length (board g)) ->
  is_valid_move g index = Ret true ->
  exists g',
    apply_move g (Some index) = Ret (g', []) /\
    board g' =
      fold_left (fun b flip => put b flip (current_player g))
        (flip_discs (put (board g) index (current_player g)) index (current_player g))
        (put (board g) index (current_player g)) /\
    current_player g' = current_player g * -1 /\
    last_move g' = Some index /\
    turns_passed g' = 0.
Proof.
  intros Hi Hv. unfold apply_move. rewrite Hv. cbn [py_bind].
  unfold place. rewrite setitem_in_range by exact Hi.
  cbn [py_bind]. eexists. split; [reflexivity|]. cbn. repeat split.
Qed.

Lemma apply_move_not_valid g index :
  is_valid_move g index = Ret false ->
  apply_move g (Some index) = Ret (g, [InvalidMoveDetected (Some index)]).
Proof. intros Hv. unfold apply_move. now rewrite Hv. Qed.

(** C3: on a 64-cell board and for a cell index, [is_valid_move] holds
    exactly when [apply_move] raises the mover's disc count by at least
    two: the disc placed and at least one disc flipped. *)
Theorem C3_valid_iff_gain (g : OthelloGame) (index : Z) :
  length (board g) = 64%nat -> 0 <= index < 64 ->
  is_valid_move g index = Ret true <->
  exists g' out,
    apply_move g (Some index) = Ret (g', out) /\
    (disc_count (current_player g) (board g) + 2
     <= disc_count (current_player g) (board g'))%nat.
Proof.
  intros Hlen Hi. split.
  - intros Hv.
    destruct (apply_move_valid g index ltac:(rewrite Hlen; lia) Hv)
      as (g' & Ha & Hb & _).
    destruct (valid_move_flips g index Hlen Hi Hv)
      as (Hempty & f & Hin & Hf & Hcf & Hp).
    exists g', []. split; [exact Ha|]. rewrite Hb.
    set (p := current_player g) in *. set (b1 := put (board g) index p).
    assert (disc_count p b1 = S (disc_count p (board g))) as H1.
    { unfold b1, put. rewrite disc_count_insert by (rewrite Hlen; lia).
      destruct (decide (board g !! Z.to_nat index = Some p)) as [E|_]; [|lia].
      unfold cell in Hempty. rewrite E in Hempty. simpl in Hempty. lia. }
    assert (cell b1 f <> p) as H2.
    { unfold b1, cell, put. destruct (decide (Z.to_nat index = Z.to_nat f)) as [E|E].
      - unfold cell in Hempty, Hcf. rewrite E in Hempty. lia.
      - rewrite list_lookup_insert_ne by exact E. unfold cell in Hcf. lia. }
    pose proof (disc_count_fold_put_lt p _ b1 f Hin) as H3.
    unfold b1 in H3 at 1. rewrite length_put, Hlen in H3.
    specialize (H3 ltac:(lia) H2). subst b1. lia.
  - intros (g' & out & Ha & Hcount).
    destruct (is_valid_move_no_raise g index Hlen Hi) as [[|] Hv]; [exact Hv|].
    rewrite (apply_move_not_valid g index Hv) in Ha.
    injection Ha as <- _. lia.
Qed.

Lemma C3_valid_iff_gain_witness :
  is_valid_move new_game 19 = Ret true <->
  exists g' out,
    apply_move new_game (Some 19) = Ret (g', out) /\
    (disc_count (current_player new_game) (board new_game) + 2
     <= disc_count (current_player new_game) (board g'))%nat.
Proof.
  apply (C3_valid_iff_gain new_game 19); [reflexivity | lia].
Defined.

(** ** Rejected moves *)

(** An absent move, an index of [0..63] whose cell is occupied or that
    captures nothing, and an index Python rejects all leave the game as
    it was: the first two print the message, the last raises. *)
Lemma apply_move_rejects g move :
  length (board g) = 64%nat ->
  match move with
  | None => apply_move g None = Ret (g, [InvalidMoveDetected None])
  | Some m =>
    (0 <= m < 64 -> is_valid_move g m = Ret false ->
     apply_move g move = Ret (g, [InvalidMoveDetected move])) /\
    (m < -64 \/ 64 <= m -> apply_move g move = Raise IndexError)
  end.
Proof.
  intros Hlen. destruct move as [m|]; [|reflexivity]. split.
  - intros _ Hv. now apply apply_move_not_valid.
  - intros Hm. unfold apply_move, is_valid_move.
    rewrite getitem_out_of_range by (rewrite Hlen; lia). reflexivity.
Qed.

(** C4 (the code departs from the claim): after the moves 19, 20, 13,
    12, 5, 4 of a new game, [apply_move(-5)] is given an index outside
    the board, yet nothing is printed or raised and the cells, the player
    and the last move all change: Python reads [board[-5]] as [board[59]]
    and the walk from row -1 finds the white disc at 4 before the black
    disc at 13. *)
Theorem C4_negative_index_mutates :
  let g := play [19; 20; 13; 12; 5; 4] new_game in
  reachable g /\
  length (board g) = 64%nat /\
  invalid_move g (Some (-5)) /\
  exists g',
    apply_move g (Some (-5)) = Ret (g', []) /\
    cell (board g) 59 = 0 /\ cell (board g') 59 = 1 /\
    cell (board g) 4 = -1 /\ cell (board g') 4 = 1 /\
    current_player g = 1 /\ current_player g' = -1 /\
    last_move g = Some 4 /\ last_move g' = Some (-5).
Proof.
  cbv zeta. split; [apply reachable_play, reach_new|].
  split; [vm_compute; reflexivity|].
  split; [left; lia|].
  eexists. split; [vm_compute; reflexivity|].
  repeat split; vm_compute; reflexivity.
Qed.

(** ** Termination test *)

(** C1 (the code departs from the claim), in both directions. After the
    moves 26, 18, 37, 25, 24, 32, 10, 16 black is to move and has no
    legal move while white has two; no pass has happened and the board
    is not full, yet [is_game_over] answers true. After the moves 37, 45,
    19, 20, 21, 29, 54, 53, 61 neither side can move; once both have
    passed, [turns_passed] is 2 and no move is available, yet
    [is_game_over] answers false. *)
Theorem C1_is_game_over_departs :
  (let g := play [26; 18; 37; 25; 24; 32; 10; 16] new_game in
   reachable g /\
   turns_passed g = 0 /\ board_full (board g) = false /\
   get_valid_moves g = [] /\
   get_valid_moves (fst (pass_turn g)) <> [] /\
   is_game_over g = true /\ ~ game_over_spec g) /\
  (let g := fst (pass_turn (fst (pass_turn
              (play [37; 45; 19; 20; 21; 29; 54; 53; 61] new_game)))) in
   reachable g /\
   turns_passed g = 2 /\
   get_valid_moves g = [] /\
   get_valid_moves (fst (pass_turn g)) = [] /\
   is_game_over g = false /\ game_over_spec g).
Proof.
  cbv zeta. split.
  - split; [apply reachable_play, reach_new|].
    repeat split; try (vm_compute; reflexivity).
    + vm_compute. discriminate.
    + intros [[H _]|[H _]]; vm_compute in H; [now apply H|discriminate].
  - split; [do 2 apply reach_pass; apply reachable_play, reach_new|].
    repeat split; try (vm_compute; reflexivity).
    left. split; vm_compute; [discriminate|reflexivity].
Qed.

(** ** NegaScout computes the minimax value *)

Ltac ext_cases :=
  repeat match goal with
         | x : ext |- _ => destruct x
         end;
  unfold ext_leb, ext_max in *; cbn [ext_ltb ext_neg ext_pred negb] in *;
  try discriminate.

Ltac z_bool :=
  repeat match goal with
         | H : (_ <? _) = true |- _ => apply Z.ltb_lt in H
         | H : (_ <? _) = false |- _ => apply Z.ltb_ge in H
         | H : negb (_ <? _) = true |- _ => apply negb_true_iff, Z.ltb_ge in H
         | H : negb (_ <? _) = false |- _ => apply negb_false_iff, Z.ltb_lt in H
         | |- (_ <? _) = true => apply Z.ltb_lt
         | |- (_ <? _) = false => apply Z.ltb_ge
         | |- negb (_ <? _) = true => apply negb_true_iff, Z.ltb_ge
         | |- negb (_ <? _) = false => apply negb_false_iff, Z.ltb_lt
         end.

Ltac ltb_case a b :=
  let t := fresh "t" in
  let S := fresh "S" in
  set (t := a <? b) in *;
  assert (S : BoolSpec (a < b) (b <= a) t) by (subst t; apply Z.ltb_spec);
  clearbody t; destruct S; cbn [ext_ltb ext_neg ext_pred negb] in *.

Ltac ext_lia :=
  repeat match goal with
         | x : ext |- _ => destruct x
         end;
  unfold ext_leb, ext_max in *; cbn [ext_ltb ext_neg ext_pred negb] in *;
  repeat match goal with
         | H : context [?a <? ?b] |- _ => ltb_case a b
         | |- context [?a <? ?b] => ltb_case a b
         end;
  repeat match goal with
         | H : ?x = ?x -> _ |- _ => specialize (H eq_refl)
         | H : true = false -> _ |- _ => clear H
         | H : false = true -> _ |- _ => clear H
         end;
  try discriminate; try reflexivity; try lia; try (f_equal; lia).

Lemma negascout_loop_cons sc state move rest i score alpha beta color bm :
  negascout_loop sc state (move :: rest) i score alpha beta color bm =
  let current_score := current_score_of sc state move i alpha beta color in
  let '(score, best_move) :=
    if ext_ltb score current_score then (current_score, Some move)
    else (score, bm) in
  let alpha := ext_max alpha score in
  if ext_leb beta alpha then (score, best_move)
  else negascout_loop sc state rest (S i) score alpha beta color best_move.
Proof. reflexivity. Qed.

Lemma fail_soft_neg r e alpha beta :
  fail_soft r e (ext_neg beta) (ext_neg alpha) ->
  fail_soft (ext_neg r) (- e) alpha beta.
Proof.
  intros (z & -> & Hlo & Hmid & Hhi). exists (- z). split; [reflexivity|].
  repeat split.
  - intros H. enough (z <= e) by lia. apply Hhi.
    destruct alpha; ext_cases; z_bool; try lia; reflexivity.
  - intros H1 H2. enough (z = e) by lia. apply Hmid.
    + destruct beta; ext_cases; z_bool; try lia; reflexivity.
    + destruct alpha; ext_cases; z_bool; try lia; reflexivity.
  - intros H. enough (e <= z) by lia. apply Hlo.
    destruct beta; ext_cases; z_bool; try lia; reflexivity.
Qed.

Lemma fold_max_ge (value : Z -> Z) rest init :
  init <= fold_left (fun best m => Z.max best (value m)) rest init.
Proof.
  revert init. induction rest as [|m rest IH]; intros init; simpl; [lia|].
  specialize (IH (Z.max init (value m))). lia.
Qed.

Section Scout.
(** The recursive call and the exact value it approximates. *)
Variable search_child : OthelloGame -> ext -> ext -> Z -> ext.
Variable exact : OthelloGame -> Z.
Variable state : OthelloGame.
Variable color : Z.

Hypothesis search_child_ok :
  forall child a b, ext_ltb a b = true ->
    fail_soft (search_child child a b (- color)) (exact child) a b.

Let value (m : Z) : Z := - exact (child_state state m).

(** The scout search followed by its re-search is as good as a search
    with the window [(alpha, beta)]. *)
Lemma current_score_fail_soft move i alpha beta :
  ext_ltb alpha beta = true ->
  (i <> 0%nat -> exists az, alpha = Fin az) ->
  fail_soft (current_score_of search_child state move i alpha beta color)
            (value move) alpha beta.
Proof.
  intros Hab Hfin. unfold current_score_of.
  destruct (Nat.eqb_spec i 0) as [_|Hi].
  - apply fail_soft_neg, search_child_ok.
    destruct alpha, beta; ext_cases; z_bool; try lia; reflexivity.
  - destruct (Hfin Hi) as [az ->].
    assert (H1 : fail_soft
              (ext_neg (search_child (child_state state move)
                          (ext_pred (ext_neg (Fin az))) (ext_neg (Fin az)) (- color)))
              (value move) (Fin az) (Fin (az + 1))).
    { apply fail_soft_neg.
      replace (ext_neg (Fin (az + 1))) with (ext_pred (ext_neg (Fin az)))
        by (simpl; f_equal; lia).
      apply search_child_ok. simpl. z_bool. lia. }
    destruct H1 as (c1 & E1 & Hlo1 & _ & Hhi1). rewrite E1.
    destruct (ext_ltb (Fin az) (Fin c1) && ext_ltb (Fin c1) beta) eqn:Hre.
    + apply andb_prop in Hre as [Hre1 Hre2].
      assert (H2 : fail_soft
                (ext_neg (search_child (child_state state move)
                            (ext_neg beta) (ext_neg (Fin c1)) (- color)))
                (value move) (Fin c1) beta).
      { apply fail_soft_neg, search_child_ok.
        destruct beta; ext_cases; z_bool; try lia; reflexivity. }
      destruct H2 as (c2 & E2 & Hlo2 & Hmid2 & Hhi2). rewrite E2.
      assert (c1 <= value move).
      { apply Hhi1. ext_cases; z_bool; lia. }
      exists c2. split; [reflexivity|]. simpl in Hre1. z_bool.
      assert (Hc : c2 <= c1 -> value move <= c2).
      { intros Hle. apply Hlo2. ext_cases; z_bool; lia. }
      assert (Hm : c1 < c2 -> ext_ltb (Fin c2) beta = true -> c2 = value move).
      { intros Hlt Hb. apply Hmid2; [|exact Hb]. simpl. z_bool. lia. }
      repeat split.
      * intros H'. ext_cases; z_bool;
          (destruct (Z.le_gt_cases c2 c1); [specialize (Hc ltac:(lia))|]; lia).
      * intros _ Hb.
        destruct (Z.le_gt_cases c2 c1); [specialize (Hc ltac:(lia)); lia|].
        now apply Hm.
      * exact Hhi2.
    + exists c1. split; [reflexivity|].
      apply andb_false_iff in Hre. repeat split.
      * intros H'. apply Hlo1. exact H'.
      * intros Ha Hb. rewrite Ha, Hb in Hre.
        destruct Hre; discriminate.
      * intros H'. apply Hhi1. clear Hre. destruct beta; ext_cases; z_bool; lia.
Qed.

(** The loop after its first pass: [score] is [Fin z], [alpha] is the
    larger of the window's lower end [alpha0] and [score], and [best]
    is the largest exact value among the moves already seen. *)
Lemma negascout_loop_fail_soft alpha0 beta :
  ext_ltb alpha0 beta = true ->
  forall rest i z best bm,
    ext_ltb (ext_max alpha0 (Fin z)) beta = true ->
    (ext_leb (Fin z) alpha0 = true -> best <= z) ->
    (ext_ltb alpha0 (Fin z) = true -> z = best) ->
    fail_soft
      (fst (negascout_loop search_child state rest (S i) (Fin z)
              (ext_max alpha0 (Fin z)) beta color bm))
      (fold_left (fun b m => Z.max b (value m)) rest best)
      alpha0 beta.
Proof.
  intros Hab. induction rest as [|move rest IH]; intros i z best bm Hlt Hlo Hmid.
  - simpl. exists z. split; [reflexivity|]. repeat split; auto.
    intros H'. ext_lia.
  - rewrite negascout_loop_cons. cbv zeta.
    assert (Hfin : exists az, ext_max alpha0 (Fin z) = Fin az).
    { clear IH. ext_lia; eauto. }
    destruct Hfin as (az & Eaz).
    pose proof (current_score_fail_soft move (S i) _ beta Hlt
                  ltac:(intros _; eauto)) as (c & Ec & Hclo & Hcmid & Hchi).
    rewrite Ec. simpl (ext_ltb (Fin z) (Fin c)).
    pose proof (fold_max_ge value rest (Z.max best (value move))) as Hge.
    simpl (fold_left _ (move :: rest) best).
    destruct (Z.ltb_spec z c) as [Hzc|Hzc].
    + (* the score improves *)
      destruct (ext_leb beta (ext_max (ext_max alpha0 (Fin z)) (Fin c))) eqn:Hcut.
      * (* cut-off *)
        simpl. exists c. split; [reflexivity|]. clear IH.
        repeat split; intros; ext_lia.
      * (* the loop goes on *)
        assert (ext_max (ext_max alpha0 (Fin z)) (Fin c) = ext_max alpha0 (Fin c)) as ->.
        { clear IH. ext_lia. }
        apply IH; clear IH.
        -- ext_lia.
        -- intros H'. ext_lia.
        -- intros H'. ext_lia.
    + (* the score stays *)
      assert (ext_max (ext_max alpha0 (Fin z)) (Fin z) = ext_max alpha0 (Fin z)) as ->.
      { clear IH. ext_lia. }
      assert (ext_leb beta (ext_max alpha0 (Fin z)) = false) as ->.
      { unfold ext_leb. now rewrite Hlt. }
      apply IH; clear IH.
      * exact Hlt.
      * intros H'. ext_lia.
      * intros H'. ext_lia.
Qed.

(** With the window [(-inf, +inf)] nothing is cut: the loop keeps the
    exact maximum and the first move that reaches it. *)
Lemma negascout_loop_full_window rest :
  forall i z bm,
    negascout_loop search_child state rest (S i) (Fin z) (Fin z) PosInf color bm =
    let r := fold_left
               (fun best m => if value m >? snd best then (Some m, value m) else best)
               rest (bm, z) in
    (Fin (snd r), fst r).
Proof.
  induction rest as [|move rest IH]; intros i z bm.
  - reflexivity.
  - rewrite negascout_loop_cons. cbv zeta.
    pose proof (current_score_fail_soft move (S i) (Fin z) PosInf eq_refl
                  ltac:(intros _; eauto)) as (c & Ec & Hclo & Hcmid & _).
    rewrite Ec. simpl (ext_ltb (Fin z) (Fin c)). simpl fold_left.
    simpl (snd (bm, z)).
    destruct (Z.ltb_spec z c) as [Hzc|Hzc].
    + assert (c = value move) as Hcv.
      { apply Hcmid; [simpl; z_bool; lia|reflexivity]. }
      assert (ext_max (Fin z) (Fin c) = Fin c) as ->.
      { unfold ext_max. simpl. destruct (Z.ltb_spec z c); [reflexivity|lia]. }
      unfold ext_leb. simpl. rewrite IH.
      destruct (Z.gtb_spec (value move) z); [|lia]. now rewrite Hcv.
    + assert (value move <= c) by (apply Hclo; unfold ext_leb; simpl; z_bool; lia).
      assert (ext_max (Fin z) (Fin z) = Fin z) as ->.
      { unfold ext_max. simpl. now rewrite Z.ltb_irrefl. }
      unfold ext_leb. simpl. rewrite IH.
      destruct (Z.gtb_spec (value move) z); [lia|]. reflexivity.
Qed.
End Scout.

Lemma fail_soft_exact e alpha beta : fail_soft (Fin e) e alpha beta.
Proof. exists e. repeat split; intros; lia. Qed.

Lemma fail_soft_full_window r e :
  fail_soft r e NegInf PosInf -> r = Fin e.
Proof.
  intros (z & -> & _ & Hmid & _). f_equal. now apply Hmid.
Qed.

Lemma ext_ltb_neg a b : ext_ltb (ext_neg b) (ext_neg a) = ext_ltb a b.
Proof. destruct a, b; simpl; try reflexivity. ext_lia. Qed.

(** Whatever the window, [negascout] returns a fail-soft bound on the
    exhaustive negamax value. *)
Lemma negascout_fail_soft depth :
  forall state bm alpha beta color,
    ext_ltb alpha beta = true ->
    fail_soft (fst (negascout depth state bm alpha beta color))
              (negamax depth state color) alpha beta.
Proof.
  induction depth as [|depth IH]; intros state bm alpha beta color Hab.
  - apply fail_soft_exact.
  - cbn [negascout negamax].
    destruct (is_game_over state); [apply fail_soft_exact|].
    destruct (get_valid_moves state) as [|move rest].
    + cbn [fst]. apply fail_soft_neg, IH. now rewrite ext_ltb_neg.
    + set (sc := fun child a b c => fst (negascout depth child None a b c)).
      set (exact := fun child => negamax depth child (- color)).
      assert (Hsc : forall child a b, ext_ltb a b = true ->
                      fail_soft (sc child a b (- color)) (exact child) a b).
      { intros child a b H. apply IH, H. }
      rewrite negascout_loop_cons. cbv zeta.
      destruct (current_score_fail_soft sc exact state color Hsc move 0 alpha beta Hab
                  ltac:(intros H; now contradict H)) as (c & Ec & Hclo & Hcmid & Hchi).
      rewrite Ec. cbn [ext_ltb].
      pose proof (fold_max_ge (fun m => - exact (child_state state m)) rest
                    (- exact (child_state state move))) as Hge.
      cbv beta in Hge.
      destruct (ext_leb beta (ext_max alpha (Fin c))) eqn:Hcut.
      * cbn [fst]. exists c. split; [reflexivity|].
        subst sc exact. clear IH Hsc Ec.
        repeat split; intros; ext_lia.
      * apply (negascout_loop_fail_soft sc exact state color Hsc alpha beta Hab).
        -- clear IH Hsc Ec. ext_lia.
        -- exact Hclo.
        -- intros H. apply Hcmid; [exact H|]. clear IH Hsc Ec. ext_lia.
Qed.

(** A node without a legal move never gets a [best_move]. *)
Lemma negascout_no_moves depth :
  forall state bm alpha beta color,
    get_valid_moves state = [] ->
    snd (negascout depth state bm alpha beta color) = bm.
Proof.
  induction depth as [|depth IH]; intros state bm alpha beta color Hm.
  - reflexivity.
  - cbn [negascout]. destruct (is_game_over state); [reflexivity|].
    rewrite Hm. cbn [snd]. now apply IH.
Qed.

Lemma fold_left_ext_eq {A B : Type} (f g : A -> B -> A) l a :
  (forall x y, f x y = g x y) -> fold_left f l a = fold_left g l a.
Proof.
  intros H. revert a. induction l as [|y l IH]; intros a; simpl; [reflexivity|].
  now rewrite IH, H.
Qed.

Lemma fold_max_color (c : Z) (v : Z -> Z) rest x :
  c = 1 \/ c = -1 ->
  fold_left (fun best m => Z.max best (c * v m)) rest (c * x) =
  c * fold_left (fun best m => if c =? 1 then Z.max best (v m)
                               else Z.min best (v m)) rest x.
Proof.
  intros Hc. revert x. induction rest as [|m rest IH]; intros x; simpl.
  - reflexivity.
  - destruct Hc as [-> | ->]; simpl (_ =? _) in *.
    + replace (Z.max (1 * x) (1 * v m)) with (1 * Z.max x (v m)) by lia.
      apply IH.
    + replace (Z.max (-1 * x) (-1 * v m)) with (-1 * Z.min x (v m)) by lia.
      apply IH.
Qed.

(** Negamax with colour [c] is [c] times the minimax value, the
    maximising side being the one with colour 1. *)
Lemma negamax_minimax depth :
  forall state color,
    color = 1 \/ color = -1 ->
    negamax depth state color = color * minimax depth state (color =? 1).
Proof.
  induction depth as [|depth IH]; intros state color Hc.
  - reflexivity.
  - cbn [negamax minimax].
    destruct (is_game_over state); [reflexivity|].
    assert (Hc' : - color = 1 \/ - color = -1) by lia.
    assert (Hflip : (- color =? 1) = negb (color =? 1)).
    { destruct Hc as [-> | ->]; reflexivity. }
    destruct (get_valid_moves state) as [|move rest].
    + rewrite IH by exact Hc'. rewrite Hflip. lia.
    + assert (Hv : forall m, - negamax depth (child_state state m) (- color)
                   = color * minimax depth (child_state state m) (negb (color =? 1))).
      { intros m. rewrite IH by exact Hc'. rewrite Hflip. lia. }
      rewrite Hv.
      rewrite (fold_left_ext_eq _
                 (fun best m => Z.max best
                    (color * minimax depth (child_state state m) (negb (color =? 1)))))
        by (intros x y; now rewrite Hv).
      rewrite (fold_max_color color
                 (fun m => minimax depth (child_state state m) (negb (color =? 1))))
        by exact Hc.
      reflexivity.
Qed.

(** C2: for every state and depth limit, the move and score of the
    NegaScout search are those of the exhaustive minimax search with the
    same evaluator: neither the cut-offs nor the null-window searches
    change the result. *)
Theorem C2_negascout_is_minimax (depth_limit : nat) (root_state : OthelloGame) :
  negascout_search depth_limit root_state =
  (fst (minimax_search depth_limit root_state),
   Fin (snd (minimax_search depth_limit root_state))).
Proof.
  unfold negascout_search, minimax_search.
  destruct depth_limit as [|depth].
  - cbn. now rewrite Z.mul_1_l.
  - cbn [negascout].
    destruct (is_game_over root_state); [cbn; now rewrite Z.mul_1_l|].
    destruct (get_valid_moves root_state) as [|move rest] eqn:Hm.
    + cbn [fst snd ext_neg].
      rewrite negascout_no_moves by exact Hm.
      rewrite (fail_soft_full_window _ _
                 (negascout_fail_soft depth root_state None NegInf PosInf (Z.opp 1) eq_refl)).
      cbn [ext_neg]. rewrite negamax_minimax by lia.
      change (Z.opp 1 =? 1) with false. do 2 f_equal. lia.
    + set (sc := fun child a b c => fst (negascout depth child None a b c)).
      set (exact := fun child => negamax depth child (Z.opp 1)).
      assert (Hsc : forall child a b, ext_ltb a b = true ->
                      fail_soft (sc child a b (Z.opp 1)) (exact child) a b).
      { intros child a b H. apply negascout_fail_soft, H. }
      assert (Hv : forall m, - exact (child_state root_state m)
                             = minimax depth (child_state root_state m) false).
      { intros m. unfold exact. rewrite negamax_minimax by lia.
        change (Z.opp 1 =? 1) with false. lia. }
      rewrite negascout_loop_cons. cbv zeta.
      pose proof (current_score_fail_soft sc exact root_state 1 Hsc move 0
                    NegInf PosInf eq_refl ltac:(intros H; now contradict H)) as Hcs.
      apply fail_soft_full_window in Hcs. rewrite Hcs.
      cbn [ext_ltb ext_max ext_leb negb].
      rewrite (negascout_loop_full_window sc exact root_state 1 Hsc).
      cbv zeta. rewrite Hv.
      rewrite (fold_left_ext_eq _
                 (fun best m =>
                    if minimax depth (child_state root_state m) false >? snd best
                    then (Some m, minimax depth (child_state root_state m) false)
                    else best))
        by (intros x y; now rewrite Hv).
      reflexivity.
Qed.

(** ** Random playouts end *)

Lemma is_valid_move_clone g m : is_valid_move (clone g) m = is_valid_move g m.
Proof. reflexivity. Qed.

Lemma get_valid_moves_clone g : get_valid_moves (clone g) = get_valid_moves g.
Proof.
  unfold get_valid_moves. apply List.filter_ext. intros i.
  now rewrite is_valid_move_clone.
Qed.

Lemma in_range64 m : In m range64 -> 0 <= m < 64.
Proof.
  unfold range64. rewrite in_map_iff. intros (n & <- & Hn).
  apply in_seq in Hn. lia.
Qed.

Lemma valid_move_in_list g m :
  In m (get_valid_moves g) -> 0 <= m < 64 /\ is_valid_move g m = Ret true.
Proof.
  unfold get_valid_moves. rewrite filter_In. intros [Hr Ht].
  split; [now apply in_range64|].
  destruct (is_valid_move g m) as [[|]|]; simpl in Ht; congruence.
Qed.

(** A legal move of [range(64)] lies on the board, on an empty cell, and
    the mover's colour is not 0. *)
Lemma is_valid_move_true g m :
  0 <= m -> is_valid_move g m = Ret true ->
  m < Z.of_nat (length (board g)) /\ cell (board g) m = 0 /\ current_player g <> 0.
Proof.
  intros Hm Hv. unfold is_valid_move, getitem in Hv.
  destruct (norm_index (length (board g)) m) as [k|] eqn:Hk; [|discriminate].
  pose proof (norm_index_lt _ _ _ Hk) as Hlt.
  unfold norm_index in Hk.
  destruct (Z.leb_spec 0 m); [|lia].
  destruct (Z.ltb_spec m (Z.of_nat (length (board g)))); simpl in Hk.
  - injection Hk as <-. split; [lia|]. unfold cell.
    destruct (board g !! Z.to_nat m) as [c|]; [|discriminate].
    cbn [py_bind] in Hv. simpl.
    destruct (Z.eqb_spec c 0) as [Hc0|Hc0]; cbn [negb] in Hv; [|discriminate].
    split; [exact Hc0|].
    apply (f_equal truthy) in Hv. cbn [truthy] in Hv.
    apply existsb_exists in Hv as (d & _ & Hflip).
    now apply can_flip_loop_player in Hflip.
  - destruct (Z.leb_spec (- Z.of_nat (length (board g))) m), (Z.ltb_spec m 0);
      simpl in Hk; try discriminate; lia.
Qed.

Lemma disc_count_le_length q b : (disc_count q b <= length b)%nat.
Proof.
  unfold disc_count. induction b as [|c b IH]; simpl; [lia|].
  destruct (q =? c); simpl; lia.
Qed.

(** Writing a colour other than [q] never adds a [q]. *)
Lemma disc_count_insert_other q p (b : list Z) (k : nat) :
  p <> q -> (k < length b)%nat ->
  (disc_count q (<[k := p]> b) + (if decide (b !! k = Some q) then 1 else 0)
   = disc_count q b)%nat.
Proof.
  intros Hpq. revert k. induction b as [|c b IH]; intros k Hk; simpl in Hk.
  - lia.
  - destruct k as [|k]; simpl.
    + rewrite !disc_count_cons.
      destruct (Z.eqb_spec q p) as [->|_]; [congruence|].
      destruct (decide (Some c = Some q)) as [[= ->]|Hne].
      * rewrite Z.eqb_refl. lia.
      * destruct (Z.eqb_spec q c) as [->|_]; [congruence|]. lia.
    + rewrite !disc_count_cons. specialize (IH k ltac:(lia)).
      destruct (q =? c)%Z; lia.
Qed.

Lemma disc_count_fold_put_other q p flips b :
  p <> q ->
  (disc_count q (fold_left (fun b flip => put b flip p) flips b)
   <= disc_count q b)%nat.
Proof.
  intros Hpq. revert b. induction flips as [|f fs IH]; intros b; simpl; [lia|].
  etransitivity; [apply IH|]. unfold put.
  destruct (Nat.lt_ge_cases (Z.to_nat f) (length b)) as [H|H].
  - pose proof (disc_count_insert_other q p b (Z.to_nat f) Hpq H). lia.
  - rewrite list_insert_ge by exact H. lia.
Qed.

(** A legal move fills an empty cell and empties none. *)
Lemma apply_move_fills g m :
  0 <= m -> is_valid_move g m = Ret true ->
  exists g',
    apply_move g (Some m) = Ret (g', []) /\
    (disc_count 0 (board g') < disc_count 0 (board g))%nat /\
    length (board g') = length (board g) /\
    turns_passed g' = 0.
Proof.
  intros Hm Hv.
  destruct (is_valid_move_true g m Hm Hv) as (Hlt & Hc & Hp).
  destruct (apply_move_valid g m ltac:(lia) Hv) as (g' & Ha & Hb & _ & _ & Ht).
  exists g'. split; [exact Ha|]. rewrite Hb. split; [|split; [|exact Ht]].
  - eapply Nat.le_lt_trans; [apply disc_count_fold_put_other, Hp|].
    unfold put.
    pose proof (disc_count_insert_other 0 (current_player g) (board g)
                  (Z.to_nat m) Hp ltac:(lia)) as H.
    destruct (decide (board g !! Z.to_nat m = Some 0)) as [_|Hne]; [lia|].
    exfalso. apply Hne. unfold cell in Hc.
    destruct (board g !! Z.to_nat m) as [c|] eqn:E; simpl in Hc; [now subst|].
    apply lookup_ge_None in E. lia.
  - now rewrite length_fold_put, length_put.
Qed.

(** Before two passes in a row, a game that is not over has a legal move. *)
Lemma is_game_over_false_moves g :
  turns_passed g < 2 -> is_game_over g = false -> get_valid_moves g <> [].
Proof.
  unfold is_game_over. intros Ht H.
  destruct (board_full (board g)).
  - destruct (get_valid_moves g); [discriminate|congruence].
  - destruct (Z.geb_spec (turns_passed g) 2); [lia|].
    destruct (get_valid_moves g); [discriminate|congruence].
Qed.

Lemma moves_not_game_over g :
  get_valid_moves g <> [] -> is_game_over g = false.
Proof.
  unfold is_game_over. intros H.
  destruct (get_valid_moves g); [congruence|].
  destruct (board_full (board g)); [reflexivity|].
  destruct (turns_passed g >=? 2); reflexivity.
Qed.

Section Playout.
Variable rand : nat -> nat.

Lemma choice_in k moves : moves <> [] -> In (choice rand k moves) moves.
Proof.
  intros H. unfold choice. apply nth_In.
  apply Nat.mod_upper_bound. destruct moves; [congruence|simpl; lia].
Qed.

Lemma simulate_loop_ends fuel :
  forall k g,
    turns_passed g = 0 ->
    (disc_count 0 (board g) < fuel)%nat ->
    exists final k',
      simulate_loop rand fuel k g = Ret (final, k') /\
      is_game_over final = true.
Proof.
  induction fuel as [|fuel IH]; intros k g Ht Hf; [lia|].
  cbn [simulate_loop].
  destruct (is_game_over g) eqn:Hover; [eauto|].
  pose proof (is_game_over_false_moves g ltac:(lia) Hover) as Hmoves.
  pose proof (choice_in k _ Hmoves) as Hin.
  apply valid_move_in_list in Hin as [Hr Hv].
  destruct (apply_move_fills g _ (proj1 Hr) Hv) as (g' & Ha & Hz & _ & Ht').
  destruct (get_valid_moves g) as [|m0 ms] eqn:Em; [congruence|].
  rewrite Ha. cbn [py_bind fst].
  apply IH; [exact Ht'|lia].
Qed.

(** The playout returns the winner of the state it stops in. *)
Lemma simulate_ends (fuel k : nat) (st : OthelloGame) :
  (disc_count 0 (board st) < fuel)%nat ->
  exists final k',
    simulate rand fuel k st = Ret (get_winner final, k') /\
    is_game_over final = true.
Proof.
  intros Hf.
  destruct (simulate_loop_ends fuel k (clone st) eq_refl Hf)
    as (final & k' & Hs & Hover).
  exists final, k'. split; [|exact Hover]. unfold simulate. now rewrite Hs.
Qed.

Lemma simulate_loop_step fuel k g :
  is_game_over g = false -> get_valid_moves g <> [] ->
  simulate_loop rand (S fuel) k g
  = let! r := apply_move g (Some (choice rand k (get_valid_moves g))) in
    simulate_loop rand fuel (S k) (fst r).
Proof.
  intros Hover Hm. cbn [simulate_loop]. rewrite Hover.
  destruct (get_valid_moves g); [congruence|reflexivity].
Qed.

Lemma after_move_ret g m g' ev :
  apply_move g m = Ret (g', ev) -> after_move g m = g'.
Proof. intros H. unfold after_move. now rewrite H. Qed.

Lemma played_play k g ms final :
  played rand k g ms final -> final = play ms g.
Proof.
  induction 1 as [k g|k g m g' ms final Hover Hin Hm Ha Hp IH].
  - reflexivity.
  - rewrite IH. unfold play. cbn [fold_left].
    now rewrite (after_move_ret _ _ _ _ Ha).
Qed.

Lemma played_bounds k g ms final :
  played rand k g ms final -> turns_passed g = 0 ->
  (length ms + disc_count 0 (board final) <= disc_count 0 (board g))%nat /\
  turns_passed final = 0.
Proof.
  induction 1 as [k g|k g m g' ms final Hover Hin Hm Ha Hp IH]; intros Ht.
  - cbn [length]. split; [lia|exact Ht].
  - destruct (valid_move_in_list _ _ Hin) as [Hr Hv].
    destruct (apply_move_fills g m (proj1 Hr) Hv) as (g2 & Ha2 & Hz & _ & Ht2).
    rewrite Ha in Ha2. injection Ha2 as <-.
    destruct (IH Ht2) as [Hlen Htf].
    cbn [length]. split; [lia|exact Htf].
Qed.

Lemma simulate_loop_plays fuel :
  forall k g,
    turns_passed g = 0 ->
    (disc_count 0 (board g) < fuel)%nat ->
    exists final k',
      simulate_loop rand fuel k g = Ret (final, k') /\
      is_game_over final = true /\
      exists ms,
        played rand k g ms final /\
        k' = (k + length ms)%nat /\
        final = play ms g.
Proof.
  induction fuel as [|fuel IH]; intros k g Ht Hf; [lia|].
  destruct (is_game_over g) eqn:Hover.
  - exists g, k. split; [cbn [simulate_loop]; now rewrite Hover|].
    split; [exact Hover|].
    exists []. split; [constructor|]. split; [cbn [length]; lia|reflexivity].
  - pose proof (is_game_over_false_moves g ltac:(lia) Hover) as Hmoves.
    pose proof (choice_in k _ Hmoves) as Hin.
    destruct (valid_move_in_list _ _ Hin) as [Hr Hv].
    destruct (apply_move_fills g _ (proj1 Hr) Hv) as (g' & Ha & Hz & _ & Ht').
    rewrite (simulate_loop_step fuel k g Hover Hmoves), Ha. cbn [py_bind fst].
    destruct (IH (S k) g' Ht' ltac:(lia))
      as (final & k' & Hs & Hfin & ms & Hpl & Hk & _).
    exists final, k'. split; [exact Hs|]. split; [exact Hfin|].
    exists (choice rand k (get_valid_moves g) :: ms).
    assert (Hall : played rand k g (choice rand k (get_valid_moves g) :: ms) final).
    { eapply played_cons; [exact Hover|exact Hin|reflexivity|exact Ha|exact Hpl]. }
    split; [exact Hall|]. split; [cbn [length]; lia|].
    exact (played_play _ _ _ _ Hall).
Qed.

(** C9: a playout started with more fuel than the board has empty
    cells ends in a state where [is_game_over] holds and returns that
    state's winner. That state is reached from the clone of the given
    state by a sequence of moves, one per random draw, each the drawn
    member of the legal moves of the state it is played in, which is not
    over; the loop never passes, and the number of empty cells bounds
    the number of moves. *)
Theorem C9_simulate_terminates (fuel k : nat) (st : OthelloGame) :
  (disc_count 0 (board st) < fuel)%nat ->
  exists final k',
    simulate_loop rand fuel k (clone st) = Ret (final, k') /\
    is_game_over final = true /\
    simulate rand fuel k st = Ret (get_winner final, k') /\
    exists ms,
      played rand k (clone st) ms final /\
      k' = (k + length ms)%nat /\
      final = play ms (clone st) /\
      (length ms <= disc_count 0 (board st))%nat /\
      turns_passed final = 0.
Proof.
  intros Hf.
  destruct (simulate_loop_plays fuel k (clone st) eq_refl Hf)
    as (final & k' & Hs & Hover & ms & Hpl & Hk & Hplay).
  exists final, k'. split; [exact Hs|]. split; [exact Hover|].
  split; [unfold simulate; now rewrite Hs|].
  exists ms. split; [exact Hpl|]. split; [exact Hk|]. split; [exact Hplay|].
  destruct (played_bounds k (clone st) ms final Hpl eq_refl) as [Hlen Htf].
  split; [|exact Htf].
  change (board (clone st)) with (board st) in Hlen. lia.
Qed.
End Playout.

Lemma C9_simulate_terminates_witness :
  exists final k',
    simulate_loop (fun n => n) 65 0 (clone new_game) = Ret (final, k') /\
    is_game_over final = true /\
    simulate (fun n => n) 65 0 new_game = Ret (get_winner final, k') /\
    exists ms,
      played (fun n => n) 0 (clone new_game) ms final /\
      k' = (0 + length ms)%nat /\
      final = play ms (clone new_game) /\
      (length ms <= disc_count 0 (board new_game))%nat /\
      turns_passed final = 0.
Proof.
  apply (C9_simulate_terminates (fun n => n) 65 0 new_game).
  vm_compute. lia.
Defined.

(** ** MCTS: a search that expands nothing *)

Section Search.
Variable value : Type.
Variable value_gt : value -> value -> bool.
Variable inf : value.
Variable ucb1 : Z -> Z -> Z -> value -> value.
Variable search_weight : value.
Variable final_weight : value.
Variable rand : nat -> nat.

(** C7 (the code departs from the claim): with an iteration limit of 0
    the root has no child, [best_child] returns [None], and [search]
    reads [.state] of it: the call ends in [AttributeError], whatever the
    root state. *)
Theorem C7_zero_iterations_attribute_error (fuel k : nat) (root_state : OthelloGame) :
  search value value_gt inf ucb1 search_weight final_weight rand
         fuel 0 k root_state
  = Raise AttributeError.
Proof. reflexivity. Qed.

End Search.

(** ** MCTS: every iteration visits one child of the root *)

Lemma node_at_Some tree i n : tree !! i = Some n -> node_at tree i = Ret n.
Proof. intros H. unfold node_at. now rewrite H. Qed.

Lemma shape_lookup (t t' : list MCTSNode) j n' :
  map shape t = map shape t' -> t' !! j = Some n' ->
  exists n, t !! j = Some n /\ shape n = shape n'.
Proof.
  intros Hs Hj.
  assert (H : map shape t !! j = Some (shape n')).
  { rewrite Hs. change (map shape t') with (shape <$> t').
    rewrite list_lookup_fmap, Hj. reflexivity. }
  change (map shape t) with (shape <$> t) in H.
  rewrite list_lookup_fmap in H.
  destruct (t !! j) as [n|]; [|discriminate].
  exists n. split; [reflexivity|].
  change (Some (shape n) = Some (shape n')) in H. congruence.
Qed.

Lemma shape_fields n n' :
  shape n = shape n' ->
  state n = state n' /\ parent n = parent n' /\
  children n = children n' /\ untried_moves n = untried_moves n'.
Proof. unfold shape. intros [= -> -> -> ->]. repeat split. Qed.

(** The invariant only looks at the shape of the nodes. *)
Lemma tree_ok_shape bound t t' :
  map shape t = map shape t' -> tree_ok bound t -> tree_ok bound t'.
Proof.
  intros Hs Hok. pose proof (eq_sym Hs) as Hs'.
  assert (Hto : forall j n', t' !! j = Some n' ->
            exists n, t !! j = Some n /\ state n = state n' /\
              parent n = parent n' /\ children n = children n' /\
              untried_moves n = untried_moves n').
  { intros j n' Hj. destruct (shape_lookup t t' j n' Hs Hj) as (n & Hn & Hsh).
    exists n. split; [exact Hn|]. now apply shape_fields. }
  assert (Hfrom : forall j n, t !! j = Some n ->
            exists n', t' !! j = Some n' /\ state n = state n' /\
              parent n = parent n' /\ children n = children n' /\
              untried_moves n = untried_moves n').
  { intros j n Hj. destruct (shape_lookup t' t j n Hs' Hj) as (n' & Hn & Hsh).
    exists n'. split; [exact Hn|]. apply shape_fields. now symmetry. }
  destruct Hok as [Hroot Hpar Horph Hch Hnd Hexp Hunt Hbd]. split.
  - destruct Hroot as (r & Hr & Hp & Hover).
    destruct (Hfrom _ _ Hr) as (r' & Hr' & Es & Ep & _).
    exists r'. split; [exact Hr'|]. rewrite <- Ep, <- Es. auto.
  - intros j n' p Hj Hp.
    destruct (Hto _ _ Hj) as (n & Hn & _ & Ep & _).
    rewrite <- Ep in Hp. destruct (Hpar _ _ _ Hn Hp) as (Hlt & np & Hnp & Hin).
    split; [exact Hlt|].
    destruct (Hfrom _ _ Hnp) as (np' & Hnp' & _ & _ & Ec & _).
    exists np'. split; [exact Hnp'|]. now rewrite <- Ec.
  - intros j n' Hj Hp.
    destruct (Hto _ _ Hj) as (n & Hn & _ & Ep & _).
    rewrite <- Ep in Hp. eauto.
  - intros i n' c Hi Hin.
    destruct (Hto _ _ Hi) as (n & Hn & _ & _ & Ec & _).
    rewrite <- Ec in Hin. destruct (Hch _ _ _ Hn Hin) as (nc & Hnc & Hp).
    destruct (Hfrom _ _ Hnc) as (nc' & Hnc' & _ & Ep & _).
    exists nc'. split; [exact Hnc'|]. now rewrite <- Ep.
  - intros r' Hr'.
    destruct (Hto _ _ Hr') as (r & Hr & _ & _ & Ec & _).
    rewrite <- Ec. eauto.
  - intros i n' Hi Hover Hu.
    destruct (Hto _ _ Hi) as (n & Hn & Es & _ & Ec & Eu).
    rewrite <- Ec. rewrite <- Es in Hover. rewrite <- Eu in Hu. eauto.
  - intros i n' m Hi Hin.
    destruct (Hto _ _ Hi) as (n & Hn & Es & _ & _ & Eu).
    rewrite <- Es. rewrite <- Eu in Hin. eauto.
  - intros i n' Hi.
    destruct (Hto _ _ Hi) as (n & Hn & Es & _).
    rewrite <- Es. eauto.
Qed.

Lemma shape_insert (t : list MCTSNode) i n n' :
  t !! i = Some n -> shape n' = shape n ->
  map shape (<[i := n']> t) = map shape t.
Proof.
  intros Hi Hs. change (shape <$> <[i := n']> t = shape <$> t).
  rewrite list_fmap_insert, Hs. apply list_insert_id.
  now rewrite list_lookup_fmap, Hi.
Qed.

(** The sum over a list of references when one node's [visits] grows by
    one. *)
Lemma sum_visits_insert (t : list MCTSNode) j n n' l :
  t !! j = Some n -> visits n' = visits n + 1 -> NoDup l ->
  fold_right Z.add 0 (map (visits_at (<[j := n']> t)) l)
  = fold_right Z.add 0 (map (visits_at t) l)
    + (if decide (j ∈ l) then 1 else 0).
Proof.
  intros Hj Hv. induction l as [|c l IH]; intros Hnd.
  - simpl. destruct (decide (j ∈ [])) as [H|_]; [|lia].
    now apply not_elem_of_nil in H.
  - apply NoDup_cons in Hnd as [Hc Hnd].
    simpl. rewrite IH by exact Hnd.
    unfold visits_at at 1.
    destruct (decide (j = c)) as [<-|Hne].
    + rewrite list_lookup_insert_eq by (now apply lookup_lt_Some in Hj).
      unfold visits_at at 2. rewrite Hj.
      destruct (decide (j ∈ l)); [tauto|].
      destruct (decide (j ∈ j :: l)) as [_|H]; [lia|].
      exfalso. apply H. now left.
    + rewrite list_lookup_insert_ne by exact Hne.
      fold (visits_at t c).
      destruct (decide (j ∈ l)) as [H|H], (decide (j ∈ c :: l)) as [H'|H'];
        try lia.
      * exfalso. apply H'. now right.
      * apply elem_of_cons in H' as [?|?]; [congruence|tauto].
Qed.

Lemma root_children_visits_insert bound (t : list MCTSNode) j n n' r :
  tree_ok bound t -> t !! 0%nat = Some r -> t !! j = Some n ->
  shape n' = shape n -> visits n' = visits n + 1 ->
  root_children_visits (<[j := n']> t)
  = root_children_visits t + (if decide (j ∈ children r) then 1 else 0).
Proof.
  intros Hok Hr Hj Hs Hv. unfold root_children_visits. rewrite Hr.
  assert (exists r', <[j := n']> t !! 0%nat = Some r' /\ children r' = children r)
    as (r' & -> & ->).
  { destruct (decide (j = 0%nat)) as [->|Hne].
    - exists n'. rewrite list_lookup_insert_eq by (now apply lookup_lt_Some in Hj).
      split; [reflexivity|]. apply shape_fields in Hs.
      replace r with n by congruence. tauto.
    - exists r. now rewrite list_lookup_insert_ne. }
  apply (sum_visits_insert t j n n' _ Hj Hv). now apply (ok_nodup _ _ Hok).
Qed.

(** [backpropagate] reaches the root, changes no shape, and adds one
    visit to exactly one child of the root unless it starts at the root. *)
Lemma backpropagate_ok bound fuel :
  forall t j n result,
    tree_ok bound t -> t !! j = Some n -> (j < fuel)%nat ->
    exists t',
      backpropagate fuel t j result = Ret t' /\
      map shape t' = map shape t /\
      root_children_visits t'
      = root_children_visits t + (if decide (j = 0%nat) then 0 else 1).
Proof.
  induction fuel as [|fuel IH]; intros t j n result Hok Hj Hf; [lia|].
  cbn [backpropagate]. rewrite (node_at_Some _ _ _ Hj). cbn [py_bind].
  set (n' := {| state := state n; parent := parent n; children := children n;
                visits := visits n + 1; wins := wins n + result;
                untried_moves := untried_moves n |}).
  assert (Hs : shape n' = shape n) by reflexivity.
  pose proof (shape_insert t j n n' Hj Hs) as Hshape.
  pose proof (tree_ok_shape bound _ _ (eq_sym Hshape) Hok) as Hok1.
  destruct (ok_root _ _ Hok) as (r & Hr & Hrp & _).
  pose proof (root_children_visits_insert bound t j n n' r Hok Hr Hj Hs eq_refl)
    as Hsum.
  destruct (parent n) as [p|] eqn:Hp.
  - destruct (ok_parent _ _ Hok j n p Hj Hp) as (Hlt & np & Hnp & Hin).
    assert (Hp1 : <[j := n']> t !! p = Some np).
    { rewrite list_lookup_insert_ne by lia. exact Hnp. }
    destruct (IH _ p np (- result) Hok1 Hp1 ltac:(lia)) as (t' & Hb & Hsh & Hrcv).
    exists t'. split; [exact Hb|]. split; [congruence|].
    rewrite Hrcv, Hsum.
    destruct (decide (j = 0%nat)); [lia|].
    destruct (decide (p = 0%nat)) as [->|Hp0].
    + replace np with r in Hin by congruence.
      destruct (decide (j ∈ children r)) as [_|Hn]; [lia|].
      exfalso. apply Hn. now apply list_elem_of_In.
    + destruct (decide (j ∈ children r)) as [Hjr|_]; [|lia].
      exfalso. apply list_elem_of_In in Hjr.
      destruct (ok_children _ _ Hok 0%nat r j Hr Hjr) as (nc & Hnc & Hpc).
      congruence.
  - pose proof (ok_orphan _ _ Hok j n Hj Hp) as ->.
    eexists. split; [reflexivity|]. split; [exact Hshape|].
    rewrite Hsum. destruct (decide (0%nat = 0%nat)); [|congruence].
    destruct (decide (0%nat ∈ children r)) as [H0|_]; [|lia].
    exfalso. apply list_elem_of_In in H0.
    destruct (ok_children _ _ Hok 0%nat r 0%nat Hr H0) as (nc & Hnc & Hpc).
    congruence.
Qed.

Section Selection.
Variable value : Type.
Variable value_gt : value -> value -> bool.
Variable inf : value.
Variable ucb1 : Z -> Z -> Z -> value -> value.
Variable search_weight : value.

Lemma get_value_ok bound t i n c w :
  tree_ok bound t -> t !! i = Some n -> In c (children n) ->
  exists v, get_value value inf ucb1 t c w = Ret v.
Proof.
  intros Hok Hi Hc.
  destruct (ok_children _ _ Hok i n c Hi Hc) as (nc & Hnc & Hp).
  unfold get_value. rewrite (node_at_Some _ _ _ Hnc). cbn [py_bind].
  destruct (visits nc =? 0); [eauto|].
  rewrite Hp, (node_at_Some _ _ _ Hi). cbn [py_bind]. eauto.
Qed.

Lemma max_child_ok t w rest :
  (forall c, In c rest -> exists v, get_value value inf ucb1 t c w = Ret v) ->
  forall best key,
    exists b, max_child value value_gt inf ucb1 t w best key rest = Ret b /\
              (b = best \/ In b rest).
Proof.
  induction rest as [|c rest IH]; intros Hv best key.
  - simpl. eauto.
  - cbn [max_child]. destruct (Hv c (or_introl eq_refl)) as [v ->].
    cbn [py_bind].
    assert (Hv' : forall c', In c' rest ->
                    exists v, get_value value inf ucb1 t c' w = Ret v).
    { intros c' H. apply Hv. now right. }
    destruct (value_gt v key).
    + destruct (IH Hv' c v) as (b & -> & Hb). exists b. split; [reflexivity|].
      simpl. destruct Hb as [->|Hb]; auto.
    + destruct (IH Hv' best key) as (b & -> & Hb). exists b. split; [reflexivity|].
      simpl. tauto.
Qed.

Lemma best_child_ok bound t i n w :
  tree_ok bound t -> t !! i = Some n -> children n <> [] ->
  exists b, best_child value value_gt inf ucb1 t i w = Ret (Some b) /\
            In b (children n).
Proof.
  intros Hok Hi Hne. unfold best_child.
  rewrite (node_at_Some _ _ _ Hi). cbn [py_bind].
  destruct (children n) as [|c rest] eqn:Hc; [congruence|].
  assert (Hv : forall c', In c' (c :: rest) ->
                 exists v, get_value value inf ucb1 t c' w = Ret v).
  { intros c' H. apply (get_value_ok bound t i n c' w Hok Hi). now rewrite Hc. }
  destruct (Hv c (or_introl eq_refl)) as [v ->]. cbn [py_bind].
  destruct (max_child_ok t w rest (fun c' H => Hv c' (or_intror H)) c v)
    as (b & -> & Hb).
  cbn [py_bind]. exists b. split; [reflexivity|]. simpl.
  destruct Hb as [->|Hb]; auto.
Qed.

(** [select_node] stops at a node that is terminal or has an untried
    move; it never meets a missing child. *)
Lemma select_node_ok bound t :
  tree_ok bound t ->
  forall fuel i n,
    t !! i = Some n -> (length t - i < fuel)%nat ->
    exists j nj,
      select_node value value_gt inf ucb1 search_weight fuel t i = Ret j /\
      t !! j = Some nj /\
      (is_game_over (state nj) = true \/ untried_moves nj <> []).
Proof.
  intros Hok. induction fuel as [|fuel IH]; intros i n Hi Hf; [lia|].
  cbn [select_node]. rewrite (node_at_Some _ _ _ Hi). cbn [py_bind].
  destruct (is_game_over (state n)) eqn:Hover; cbn [negb andb].
  - exists i, n. auto.
  - unfold is_fully_expanded.
    destruct (untried_moves n) as [|m ms] eqn:Hu; cbn [length Nat.eqb].
    + pose proof (ok_expanded _ _ Hok i n Hi Hover Hu) as Hne.
      destruct (best_child_ok bound t i n search_weight Hok Hi Hne)
        as (b & -> & Hb).
      cbn [py_bind].
      destruct (ok_children _ _ Hok i n b Hi Hb) as (nb & Hnb & Hp).
      destruct (ok_parent _ _ Hok b nb i Hnb Hp) as (Hlt & _).
      apply lookup_lt_Some in Hnb as Hlen.
      apply (IH b nb Hnb). lia.
    + exists i, n. split; [reflexivity|]. split; [exact Hi|].
      right. rewrite Hu. discriminate.
Qed.
End Selection.

Lemma pop_nonempty l :
  l <> [] ->
  exists x l', pop l = Some (x, l') /\ In x l /\ (forall y, In y l' -> In y l).
Proof.
  intros Hne. destruct (exists_last Hne) as (l' & x & ->).
  exists x, l'. unfold pop. rewrite last_snoc, removelast_last.
  split; [reflexivity|]. split.
  - apply in_or_app. right. now left.
  - intros y Hy. apply in_or_app. now left.
Qed.

Lemma lookup_grown (t : list MCTSNode) i n' child j :
  (i < length t)%nat ->
  (<[i := n']> t ++ [child]) !! j =
  if decide (j = length t) then Some child
  else if decide (j = i) then Some n'
  else t !! j.
Proof.
  intros Hi.
  destruct (decide (j = length t)) as [->|Hj].
  - rewrite lookup_app_r by (rewrite length_insert; lia).
    rewrite length_insert, Nat.sub_diag. reflexivity.
  - destruct (Nat.lt_ge_cases j (length t)) as [Hlt|Hge].
    + rewrite lookup_app_l by (rewrite length_insert; lia).
      destruct (decide (j = i)) as [->|Hne].
      * now apply list_lookup_insert_eq.
      * now apply list_lookup_insert_ne.
    + rewrite lookup_ge_None_2 by (rewrite length_app, length_insert; simpl; lia).
      destruct (decide (j = i)); [lia|].
      symmetry. apply lookup_ge_None_2. lia.
Qed.

(** Appending a child [child] of the node [i], whose record becomes
    [n'], keeps the invariant and the visits of the root's children. *)
Lemma tree_ok_grow bound t i n n' child :
  tree_ok bound t -> t !! i = Some n ->
  state n' = state n -> parent n' = parent n ->
  children n' = children n ++ [length t] -> visits n' = visits n ->
  (forall m, In m (untried_moves n') -> In m (untried_moves n)) ->
  parent child = Some i -> children child = [] -> visits child = 0 ->
  (is_game_over (state child) = false -> untried_moves child <> []) ->
  (forall m, In m (untried_moves child) -> In m (get_valid_moves (state child))) ->
  (disc_count 0 (board (state child)) <= bound)%nat ->
  tree_ok bound (<[i := n']> t ++ [child]) /\
  root_children_visits (<[i := n']> t ++ [child]) = root_children_visits t.
Proof.
  intros Hok Hi Es Ep Ec Ev Hsub Hcp Hcc Hcv Hcexp Hcunt Hcb.
  apply lookup_lt_Some in Hi as Hilt.
  assert (Hlook := lookup_grown t i n' child).
  set (t' := <[i := n']> t ++ [child]) in *.
  specialize (fun j => Hlook j Hilt).
  destruct (ok_root _ _ Hok) as (r & Hr & Hrp & Hrover).
  assert (Hlen : forall j m, t !! j = Some m -> (j < length t)%nat).
  { intros j m H. now apply lookup_lt_Some in H. }
  split.
  - split.
    + (* root *)
      rewrite Hlook. destruct (decide (0%nat = length t)); [lia|].
      destruct (decide (0%nat = i)) as [<-|_].
      * exists n'. assert (r = n) as -> by congruence.
        rewrite Ep, Es. auto.
      * exists r. auto.
    + (* parent *)
      intros j m p Hj Hp. rewrite Hlook in Hj.
      destruct (decide (j = length t)) as [->|Hjl].
      * injection Hj as <-. rewrite Hcp in Hp. injection Hp as <-.
        split; [exact Hilt|].
        exists n'. rewrite Hlook.
        destruct (decide (i = length t)); [lia|].
        destruct (decide (i = i)); [|congruence].
        split; [reflexivity|]. rewrite Ec. apply in_or_app. right. now left.
      * assert (Hjm : exists m0, t !! j = Some m0 /\ parent m0 = Some p).
        { destruct (decide (j = i)) as [->|_].
          - injection Hj as <-. exists n. rewrite <- Ep. auto.
          - exists m. auto. }
        destruct Hjm as (m0 & Hm0 & Hp0).
        destruct (ok_parent _ _ Hok j m0 p Hm0 Hp0) as (Hlt & np & Hnp & Hin).
        split; [exact Hlt|]. rewrite Hlook.
        destruct (decide (p = length t)); [apply Hlen in Hnp; lia|].
        destruct (decide (p = i)) as [->|_].
        -- exists n'. split; [reflexivity|].
           replace np with n in Hin by congruence.
           rewrite Ec. apply in_or_app. now left.
        -- exists np. auto.
    + (* orphan *)
      intros j m Hj Hp. rewrite Hlook in Hj.
      destruct (decide (j = length t)) as [->|Hjl].
      * injection Hj as <-. congruence.
      * destruct (decide (j = i)) as [->|_].
        -- injection Hj as <-. rewrite Ep in Hp.
           apply (ok_orphan _ _ Hok i n Hi Hp).
        -- apply (ok_orphan _ _ Hok j m Hj Hp).
    + (* children *)
      intros j m c Hj Hc. rewrite Hlook in Hj.
      destruct (decide (j = length t)) as [->|Hjl].
      * injection Hj as <-. rewrite Hcc in Hc. destruct Hc.
      * assert (Hcase : c = length t /\ j = i \/
                        exists m0, t !! j = Some m0 /\ In c (children m0)).
        { destruct (decide (j = i)) as [->|_].
          - injection Hj as <-. rewrite Ec in Hc.
            apply in_app_or in Hc as [Hc|[<-|[]]].
            + right. exists n. auto.
            + left. auto.
          - right. exists m. auto. }
        destruct Hcase as [[-> ->]|(m0 & Hm0 & Hc0)].
        -- exists child. rewrite Hlook.
           destruct (decide (length t = length t)); [|congruence]. auto.
        -- destruct (ok_children _ _ Hok j m0 c Hm0 Hc0) as (nc & Hnc & Hp).
           rewrite Hlook.
           destruct (decide (c = length t)); [apply Hlen in Hnc; lia|].
           destruct (decide (c = i)) as [->|_].
           ++ exists n'. split; [reflexivity|].
              replace nc with n in Hp by congruence. now rewrite Ep.
           ++ exists nc. auto.
    + (* no duplicate among the root's children *)
      intros r' Hr'. rewrite Hlook in Hr'.
      destruct (decide (0%nat = length t)); [lia|].
      destruct (decide (0%nat = i)) as [<-|_].
      * injection Hr' as <-. assert (r = n) as -> by congruence.
        rewrite Ec.
        apply NoDup_app. split; [now apply (ok_nodup _ _ Hok)|].
        split; [|apply NoDup_singleton].
        intros c Hc Hc'. apply list_elem_of_In in Hc.
        apply list_elem_of_singleton in Hc'. subst c.
        destruct (ok_children _ _ Hok 0%nat _ _ Hr Hc) as (nc & Hnc & _).
        apply Hlen in Hnc. lia.
      * now apply (ok_nodup _ _ Hok).
    + (* expanded *)
      intros j m Hj Hover Hun. rewrite Hlook in Hj.
      destruct (decide (j = length t)) as [->|Hjl].
      * injection Hj as <-. exfalso. now apply Hcexp.
      * destruct (decide (j = i)) as [->|_].
        -- injection Hj as <-. rewrite Ec.
           destruct (children n); discriminate.
        -- apply (ok_expanded _ _ Hok j m Hj Hover Hun).
    + (* untried *)
      intros j m mv Hj Hmv. rewrite Hlook in Hj.
      destruct (decide (j = length t)) as [->|Hjl].
      * injection Hj as <-. now apply Hcunt.
      * destruct (decide (j = i)) as [->|_].
        -- injection Hj as <-. rewrite Es.
           apply (ok_untried _ _ Hok i n mv Hi). now apply Hsub.
        -- apply (ok_untried _ _ Hok j m mv Hj Hmv).
    + (* board *)
      intros j m Hj. rewrite Hlook in Hj.
      destruct (decide (j = length t)) as [->|Hjl].
      * injection Hj as <-. exact Hcb.
      * destruct (decide (j = i)) as [->|_].
        -- injection Hj as <-. rewrite Es.
           apply (ok_board _ _ Hok i n Hi).
        -- apply (ok_board _ _ Hok j m Hj).
  - (* the visits of the root's children *)
    unfold root_children_visits. rewrite Hr, Hlook.
    destruct (decide (0%nat = length t)); [lia|].
    assert (Hsame : forall c nc, t !! c = Some nc ->
                      visits_at t' c = visits_at t c).
    { intros c nc Hc. unfold visits_at. rewrite Hlook, Hc.
      destruct (decide (c = length t)); [apply Hlen in Hc; lia|].
      destruct (decide (c = i)) as [->|_]; [|reflexivity].
      replace nc with n by congruence. exact Ev. }
    assert (Hsum : fold_right Z.add 0 (map (visits_at t') (children r))
                   = fold_right Z.add 0 (map (visits_at t) (children r))).
    { assert (Hall : forall c, In c (children r) -> exists nc, t !! c = Some nc).
      { intros c Hc. destruct (ok_children _ _ Hok 0%nat r c Hr Hc) as (nc & ? & _).
        eauto. }
      induction (children r) as [|c l IHl]; [reflexivity|].
      cbn [map fold_right].
      destruct (Hall c (or_introl eq_refl)) as [nc Hnc].
      rewrite (Hsame c nc Hnc). rewrite IHl; [reflexivity|].
      intros c' Hc'. apply Hall. now right. }
    destruct (decide (0%nat = i)) as [<-|_]; [|rewrite Hr; exact Hsum].
    assert (r = n) as -> by congruence. rewrite Ec.
    rewrite map_app, fold_right_app. cbn [map fold_right].
    assert (visits_at t' (length t) = 0) as ->.
    { unfold visits_at. rewrite Hlook.
      destruct (decide (length t = length t)); [exact Hcv|congruence]. }
    rewrite Z.add_0_r. exact Hsum.
Qed.

(** The move [expand] pops is legal, and playing it on the clone gives
    the child's state. *)
Lemma expand_pops bound t i n :
  tree_ok bound t -> t !! i = Some n -> untried_moves n <> [] ->
  exists move untried g',
    pop (untried_moves n) = Some (move, untried) /\
    (forall m, In m untried -> In m (untried_moves n)) /\
    apply_move (clone (state n)) (Some move) = Ret (g', []) /\
    (disc_count 0 (board g') < disc_count 0 (board (state n)))%nat /\
    turns_passed g' = 0.
Proof.
  intros Hok Hi Hu.
  destruct (pop_nonempty _ Hu) as (move & untried & Hpop & Hmove & Hsub).
  pose proof (ok_untried _ _ Hok i n move Hi Hmove) as Hvalid.
  apply valid_move_in_list in Hvalid as [Hrange Hv].
  rewrite <- is_valid_move_clone in Hv.
  destruct (apply_move_fills (clone (state n)) move (proj1 Hrange) Hv)
    as (g' & Ha & Hz & _ & Ht).
  exists move, untried, g'. auto.
Qed.

(** [expand] on a node with an untried move appends one child, keeps
    the invariant, and leaves the visits of the root's children as they
    were. *)
Lemma expand_ok bound t i n :
  tree_ok bound t -> t !! i = Some n -> untried_moves n <> [] ->
  exists t' nc,
    expand t i = Ret (t', length t) /\
    tree_ok bound t' /\
    length t' = S (length t) /\
    t' !! length t = Some nc /\
    root_children_visits t' = root_children_visits t.
Proof.
  intros Hok Hi Hu.
  destruct (expand_pops bound t i n Hok Hi Hu)
    as (move & untried & g' & Hpop & Hsub & Ha & Hz & Ht).
  unfold expand. rewrite (node_at_Some _ _ _ Hi). cbn [py_bind].
  rewrite Hpop, Ha. cbn [py_bind fst].
  apply lookup_lt_Some in Hi as Hilt.
  pose proof (ok_board _ _ Hok i n Hi) as Hb.
  eexists _, (new_node g' (Some i)). split; [reflexivity|].
  edestruct (tree_ok_grow bound t i n) as [Hok' Hsum];
    [exact Hok | exact Hi | ..]; cycle -1.
  - split; [exact Hok'|]. split; [|split; [|exact Hsum]].
    + rewrite length_app, length_insert. cbn [length]. lia.
    + rewrite lookup_app_r by (rewrite length_insert; lia).
      rewrite length_insert, Nat.sub_diag. reflexivity.
  - reflexivity.
  - reflexivity.
  - reflexivity.
  - reflexivity.
  - exact Hsub.
  - reflexivity.
  - reflexivity.
  - reflexivity.
  - unfold new_node. cbn [state untried_moves].
    apply is_game_over_false_moves. lia.
  - unfold new_node. cbn [state untried_moves]. auto.
  - unfold new_node. cbn [state]. lia.
Qed.

Lemma tree_ok_single bound root :
  parent root = None -> children root = [] ->
  is_game_over (state root) = false -> untried_moves root <> [] ->
  (forall m, In m (untried_moves root) -> In m (get_valid_moves (state root))) ->
  (disc_count 0 (board (state root)) <= bound)%nat ->
  tree_ok bound [root] /\ root_children_visits [root] = 0.
Proof.
  intros Hp Hc Hover Hu Hsub Hb.
  assert (Hl : forall j n, [root] !! j = Some n -> j = 0%nat /\ n = root).
  { intros j n H. destruct j as [|j]; [|destruct j; discriminate].
    injection H as <-. auto. }
  split; [split|].
  - exists root. auto.
  - intros j n p Hj Hp'. apply Hl in Hj as [-> ->]. congruence.
  - intros j n Hj _. now apply Hl in Hj.
  - intros i n c Hi Hc'. apply Hl in Hi as [-> ->]. rewrite Hc in Hc'.
    destruct Hc'.
  - intros r Hr. apply Hl in Hr as [_ ->]. rewrite Hc. apply NoDup_nil_2.
  - intros i n Hi _ Hu'. apply Hl in Hi as [-> ->]. congruence.
  - intros i n m Hi Hin. apply Hl in Hi as [-> ->]. now apply Hsub.
  - intros i n Hi. apply Hl in Hi as [-> ->]. exact Hb.
  - unfold root_children_visits. cbn [lookup list_lookup]. now rewrite Hc.
Qed.

Lemma tree_ok_root st :
  get_valid_moves st <> [] ->
  tree_ok (disc_count 0 (board st)) [new_node st None] /\
  root_children_visits [new_node st None] = 0.
Proof.
  intros Hm. apply tree_ok_single.
  - reflexivity.
  - reflexivity.
  - unfold new_node. cbn [state]. now apply moves_not_game_over.
  - unfold new_node. cbn [untried_moves]. exact Hm.
  - unfold new_node. cbn [state untried_moves]. auto.
  - unfold new_node. cbn [state]. lia.
Qed.

Section Iterations.
Variable value : Type.
Variable value_gt : value -> value -> bool.
Variable inf : value.
Variable ucb1 : Z -> Z -> Z -> value -> value.
Variable search_weight : value.
Variable rand : nat -> nat.

(** One iteration keeps the invariant, adds at most one node, and adds
    one visit to exactly one child of the root. *)
Lemma iteration_ok bound fuel t k :
  tree_ok bound t -> (length t + bound + 1 < fuel)%nat ->
  exists t' k',
    iteration value value_gt inf ucb1 search_weight rand fuel t k = Ret (t', k') /\
    tree_ok bound t' /\
    (length t' <= S (length t))%nat /\
    root_children_visits t' = root_children_visits t + 1.
Proof.
  intros Hok Hf.
  destruct (ok_root _ _ Hok) as (r & Hr & Hrp & Hrover).
  destruct (select_node_ok value value_gt inf ucb1 search_weight bound t Hok
              fuel 0%nat r Hr ltac:(lia)) as (j & nj & Hsel & Hj & Hstop).
  unfold iteration. rewrite Hsel. cbn [py_bind].
  rewrite (node_at_Some _ _ _ Hj). cbn [py_bind].
  apply lookup_lt_Some in Hj as Hjlt.
  destruct (is_game_over (state nj)) eqn:Hover; cbn [negb].
  - (* a terminal node: no expansion *)
    cbn [py_bind fst snd]. rewrite (node_at_Some _ _ _ Hj). cbn [py_bind].
    pose proof (ok_board _ _ Hok j nj Hj) as Hb.
    destruct (simulate_ends rand fuel k (state nj) ltac:(lia))
      as (final & k' & -> & _).
    cbn [py_bind fst snd].
    destruct (backpropagate_ok bound fuel t j nj (get_winner final) Hok Hj
                ltac:(lia)) as (t' & -> & Hsh & Hsum).
    cbn [py_bind]. exists t', k'. split; [reflexivity|].
    split; [now apply (tree_ok_shape bound t t')|]. split.
    + apply (f_equal (@length _)) in Hsh. rewrite !length_map in Hsh. lia.
    + rewrite Hsum. destruct (decide (j = 0%nat)) as [->|_]; [|reflexivity].
      congruence.
  - (* expansion *)
    destruct Hstop as [Hstop|Hu]; [congruence|].
    destruct (expand_ok bound t j nj Hok Hj Hu)
      as (t1 & nc & -> & Hok1 & Hlen1 & Hnc & Hsum1).
    cbn [py_bind fst snd]. rewrite (node_at_Some _ _ _ Hnc). cbn [py_bind].
    pose proof (ok_board _ _ Hok1 _ nc Hnc) as Hb.
    destruct (simulate_ends rand fuel k (state nc) ltac:(lia))
      as (final & k' & -> & _).
    cbn [py_bind fst snd].
    destruct (backpropagate_ok bound fuel t1 (length t) nc (get_winner final)
                Hok1 Hnc ltac:(lia)) as (t' & -> & Hsh & Hsum).
    cbn [py_bind]. exists t', k'. split; [reflexivity|].
    split; [now apply (tree_ok_shape bound t1 t')|]. split.
    + apply (f_equal (@length _)) in Hsh. rewrite !length_map in Hsh. lia.
    + rewrite Hsum, Hsum1.
      destruct (decide (length t = 0%nat)); [lia|reflexivity].
Qed.

Lemma iterate_ok bound fuel count :
  forall t k,
    tree_ok bound t -> (length t + count + bound + 1 < fuel)%nat ->
    exists t' k',
      iterate value value_gt inf ucb1 search_weight rand count fuel t k
      = Ret (t', k') /\
      tree_ok bound t' /\
      (length t' <= length t + count)%nat /\
      root_children_visits t' = root_children_visits t + Z.of_nat count.
Proof.
  induction count as [|count IH]; intros t k Hok Hf.
  - exists t, k. cbn [iterate].
    split; [reflexivity|]. split; [exact Hok|]. split; lia.
  - cbn [iterate].
    destruct (iteration_ok bound fuel t k Hok ltac:(lia))
      as (t1 & k1 & -> & Hok1 & Hlen1 & Hsum1).
    cbn [py_bind fst snd].
    destruct (IH t1 k1 Hok1 ltac:(lia)) as (t' & k' & -> & Hok' & Hlen' & Hsum').
    exists t', k'.
    split; [reflexivity|]. split; [exact Hok'|]. split; lia.
Qed.

(** C5: from a root state with a legal move, after [N] iterations with
    enough fuel for the loops the sum of [visits] over the children of the
    root is [N], whatever the selection values and the random draws. *)
Theorem C5_root_children_visits (fuel N k : nat) (root_state : OthelloGame) :
  get_valid_moves root_state <> [] ->
  (N + disc_count 0 (board root_state) + 2 < fuel)%nat ->
  exists tree k',
    iterate value value_gt inf ucb1 search_weight rand N fuel
            [new_node root_state None] k = Ret (tree, k') /\
    root_children_visits tree = Z.of_nat N.
Proof.
  intros Hm Hf. destruct (tree_ok_root root_state Hm) as [Hok H0].
  destruct (iterate_ok _ fuel N [new_node root_state None] k Hok
              ltac:(cbn [length]; lia)) as (t' & k' & Hit & _ & _ & Hsum).
  exists t', k'. split; [exact Hit|]. rewrite Hsum, H0. lia.
Qed.
End Iterations.

Lemma C5_root_children_visits_witness :
  exists tree k',
    iterate bool (fun a b => andb a (negb b)) true (fun _ _ _ w => w) false
            (fun n => n) 3 70 [new_node new_game None] 0 = Ret (tree, k') /\
    root_children_visits tree = Z.of_nat 3.
Proof.
  apply (C5_root_children_visits bool (fun a b => andb a (negb b)) true
           (fun _ _ _ w => w) false (fun n => n) 70 3 0 new_game).
  - vm_compute. discriminate.
  - vm_compute. lia.
Defined.

(** ** A clone shares nothing with its original *)

Lemma apart_load h0 h o o' : apart h0 h o o' -> load h o = load h0 o.
Proof.
  intros (_ & Ho & ob & _ & Hob & Hl & _). unfold load.
  rewrite Ho, Hob. now rewrite Hl.
Qed.

Lemma apart_store h0 h o o' g :
  apart h0 h o o' -> apart h0 (store h o' g) o o'.
Proof.
  intros (Hne & Ho & ob & ob' & Hob & Hl & Hob' & Href).
  unfold store. rewrite Hob'. split; [exact Hne|]. cbn [objects lists].
  split; [now rewrite lookup_insert_ne|].
  exists ob. eexists. split; [exact Hob|].
  split; [now rewrite lookup_insert_ne|].
  split; [apply lookup_insert_eq|]. exact Href.
Qed.

Lemma apart_run_op h0 h o o' c : apart h0 h o o' -> apart h0 (run_op h o' c) o o'.
Proof.
  intros Ha. unfold run_op. destruct c as [move|].
  - unfold heap_apply_move. destruct (load h o') as [g|]; [|exact Ha].
    destruct (apply_move g move) as [r|e]; cbn [py_bind fst]; [|exact Ha].
    now apply apart_store.
  - unfold heap_pass_turn. destruct (load h o') as [g|]; [|exact Ha].
    cbn [fst]. now apply apart_store.
Qed.

Lemma apart_run_ops h0 o o' cs :
  forall h, apart h0 h o o' -> apart h0 (run_ops h o' cs) o o'.
Proof.
  induction cs as [|c cs IH]; intros h Ha; [exact Ha|].
  apply IH. now apply apart_run_op.
Qed.

(** [clone] returns a new object with a new list: the value of the clone
    is [clone g] and the original is apart from it. *)
Lemma heap_clone_apart h o g :
  load h o = Some g ->
  exists h1 o',
    heap_clone h o = Ret (h1, o') /\
    load h1 o' = Some (clone g) /\
    apart h h1 o o'.
Proof.
  unfold load. intros Hload.
  destruct (objects h !! o) as [s|] eqn:Hs; [|discriminate].
  destruct (lists h !! board_ref s) as [cells|] eqn:Hc; [|discriminate].
  injection Hload as <-.
  unfold heap_clone. rewrite Hs, Hc. unfold heap_new_game. cbn [fst snd objects lists].
  set (l0 := fresh (dom (lists h))).
  set (o' := fresh (dom (objects h))).
  rewrite lookup_insert_eq.
  set (l := fresh (dom (<[l0 := board new_game]> (lists h)))).
  assert (Ho' : o' <> o).
  { intros E. pose proof (is_fresh (dom (objects h))) as Hf. fold o' in Hf.
    apply Hf. rewrite E. apply elem_of_dom. eauto. }
  assert (Hl : l <> board_ref s).
  { intros E. pose proof (is_fresh (dom (<[l0 := board new_game]> (lists h)))) as Hf.
    fold l in Hf. apply Hf. rewrite E. apply elem_of_dom.
    destruct (decide (l0 = board_ref s)) as [<-|Hn].
    - rewrite lookup_insert_eq. eauto.
    - rewrite lookup_insert_ne by exact Hn. eauto. }
  eexists _, o'. split; [reflexivity|]. split.
  - unfold load. cbn [objects lists]. rewrite lookup_insert_eq.
    cbn [board_ref]. rewrite lookup_insert_eq. reflexivity.
  - split; [exact Ho'|]. cbn [objects lists].
    split; [rewrite !lookup_insert_ne by congruence; reflexivity|].
    exists s. eexists. split; [exact Hs|].
    split.
    + rewrite lookup_insert_ne by congruence.
      destruct (decide (l0 = board_ref s)) as [E|Hn].
      * exfalso. pose proof (is_fresh (dom (lists h))) as Hf. fold l0 in Hf.
        apply Hf. rewrite E. apply elem_of_dom. eauto.
      * now rewrite lookup_insert_ne.
    + split; [apply lookup_insert_eq|]. exact Hl.
Qed.

(** C6: whatever sequence of [apply_move] and [pass_turn] calls is run
    on a clone, the original object keeps its cells, its player and its
    last move (and its pass count): the clone is another object whose
    board is another list. *)
Theorem C6_clone_independent (h : heap) (o : nat) (g : OthelloGame) (cs : list op) :
  load h o = Some g ->
  exists h1 o',
    heap_clone h o = Ret (h1, o') /\
    o' <> o /\
    load h1 o' = Some (clone g) /\
    load (run_ops h1 o' cs) o = Some g.
Proof.
  intros Hload.
  destruct (heap_clone_apart h o g Hload) as (h1 & o' & Hc & Hl & Ha).
  exists h1, o'. split; [exact Hc|]. split; [apply Ha|]. split; [exact Hl|].
  rewrite <- Hload. apply (apart_load h _ o o').
  now apply apart_run_ops.
Qed.

Lemma C6_clone_independent_witness :
  exists h1 o',
    heap_clone (fst (heap_new_game empty_heap)) (snd (heap_new_game empty_heap))
    = Ret (h1, o') /\
    o' <> snd (heap_new_game empty_heap) /\
    load h1 o' = Some (clone new_game) /\
    load (run_ops h1 o' [ApplyMove (Some 19); PassTurn; ApplyMove (Some 18)])
         (snd (heap_new_game empty_heap))
    = Some new_game.
Proof.
  apply (C6_clone_independent (fst (heap_new_game empty_heap))
           (snd (heap_new_game empty_heap)) new_game
           [ApplyMove (Some 19); PassTurn; ApplyMove (Some 18)]).
  vm_compute. reflexivity.
Defined.

(** * Further properties of the rules engine *)

(** ** The moves list *)

Lemma range_sorted a n : StronglySorted Z.lt (map Z.of_nat (seq a n)).
Proof.
  revert a. induction n as [|n IH]; intros a; cbn [seq map].
  - constructor.
  - constructor; [apply IH|].
    apply List.Forall_forall. intros z Hz. apply in_map_iff in Hz as (k & <- & Hk).
    apply in_seq in Hk. lia.
Qed.

Lemma filter_sorted (f : Z -> bool) l :
  StronglySorted Z.lt l -> StronglySorted Z.lt (List.filter f l).
Proof.
  induction 1 as [|x l Hs IH Hx]; cbn [List.filter].
  - constructor.
  - destruct (f x); [|exact IH].
    constructor; [exact IH|].
    apply List.Forall_forall. intros z Hz. apply filter_In in Hz as [Hz _].
    rewrite List.Forall_forall in Hx. now apply Hx.
Qed.

(** [get_valid_moves] lists its moves in strictly ascending order (so
    without repetition); each is an index of [0..63] that passes
    [is_valid_move] and whose cell is empty. *)
Theorem get_valid_moves_ascending (g : OthelloGame) :
  StronglySorted Z.lt (get_valid_moves g) /\
  forall m, In m (get_valid_moves g) ->
    0 <= m < 64 /\ is_valid_move g m = Ret true /\ cell (board g) m = 0.
Proof.
  split.
  - unfold get_valid_moves, range64. apply filter_sorted, range_sorted.
  - intros m Hm. destruct (valid_move_in_list g m Hm) as [Hr Hv].
    split; [exact Hr|]. split; [exact Hv|].
    now destruct (is_valid_move_true g m (proj1 Hr) Hv) as (_ & Hc & _).
Qed.

(** On a 64-cell board the list holds every index of [0..63] that passes
    [is_valid_move]. *)
Lemma get_valid_moves_complete g m :
  0 <= m < 64 -> is_valid_move g m = Ret true -> In m (get_valid_moves g).
Proof.
  intros Hm Hv. unfold get_valid_moves. apply filter_In. split.
  - unfold range64. apply in_map_iff. exists (Z.to_nat m). split; [lia|].
    apply in_seq. lia.
  - now rewrite Hv.
Qed.

(** ** Well-formed games *)

Lemma valid_cell_player p : p = 1 \/ p = -1 -> valid_cell p.
Proof. unfold valid_cell. tauto. Qed.

Lemma Forall_put (P : Z -> Prop) b i v :
  Forall P b -> P v -> Forall P (put b i v).
Proof. intros Hb Hv. unfold put. now apply Forall_insert. Qed.

Lemma Forall_fold_put (P : Z -> Prop) p flips b :
  Forall P b -> P p ->
  Forall P (fold_left (fun b flip => put b flip p) flips b).
Proof.
  intros Hb Hp. revert b Hb. induction flips as [|f fs IH]; intros b Hb; simpl.
  - exact Hb.
  - apply IH. now apply Forall_put.
Qed.

Lemma wf_new_game : wf_game new_game.
Proof.
  unfold wf_game. split; [reflexivity|]. split; [|split; [now left|cbn; lia]].
  apply List.Forall_forall. intros c Hc. unfold valid_cell.
  vm_compute in Hc. repeat (destruct Hc as [<-|Hc]; [tauto|]). destruct Hc.
Qed.

Lemma wf_place g m g' :
  wf_game g -> place g m = Ret g' -> wf_game g'.
Proof.
  intros (Hlen & Hcells & Hp & Ht). unfold place, setitem.
  destruct (norm_index (length (board g)) m) as [k|]; [|discriminate].
  cbn [py_bind]. intros [= <-]. unfold wf_game. cbn.
  split; [|split; [|split]].
  - now rewrite length_fold_put, length_insert.
  - apply Forall_fold_put; [|now apply valid_cell_player].
    apply Forall_insert; [exact Hcells|now apply valid_cell_player].
  - lia.
  - lia.
Qed.

Lemma wf_after_move g move : wf_game g -> wf_game (after_move g move).
Proof.
  intros Hwf. unfold after_move, apply_move.
  destruct move as [m|]; [|exact Hwf].
  destruct (is_valid_move g m) as [[|]|e]; cbn [py_bind]; try exact Hwf.
  destruct (place g m) as [g'|e] eqn:Hp; cbn [py_bind]; [|exact Hwf].
  now apply (wf_place g m).
Qed.

Lemma wf_pass_turn g : wf_game g -> wf_game (fst (pass_turn g)).
Proof.
  intros (Hlen & Hcells & Hp & Ht). unfold wf_game, pass_turn. cbn.
  repeat split; auto; lia.
Qed.

Lemma wf_clone g : wf_game g -> wf_game (clone g).
Proof.
  intros (Hlen & Hcells & Hp & Ht). unfold wf_game, clone. cbn.
  repeat split; auto; lia.
Qed.

(** Every state the public operations produce from a new game is
    well-formed: [apply_move] (with any argument), [pass_turn] and
    [clone] keep the board at 64 cells holding 0, 1 or -1 and the player
    at 1 or -1. *)
Theorem reachable_wf (g : OthelloGame) : reachable g -> wf_game g.
Proof.
  induction 1 as [|g m _ IH|g _ IH|g _ IH].
  - exact wf_new_game.
  - now apply wf_after_move.
  - now apply wf_pass_turn.
  - now apply wf_clone.
Qed.

Lemma reachable_wf_witness : wf_game (play [19; 18] new_game).
Proof.
  apply (reachable_wf (play [19; 18] new_game)).
  apply reachable_play. exact reach_new.
Defined.

(** ** The capture rule *)

Lemma step_next x y dx dy s :
  x + Z.of_nat s * dx + dx = x + Z.of_nat (S s) * dx /\
  y + Z.of_nat s * dy + dy = y + Z.of_nat (S s) * dy.
Proof. split; lia. Qed.

Lemma brackets_from_1 b p x y dx dy k :
  brackets b p x y dx dy k <-> (1 <= k)%nat /\ brackets_from b p x y dx dy 1 k.
Proof.
  unfold brackets, brackets_from. split.
  - intros (Hk & Hall & Hb & Hc). repeat split; auto; try lia; now apply Hall.
  - intros (Hk & _ & Hall & Hb & Hc). repeat split; auto; now apply Hall.
Qed.

(** The capture test, read as a loop started at step [s]. *)
Lemma can_flip_loop_sound b p x y dx dy fuel :
  forall s fl,
    (1 <= s)%nat ->
    can_flip_loop fuel b p dx dy (x + Z.of_nat s * dx) (y + Z.of_nat s * dy) fl = true ->
    exists k, brackets_from b p x y dx dy s k /\ (fl = true \/ (s <= k)%nat).
Proof.
  induction fuel as [|fuel IH]; intros s fl Hs H; [discriminate|].
  cbn [can_flip_loop] in H.
  destruct (in_bounds _ _) eqn:Hb; [|discriminate].
  destruct (Z.eqb_spec (cell b ((x + Z.of_nat s * dx) * 8 + (y + Z.of_nat s * dy))) (- p))
    as [Ec|Ec].
  - destruct (step_next x y dx dy s) as [Ex Ey]. rewrite Ex, Ey in H.
    destruct (IH (S s) true ltac:(lia) H) as (k & (Hk & Hall & Hbk & Hck) & _).
    exists k. split; [|right; lia].
    split; [lia|]. split; [|auto].
    intros j Hj. destruct (decide (j = s)) as [->|Hne]; [auto|].
    apply Hall. lia.
  - destruct (Z.eqb_spec (cell b ((x + Z.of_nat s * dx) * 8 + (y + Z.of_nat s * dy))) p)
      as [Ec'|Ec']; [|discriminate].
    destruct s as [|s']; [lia|]. exists s'. split; [|now left].
    split; [lia|]. split; [intros j Hj; lia|]. auto.
Qed.

Lemma can_flip_loop_complete b p x y dx dy k :
  p <> 0 ->
  forall fuel s fl,
    brackets_from b p x y dx dy s k -> (fl = true \/ (s <= k)%nat) ->
    (S k - s < fuel)%nat ->
    can_flip_loop fuel b p dx dy (x + Z.of_nat s * dx) (y + Z.of_nat s * dy) fl = true.
Proof.
  intros Hp. induction fuel as [|fuel IH]; intros s fl (Hs & Hall & Hbk & Hck) Hfl Hf;
    [lia|].
  cbn [can_flip_loop].
  destruct (decide (s <= k)%nat) as [Hle|Hgt].
  - destruct (Hall s ltac:(lia)) as [Hb Hc].
    unfold step_in_bounds in Hb. unfold step_index in Hc. rewrite Hb, Hc.
    rewrite Z.eqb_refl.
    destruct (step_next x y dx dy s) as [-> ->].
    apply IH; [|now left|lia].
    split; [lia|]. split; [|auto]. intros j Hj. apply Hall. lia.
  - assert (s = S k) as -> by lia.
    unfold step_in_bounds in Hbk. unfold step_index in Hck. rewrite Hbk, Hck.
    destruct (Z.eqb_spec p (- p)); [lia|]. rewrite Z.eqb_refl.
    destruct Hfl as [->|?]; [reflexivity|lia].
Qed.

(** Two cells of a direction that are both on the board are less than
    eight steps apart. *)
Lemma steps_apart x y dx dy j j' :
  is_direction dx dy ->
  step_in_bounds x y dx dy j = true -> step_in_bounds x y dx dy j' = true ->
  (j <= j')%nat -> (j' - j <= 7)%nat.
Proof.
  unfold is_direction, step_in_bounds, in_bounds. intros (Hx & Hy & Hne) H1 H2 Hle.
  apply andb_prop in H1 as [H1 H14]. apply andb_prop in H1 as [H1 H13].
  apply andb_prop in H1 as [H11 H12].
  apply andb_prop in H2 as [H2 H24]. apply andb_prop in H2 as [H2 H23].
  apply andb_prop in H2 as [H21 H22].
  apply Z.leb_le in H11, H13, H21, H23. apply Z.ltb_lt in H12, H14, H22, H24.
  destruct Hx as [->|[->| ->]]; destruct Hy as [->|[->| ->]]; lia.
Qed.

Lemma brackets_from_short b p x y dx dy s k :
  is_direction dx dy -> (1 <= s)%nat ->
  brackets_from b p x y dx dy s k -> (S k - s <= 7)%nat.
Proof.
  intros Hd Hs (Hsk & Hall & Hbk & _).
  destruct (decide (s <= k)%nat) as [Hle|Hgt]; [|lia].
  destruct (Hall s ltac:(lia)) as [Hb _].
  pose proof (steps_apart x y dx dy s (S k) Hd Hb Hbk ltac:(lia)). lia.
Qed.

Lemma can_flip_sound (g : OthelloGame) (x y dx dy : Z) :
  can_flip g x y dx dy = true ->
  exists k, brackets (board g) (current_player g) x y dx dy k.
Proof.
  unfold can_flip. intros H.
  replace (x + dx) with (x + Z.of_nat 1 * dx) in H by (change (Z.of_nat 1) with 1; lia).
  replace (y + dy) with (y + Z.of_nat 1 * dy) in H by (change (Z.of_nat 1) with 1; lia).
  destruct (can_flip_loop_sound _ _ _ _ _ _ _ 1%nat false ltac:(lia) H)
    as (k & Hbr & Hfl).
  exists k. apply brackets_from_1. split; [|exact Hbr].
  destruct Hfl as [?|?]; [discriminate|lia].
Qed.

Lemma can_flip_complete (g : OthelloGame) (x y dx dy : Z) (k : nat) :
  is_direction dx dy -> current_player g <> 0 ->
  brackets (board g) (current_player g) x y dx dy k ->
  can_flip g x y dx dy = true.
Proof.
  intros Hd Hp Hbr. unfold can_flip. apply brackets_from_1 in Hbr as [Hk Hbr].
  pose proof (brackets_from_short _ _ _ _ _ _ 1%nat k Hd (le_n 1) Hbr) as Hshort.
  replace (x + dx) with (x + Z.of_nat 1 * dx) by (change (Z.of_nat 1) with 1; lia).
  replace (y + dy) with (y + Z.of_nat 1 * dy) by (change (Z.of_nat 1) with 1; lia).
  apply (can_flip_loop_complete _ _ _ _ _ _ k Hp); [exact Hbr|right; lia|].
  unfold walk_fuel. lia.
Qed.

(** [can_flip] decides the capture rule: it holds exactly when one or
    more opponent discs in the direction are followed by a disc of the
    player. *)
Theorem can_flip_iff_brackets (g : OthelloGame) (x y dx dy : Z) :
  is_direction dx dy -> current_player g <> 0 ->
  can_flip g x y dx dy = true <->
  exists k, brackets (board g) (current_player g) x y dx dy k.
Proof.
  intros Hd Hp. split.
  - apply can_flip_sound.
  - intros [k Hbr]. exact (can_flip_complete g x y dx dy k Hd Hp Hbr).
Qed.

Lemma can_flip_iff_brackets_witness :
  can_flip new_game 2 3 1 0 = true <->
  exists k, brackets (board new_game) (current_player new_game) 2 3 1 0 k.
Proof.
  apply (can_flip_iff_brackets new_game 2 3 1 0).
  - unfold is_direction. lia.
  - vm_compute. discriminate.
Defined.

Lemma wf_player_nonzero g : wf_game g -> current_player g <> 0.
Proof. intros (_ & _ & Hp & _). lia. Qed.

Lemma valid_move_captures (g : OthelloGame) (m : Z) :
  wf_game g -> 0 <= m < 64 -> is_valid_move g m = Ret true ->
  cell (board g) m = 0 /\
  exists d k,
    In d directions_valid /\
    brackets (board g) (current_player g) (m / 8) (m mod 8) (fst d) (snd d) k.
Proof.
  intros Hwf Hm. destruct Hwf as (Hlen & _).
  unfold is_valid_move. rewrite getitem_in_range by (rewrite Hlen; lia).
  cbn [py_bind]. intros H.
  destruct (Z.eqb_spec (cell (board g) m) 0) as [Hc|Hc];
    cbn [negb] in H; [|discriminate].
  split; [exact Hc|]. apply (f_equal truthy) in H. cbn [truthy] in H.
  apply existsb_exists in H as (d & Hd & Hf).
  apply can_flip_sound in Hf as [k Hk]. exists d, k. auto.
Qed.

(** On a well-formed game a cell index of [0..63] is a legal move
    exactly when its cell is empty and some direction captures. *)
Theorem is_valid_move_iff_capture (g : OthelloGame) (m : Z) :
  wf_game g -> 0 <= m < 64 ->
  is_valid_move g m = Ret true <->
  cell (board g) m = 0 /\
  exists d k,
    In d directions_valid /\
    brackets (board g) (current_player g) (m / 8) (m mod 8) (fst d) (snd d) k.
Proof.
  intros Hwf Hm. split; [now apply valid_move_captures|].
  pose proof (wf_player_nonzero g Hwf) as Hp.
  destruct Hwf as (Hlen & _).
  unfold is_valid_move. rewrite getitem_in_range by (rewrite Hlen; lia).
  cbn [py_bind].
  intros (Hc & d & k & Hd & Hk). rewrite Hc. cbn [Z.eqb negb]. f_equal.
  apply existsb_exists. exists d. split; [exact Hd|].
  exact (can_flip_complete g _ _ _ _ k (directions_valid_ok d Hd) Hp Hk).
Qed.

Lemma is_valid_move_iff_capture_witness :
  is_valid_move new_game 19 = Ret true <->
  cell (board new_game) 19 = 0 /\
  exists d k,
    In d directions_valid /\
    brackets (board new_game) (current_player new_game) (19 / 8) (19 mod 8)
             (fst d) (snd d) k.
Proof.
  apply (is_valid_move_iff_capture new_game 19); [exact wf_new_game | lia].
Defined.

Lemma brackets_from_unique b p x y dx dy s k k' :
  p <> 0 ->
  brackets_from b p x y dx dy s k -> brackets_from b p x y dx dy s k' -> k = k'.
Proof.
  intros Hp (Hs & Hall & _ & Hc) (Hs' & Hall' & _ & Hc').
  destruct (Nat.lt_trichotomy k k') as [Hlt|[Heq|Hgt]]; [|exact Heq|].
  - destruct (Hall' (S k) ltac:(lia)) as [_ H]. lia.
  - destruct (Hall (S k') ltac:(lia)) as [_ H]. lia.
Qed.

(** The flip walk started at step [s]: either it finds the bracket and
    returns its cells after [acc], or it returns nothing. *)
Lemma flip_loop_cases b p x y dx dy :
  (forall i, cell b i = 0 \/ cell b i = p \/ cell b i = - p) -> p <> 0 ->
  forall fuel s acc,
    (1 <= s)%nat ->
    (exists k,
       brackets_from b p x y dx dy s k /\
       flip_loop fuel b p dx dy (x + Z.of_nat s * dx) (y + Z.of_nat s * dy) acc
       = acc ++ map (step_index x y dx dy) (seq s (S k - s))) \/
    (flip_loop fuel b p dx dy (x + Z.of_nat s * dx) (y + Z.of_nat s * dy) acc = [] /\
     forall k, brackets_from b p x y dx dy s k -> (fuel <= S k - s)%nat).
Proof.
  intros Hcells Hp. induction fuel as [|fuel IH]; intros s acc Hs.
  - right. split; [reflexivity|]. intros; lia.
  - cbn [flip_loop].
    destruct (in_bounds (x + Z.of_nat s * dx) (y + Z.of_nat s * dy)) eqn:Hb.
    2:{ right. split; [reflexivity|]. intros k (Hsk & Hall & Hbk & _). exfalso.
        destruct (decide (s <= k)%nat) as [Hle|Hgt].
        - destruct (Hall s ltac:(lia)) as [H _]. unfold step_in_bounds in H. congruence.
        - assert (s = S k) as -> by lia. unfold step_in_bounds in Hbk. congruence. }
    set (c := cell b ((x + Z.of_nat s * dx) * 8 + (y + Z.of_nat s * dy))).
    assert (Hc : c = cell b (step_index x y dx dy s)) by reflexivity.
    destruct (Z.eqb_spec c 0) as [E0|E0].
    { right. split; [reflexivity|]. intros k (Hsk & Hall & _ & Hck). exfalso.
      destruct (decide (s <= k)%nat) as [Hle|Hgt].
      - destruct (Hall s ltac:(lia)) as [_ H]. lia.
      - assert (s = S k) as -> by lia. lia. }
    destruct (Z.eqb_spec c p) as [Ep|Ep].
    { left. destruct s as [|s']; [lia|]. exists s'.
      split.
      - split; [lia|]. split; [intros j Hj; lia|]. unfold step_in_bounds. auto.
      - rewrite Nat.sub_diag. cbn [seq map]. now rewrite app_nil_r. }
    assert (Eo : c = - p) by (destruct (Hcells (step_index x y dx dy s)); lia).
    destruct (step_next x y dx dy s) as [-> ->].
    destruct (IH (S s) (acc ++ [(x + Z.of_nat s * dx) * 8 + (y + Z.of_nat s * dy)])
                ltac:(lia)) as [(k & (Hsk & Hall & Hbk & Hck) & Hr)|(Hr & Hno)].
    + left. exists k. split.
      * split; [lia|]. split; [|auto].
        intros j Hj. destruct (decide (j = s)) as [->|Hne].
        -- unfold step_in_bounds. split; [exact Hb|lia].
        -- apply Hall. lia.
      * rewrite Hr, <- app_assoc. f_equal.
        replace (S k - s)%nat with (S (S k - S s)) by lia. reflexivity.
    + right. split; [exact Hr|]. intros k (Hsk & Hall & Hbk & Hck).
      destruct (decide (s <= k)%nat) as [Hle|Hgt].
      * enough (fuel <= S k - S s)%nat by lia. apply Hno.
        split; [lia|]. split; [|auto]. intros j Hj. apply Hall. lia.
      * assert (s = S k) as -> by lia. lia.
Qed.

(** What [flip_discs] collects in one direction: the bracketed cells,
    if the direction captures. *)
Lemma flip_direction b p x y dx dy i :
  (forall i, cell b i = 0 \/ cell b i = p \/ cell b i = - p) -> p <> 0 ->
  is_direction dx dy ->
  In i (flip_loop walk_fuel b p dx dy (x + dx) (y + dy) []) <->
  exists k, brackets b p x y dx dy k /\ In i (bracketed x y dx dy k).
Proof.
  intros Hcells Hp Hd.
  replace (x + dx) with (x + Z.of_nat 1 * dx) by (change (Z.of_nat 1) with 1; lia).
  replace (y + dy) with (y + Z.of_nat 1 * dy) by (change (Z.of_nat 1) with 1; lia).
  destruct (flip_loop_cases b p x y dx dy Hcells Hp walk_fuel 1%nat [] (le_n 1))
    as [(k0 & Hbr & ->)|(-> & Hno)].
  - cbn [app]. replace (S k0 - 1)%nat with k0 by lia. fold (bracketed x y dx dy k0).
    split.
    + intros Hi. exists k0. split; [|exact Hi]. apply brackets_from_1.
      split; [|exact Hbr]. destruct k0; [destruct Hi|lia].
    + intros (k & Hk & Hi). apply brackets_from_1 in Hk as [_ Hk].
      now rewrite (brackets_from_unique _ _ _ _ _ _ _ _ _ Hp Hbr Hk).
  - split; [intros []|]. intros (k & Hk & _). exfalso.
    apply brackets_from_1 in Hk as [_ Hk].
    pose proof (Hno k Hk) as H1.
    pose proof (brackets_from_short _ _ _ _ _ _ 1%nat k Hd (le_n 1) Hk) as H2.
    unfold walk_fuel in H1. lia.
Qed.

Lemma bracketed_in_bounds b p x y dx dy k i :
  brackets b p x y dx dy k -> In i (bracketed x y dx dy k) ->
  exists j, (1 <= j <= k)%nat /\ i = step_index x y dx dy j /\
            step_in_bounds x y dx dy j = true /\ cell b i = - p.
Proof.
  intros (_ & Hall & _) Hi. unfold bracketed in Hi.
  apply in_map_iff in Hi as (j & <- & Hj). apply in_seq in Hj.
  exists j. destruct (Hall j ltac:(lia)) as [Hb Hc]. repeat split; auto; lia.
Qed.

(** A walk never comes back to the cell it started from. *)
Lemma step_index_not_origin m dx dy j :
  0 <= m < 64 -> is_direction dx dy -> (1 <= j)%nat ->
  step_in_bounds (m / 8) (m mod 8) dx dy j = true ->
  step_index (m / 8) (m mod 8) dx dy j <> m.
Proof.
  unfold is_direction, step_in_bounds, step_index, in_bounds.
  intros Hm (Hx & Hy & Hne) Hj Hb.
  apply andb_prop in Hb as [Hb H4]. apply andb_prop in Hb as [Hb H3].
  apply andb_prop in Hb as [H1 H2].
  apply Z.leb_le in H1, H3. apply Z.ltb_lt in H2, H4.
  pose proof (Z.div_mod m 8 ltac:(lia)) as Hdm.
  pose proof (Z.mod_pos_bound m 8 ltac:(lia)) as Hmod.
  destruct Hx as [->|[->| ->]]; destruct Hy as [->|[->| ->]]; lia.
Qed.

Lemma cell_put_ne b m v i :
  0 <= i -> 0 <= m -> i <> m -> cell (put b m v) i = cell b i.
Proof.
  intros Hi Hm Hne. unfold cell, put.
  rewrite list_lookup_insert_ne by lia. reflexivity.
Qed.

Lemma cell_put_eq b m v :
  0 <= m < Z.of_nat (length b) -> cell (put b m v) m = v.
Proof.
  intros Hm. unfold cell, put.
  rewrite list_lookup_insert_eq by lia. reflexivity.
Qed.

(** Placing the disc changes no bracket of the move. *)
Lemma brackets_put b v p m dx dy k :
  0 <= m < 64 -> is_direction dx dy ->
  brackets (put b m v) p (m / 8) (m mod 8) dx dy k <->
  brackets b p (m / 8) (m mod 8) dx dy k.
Proof.
  intros Hm Hd.
  assert (Hsame : forall j, (1 <= j)%nat ->
            step_in_bounds (m / 8) (m mod 8) dx dy j = true ->
            cell (put b m v) (step_index (m / 8) (m mod 8) dx dy j)
            = cell b (step_index (m / 8) (m mod 8) dx dy j)).
  { intros j Hj Hb. apply cell_put_ne; [|lia|].
    - apply in_bounds_index in Hb. unfold step_index. lia.
    - now apply step_index_not_origin. }
  unfold brackets. split; intros (Hk & Hall & Hbk & Hck).
  - split; [exact Hk|]. split; [|split; [exact Hbk|]].
    + intros j Hj. destruct (Hall j Hj) as [Hb Hc]. split; [exact Hb|].
      rewrite <- Hsame by (lia || exact Hb). exact Hc.
    + rewrite <- Hsame by (lia || exact Hbk). exact Hck.
  - split; [exact Hk|]. split; [|split; [exact Hbk|]].
    + intros j Hj. destruct (Hall j Hj) as [Hb Hc]. split; [exact Hb|].
      rewrite Hsame by (lia || exact Hb). exact Hc.
    + rewrite Hsame by (lia || exact Hbk). exact Hck.
Qed.

Lemma wf_cells b p :
  Forall valid_cell b -> p = 1 \/ p = -1 ->
  forall i, cell b i = 0 \/ cell b i = p \/ cell b i = - p.
Proof.
  intros Hb Hp i. unfold cell.
  destruct (b !! Z.to_nat i) as [c|] eqn:E; [|now left].
  rewrite Forall_lookup in Hb. specialize (Hb _ _ E). unfold valid_cell in Hb.
  change (default 0 (Some c)) with c. lia.
Qed.

(** The cells [flip_discs] returns after the disc is placed are the
    captured cells. *)
Lemma flip_discs_captured g m i :
  wf_game g -> 0 <= m < 64 ->
  In i (flip_discs (put (board g) m (current_player g)) m (current_player g)) <->
  captured (board g) (current_player g) m i.
Proof.
  intros Hwf Hm. pose proof (wf_player_nonzero g Hwf) as Hp.
  destruct Hwf as (Hlen & Hcells & Hpl & _).
  assert (Hc1 := wf_cells (put (board g) m (current_player g)) (current_player g)
                   (Forall_put _ _ _ _ Hcells (valid_cell_player _ Hpl)) Hpl).
  unfold flip_discs, captured. rewrite in_flat_map. split.
  - intros (d & Hd & Hi). cbv zeta in Hi.
    apply (flip_direction _ _ _ _ _ _ _ Hc1 Hp (directions_flip_ok d Hd)) in Hi
      as (k & Hk & Hi).
    exists d, k. split; [exact Hd|]. split; [|exact Hi].
    exact (proj1 (brackets_put (board g) (current_player g) (current_player g)
                    m (fst d) (snd d) k Hm (directions_flip_ok d Hd)) Hk).
  - intros (d & k & Hd & Hk & Hi). exists d. split; [exact Hd|]. cbv zeta.
    apply (flip_direction _ _ _ _ _ _ _ Hc1 Hp (directions_flip_ok d Hd)).
    exists k. split; [|exact Hi].
    exact (proj2 (brackets_put (board g) (current_player g) (current_player g)
                    m (fst d) (snd d) k Hm (directions_flip_ok d Hd)) Hk).
Qed.

Lemma captured_cell g m i :
  0 <= m < 64 ->
  captured (board g) (current_player g) m i ->
  0 <= i < 64 /\ i <> m /\ cell (board g) i = - current_player g.
Proof.
  intros Hm (d & k & Hd & Hk & Hi).
  destruct (bracketed_in_bounds _ _ _ _ _ _ _ _ Hk Hi) as (j & Hj & -> & Hb & Hc).
  split; [|split; [|exact Hc]].
  - apply in_bounds_index in Hb. exact Hb.
  - apply step_index_not_origin; [exact Hm|now apply directions_flip_ok|lia|exact Hb].
Qed.

Lemma cell_fold_put p flips b i :
  (forall f, In f flips -> 0 <= f < Z.of_nat (length b)) -> 0 <= i ->
  cell (fold_left (fun b flip => put b flip p) flips b) i
  = if decide (i ∈ flips) then p else cell b i.
Proof.
  revert b. induction flips as [|f fs IH]; intros b Hr Hi.
  - cbn [fold_left]. destruct (decide (i ∈ [])) as [H|_]; [|reflexivity].
    now apply not_elem_of_nil in H.
  - cbn [fold_left]. rewrite IH; [|intros f' Hf'; rewrite length_put; apply Hr; now right|exact Hi].
    pose proof (Hr f (or_introl eq_refl)) as Hf.
    destruct (decide (i ∈ fs)) as [Hin|Hnin].
    + destruct (decide (i ∈ f :: fs)) as [_|Hn]; [reflexivity|].
      exfalso. apply Hn. now right.
    + destruct (decide (i = f)) as [->|Hne].
      * rewrite cell_put_eq by exact Hf.
        destruct (decide (f ∈ f :: fs)) as [_|Hn]; [reflexivity|].
        exfalso. apply Hn. now left.
      * rewrite cell_put_ne by lia.
        destruct (decide (i ∈ f :: fs)) as [H|_]; [|reflexivity].
        apply elem_of_cons in H as [?|?]; [congruence|tauto].
Qed.

(** [apply_move] plays the Othello rule: on a well-formed game a legal
    move of [0..63] puts the mover's disc on its cell, turns exactly the
    captured cells to the mover's colour, leaves every other cell as it
    was, hands the turn over, records the move and resets the pass
    count. *)
Theorem apply_move_plays_the_rule (g : OthelloGame) (m : Z) :
  wf_game g -> 0 <= m < 64 -> is_valid_move g m = Ret true ->
  exists g',
    apply_move g (Some m) = Ret (g', []) /\
    current_player g' = - current_player g /\
    last_move g' = Some m /\
    turns_passed g' = 0 /\
    forall i, 0 <= i < 64 ->
      (i = m -> cell (board g') i = current_player g) /\
      (captured (board g) (current_player g) m i ->
       cell (board g') i = current_player g) /\
      (i <> m -> ~ captured (board g) (current_player g) m i ->
       cell (board g') i = cell (board g) i).
Proof.
  intros Hwf Hm Hv. pose proof Hwf as (Hlen & _).
  destruct (apply_move_valid g m ltac:(rewrite Hlen; lia) Hv)
    as (g' & Ha & Hb & Hp & Hl & Ht).
  exists g'. split; [exact Ha|]. split; [lia|]. split; [exact Hl|].
  split; [exact Ht|]. intros i Hi. rewrite Hb.
  set (p := current_player g) in *. set (b1 := put (board g) m p).
  assert (Hflips : forall f, In f (flip_discs b1 m p) ->
                     0 <= f < Z.of_nat (length b1)).
  { intros f Hf. apply (flip_discs_captured g m f Hwf Hm) in Hf.
    apply captured_cell in Hf as (Hf & _); [|exact Hm].
    unfold b1. rewrite length_put, Hlen. lia. }
  rewrite (cell_fold_put p _ b1 i Hflips ltac:(lia)).
  destruct (decide (i ∈ flip_discs b1 m p)) as [Hin|Hnin].
  - split; [reflexivity|]. split; [reflexivity|]. intros _ Hnc. exfalso.
    apply Hnc. apply (flip_discs_captured g m i Hwf Hm). now apply list_elem_of_In.
  - split; [|split].
    + intros ->. unfold b1. apply cell_put_eq. rewrite Hlen. lia.
    + intros Hc. exfalso. apply Hnin. apply list_elem_of_In.
      now apply (flip_discs_captured g m i Hwf Hm).
    + intros Hne _. unfold b1. apply cell_put_ne; lia.
Qed.

Lemma apply_move_plays_the_rule_witness :
  exists g',
    apply_move new_game (Some 19) = Ret (g', []) /\
    current_player g' = - current_player new_game /\
    last_move g' = Some 19 /\
    turns_passed g' = 0 /\
    forall i, 0 <= i < 64 ->
      (i = 19 -> cell (board g') i = current_player new_game) /\
      (captured (board new_game) (current_player new_game) 19 i ->
       cell (board g') i = current_player new_game) /\
      (i <> 19 -> ~ captured (board new_game) (current_player new_game) 19 i ->
       cell (board g') i = cell (board new_game) i).
Proof.
  apply (apply_move_plays_the_rule new_game 19);
    [exact wf_new_game | lia | vm_compute; reflexivity].
Defined.

(** ** Counting discs *)

Lemma count_partition b :
  Forall valid_cell b ->
  (disc_count 1 b + disc_count (-1) b + disc_count 0 b = length b)%nat.
Proof.
  induction 1 as [|c b Hc _ IH]; [reflexivity|].
  rewrite !disc_count_cons. cbn [length]. unfold valid_cell in Hc.
  destruct Hc as [->|[->| ->]]; cbn; lia.
Qed.

Lemma sum_board_counts b :
  Forall valid_cell b ->
  sum_board b = Z.of_nat (disc_count 1 b) - Z.of_nat (disc_count (-1) b).
Proof.
  induction 1 as [|c b Hc _ IH]; [reflexivity|].
  rewrite !disc_count_cons. unfold sum_board in *. cbn [fold_right].
  rewrite IH. unfold valid_cell in Hc.
  destruct Hc as [->|[->| ->]]; cbn; lia.
Qed.

(** [evaluate] is the number of black discs minus the number of white
    discs. *)
Theorem evaluate_is_disc_difference (g : OthelloGame) :
  wf_game g ->
  evaluate g
  = Z.of_nat (disc_count 1 (board g)) - Z.of_nat (disc_count (-1) (board g)).
Proof. intros (_ & Hc & _). now apply sum_board_counts. Qed.

Lemma evaluate_is_disc_difference_witness :
  evaluate new_game
  = Z.of_nat (disc_count 1 (board new_game))
    - Z.of_nat (disc_count (-1) (board new_game)).
Proof. apply (evaluate_is_disc_difference new_game). exact wf_new_game. Defined.

(** [get_winner] names the colour with more discs, and 0 when both have
    as many. *)
Theorem get_winner_majority (g : OthelloGame) :
  wf_game g ->
  (get_winner g = 1 <->
   (disc_count (-1) (board g) < disc_count 1 (board g))%nat) /\
  (get_winner g = -1 <->
   (disc_count 1 (board g) < disc_count (-1) (board g))%nat) /\
  (get_winner g = 0 <->
   disc_count 1 (board g) = disc_count (-1) (board g)).
Proof.
  intros (_ & Hc & _). unfold get_winner. rewrite (sum_board_counts _ Hc).
  cbv zeta.
  destruct (Z.gtb_spec (Z.of_nat (disc_count 1 (board g))
                        - Z.of_nat (disc_count (-1) (board g))) 0);
    [repeat split; intros; try lia|].
  destruct (Z.ltb_spec (Z.of_nat (disc_count 1 (board g))
                        - Z.of_nat (disc_count (-1) (board g))) 0);
    repeat split; intros; try lia.
Qed.

Lemma get_winner_majority_witness :
  (get_winner new_game = 1 <->
   (disc_count (-1) (board new_game) < disc_count 1 (board new_game))%nat) /\
  (get_winner new_game = -1 <->
   (disc_count 1 (board new_game) < disc_count (-1) (board new_game))%nat) /\
  (get_winner new_game = 0 <->
   disc_count 1 (board new_game) = disc_count (-1) (board new_game)).
Proof. apply (get_winner_majority new_game). exact wf_new_game. Defined.

Lemma disc_count_fold_put_same q p flips :
  p <> q ->
  forall b,
    (forall f, In f flips -> b !! Z.to_nat f <> Some q) ->
    disc_count q (fold_left (fun b flip => put b flip p) flips b) = disc_count q b.
Proof.
  intros Hpq. induction flips as [|f fs IH]; intros b Hb; [reflexivity|].
  cbn [fold_left]. rewrite IH.
  - unfold put. destruct (Nat.lt_ge_cases (Z.to_nat f) (length b)) as [H|H].
    + pose proof (disc_count_insert_other q p b (Z.to_nat f) Hpq H) as Hc.
      destruct (decide (b !! Z.to_nat f = Some q)) as [E|_]; [|lia].
      exfalso. now apply (Hb f (or_introl eq_refl)).
    + now rewrite list_insert_ge.
  - intros f' Hf'. unfold put.
    destruct (decide (Z.to_nat f = Z.to_nat f')) as [E|E].
    + rewrite <- E. destruct (Nat.lt_ge_cases (Z.to_nat f) (length b)) as [H|H].
      * rewrite list_lookup_insert_eq by exact H. congruence.
      * rewrite list_insert_ge by exact H. apply (Hb f). now left.
    + rewrite list_lookup_insert_ne by exact E. apply Hb. now right.
Qed.

Lemma cell_lookup b i c : cell b i = c -> c <> 0 -> b !! Z.to_nat i = Some c.
Proof.
  unfold cell. destruct (b !! Z.to_nat i) as [c'|]; cbn [default]; intros; subst.
  - reflexivity.
  - congruence.
Qed.

(** A legal move fills one empty cell and moves discs from the opponent
    to the mover: with [flipped >= 1] discs turned, the mover gains
    [1 + flipped], the opponent loses [flipped], and the empty cells
    decrease by one. *)
Theorem move_conserves_discs (g : OthelloGame) (m : Z) :
  wf_game g -> 0 <= m < 64 -> is_valid_move g m = Ret true ->
  exists g' flipped,
    apply_move g (Some m) = Ret (g', []) /\
    (1 <= flipped)%nat /\
    (disc_count (current_player g) (board g')
     = disc_count (current_player g) (board g) + 1 + flipped)%nat /\
    (disc_count (- current_player g) (board g') + flipped
     = disc_count (- current_player g) (board g))%nat /\
    (disc_count 0 (board g') + 1 = disc_count 0 (board g))%nat.
Proof.
  intros Hwf Hm Hv. pose proof Hwf as (Hlen & Hcells & Hpl & _).
  pose proof (wf_player_nonzero g Hwf) as Hp.
  destruct (apply_move_valid g m ltac:(rewrite Hlen; lia) Hv)
    as (g' & Ha & Hb & _).
  assert (Hwf' : wf_game g').
  { pose proof (wf_after_move g (Some m) Hwf) as H. unfold after_move in H.
    now rewrite Ha in H. }
  destruct Hwf' as (Hlen' & Hcells' & _).
  destruct (valid_move_flips g m Hlen Hm Hv) as (Hempty & f & Hin & Hf & Hcf & _).
  set (p := current_player g) in *. set (b1 := put (board g) m p) in *.
  (* the mover's discs *)
  assert (H1 : disc_count p b1 = S (disc_count p (board g))).
  { unfold b1, put. rewrite disc_count_insert by (rewrite Hlen; lia).
    destruct (decide (board g !! Z.to_nat m = Some p)) as [E|_]; [|lia].
    unfold cell in Hempty. rewrite E in Hempty. cbn in Hempty. lia. }
  assert (H2 : (disc_count p b1 < disc_count p (board g'))%nat).
  { rewrite Hb. apply (disc_count_fold_put_lt p _ b1 f Hin).
    - unfold b1. rewrite length_put, Hlen. lia.
    - unfold b1. rewrite cell_put_ne by lia || (intros ->; lia). lia. }
  (* the empty cells *)
  assert (H3 : (disc_count 0 b1 + 1 = disc_count 0 (board g))%nat).
  { unfold b1, put.
    pose proof (disc_count_insert_other 0 p (board g) (Z.to_nat m) Hp
                  ltac:(rewrite Hlen; lia)) as H.
    destruct (decide (board g !! Z.to_nat m = Some 0)) as [_|Hne]; [lia|].
    exfalso. apply Hne. unfold cell in Hempty.
    destruct (board g !! Z.to_nat m) as [c|] eqn:E; cbn in Hempty; [now subst|].
    apply lookup_ge_None in E. lia. }
  assert (H4 : disc_count 0 (board g') = disc_count 0 b1).
  { rewrite Hb. apply disc_count_fold_put_same; [exact Hp|].
    intros f' Hf'. apply (flip_discs_captured g m f' Hwf Hm) in Hf'.
    apply captured_cell in Hf' as (Hr & Hne & Hc); [|exact Hm].
    unfold b1, put. rewrite list_lookup_insert_ne by lia.
    rewrite (cell_lookup _ _ _ Hc) by (fold p; lia). fold p. intros [= E]. lia. }
  pose proof (count_partition _ Hcells) as P0.
  pose proof (count_partition _ Hcells') as P1.
  exists g', (disc_count p (board g') - disc_count p (board g) - 1)%nat.
  split; [exact Ha|].
  clearbody b1. clearbody p.
  destruct Hpl as [-> | ->].
  - change (Z.opp 1) with (-1) in *. lia.
  - change (Z.opp (-1)) with 1 in *. lia.
Qed.

Lemma move_conserves_discs_witness :
  exists g' flipped,
    apply_move new_game (Some 19) = Ret (g', []) /\
    (1 <= flipped)%nat /\
    (disc_count (current_player new_game) (board g')
     = disc_count (current_player new_game) (board new_game) + 1 + flipped)%nat /\
    (disc_count (- current_player new_game) (board g') + flipped
     = disc_count (- current_player new_game) (board new_game))%nat /\
    (disc_count 0 (board g') + 1 = disc_count 0 (board new_game))%nat.
Proof.
  apply (move_conserves_discs new_game 19);
    [exact wf_new_game | lia | vm_compute; reflexivity].
Defined.

Lemma disc_count_pos c b : In c b -> (1 <= disc_count c b)%nat.
Proof.
  induction b as [|x b IH]; [intros []|].
  rewrite disc_count_cons. intros [->|H].
  - rewrite Z.eqb_refl. lia.
  - specialize (IH H). lia.
Qed.

(** A legal move exists only while both colours are on the board. *)
Theorem legal_move_needs_both_colours (g : OthelloGame) :
  wf_game g -> get_valid_moves g <> [] ->
  (1 <= disc_count (current_player g) (board g))%nat /\
  (1 <= disc_count (- current_player g) (board g))%nat.
Proof.
  intros Hwf Hne. pose proof (wf_player_nonzero g Hwf) as Hp.
  destruct (get_valid_moves g) as [|m ms] eqn:Em; [congruence|].
  assert (Hin : In m (get_valid_moves g)) by (rewrite Em; now left).
  apply valid_move_in_list in Hin as [Hm Hv].
  apply (valid_move_captures g m Hwf Hm) in Hv
    as (_ & d & k & _ & Hk & Hall & _ & Hc).
  destruct (Hall 1%nat ltac:(lia)) as [_ Ho].
  split; apply disc_count_pos.
  - apply cell_lookup in Hc; [|exact Hp].
    apply list_elem_of_In. eapply list_elem_of_lookup_2. exact Hc.
  - apply cell_lookup in Ho; [|lia].
    apply list_elem_of_In. eapply list_elem_of_lookup_2. exact Ho.
Qed.

Lemma legal_move_needs_both_colours_witness :
  (1 <= disc_count (current_player new_game) (board new_game))%nat /\
  (1 <= disc_count (- current_player new_game) (board new_game))%nat.
Proof.
  apply (legal_move_needs_both_colours new_game); [exact wf_new_game|].
  vm_compute. discriminate.
Defined.

(** ** The end of the game *)

Lemma filter_all_false {A : Type} (f : A -> bool) l :
  (forall x, In x l -> f x = false) -> List.filter f l = [].
Proof.
  induction l as [|x l IH]; intros H; [reflexivity|]. cbn [List.filter].
  rewrite (H x (or_introl eq_refl)). apply IH. intros y Hy. apply H. now right.
Qed.

Lemma full_no_moves g : board_full (board g) = true -> get_valid_moves g = [].
Proof.
  intros Hfull. unfold board_full in Hfull. rewrite forallb_forall in Hfull.
  unfold get_valid_moves. apply filter_all_false. intros i _.
  unfold is_valid_move, getitem.
  destruct (norm_index (length (board g)) i) as [k|]; [|reflexivity].
  destruct (board g !! k) as [c|] eqn:E; [|reflexivity].
  cbn [py_bind]. rewrite (Hfull c); [reflexivity|].
  apply list_elem_of_In. eapply list_elem_of_lookup_2. exact E.
Qed.

(** On a full board nobody has a legal move and [is_game_over] answers
    true, whatever the pass count. *)
Theorem full_board_is_over (g : OthelloGame) :
  board_full (board g) = true ->
  get_valid_moves g = [] /\ is_game_over g = true.
Proof.
  intros Hfull. pose proof (full_no_moves g Hfull) as Hm.
  split; [exact Hm|]. unfold is_game_over. now rewrite Hfull, Hm.
Qed.

Lemma full_board_is_over_witness :
  get_valid_moves {| board := replicate 64 1; current_player := -1;
                     last_move := None; turns_passed := 0 |} = [] /\
  is_game_over {| board := replicate 64 1; current_player := -1;
                  last_move := None; turns_passed := 0 |} = true.
Proof.
  apply (full_board_is_over {| board := replicate 64 1; current_player := -1;
                               last_move := None; turns_passed := 0 |}).
  vm_compute. reflexivity.
Defined.

(** What [is_game_over] tests: before the second pass in a row, that
    the player to move has no legal move; from the second pass on, that
    the board is full. *)
Theorem is_game_over_reads (g : OthelloGame) :
  is_game_over g =
  if turns_passed g <? 2
  then match get_valid_moves g with [] => true | _ => false end
  else board_full (board g).
Proof.
  unfold is_game_over.
  destruct (board_full (board g)) eqn:Hfull.
  - rewrite (full_no_moves g Hfull). now destruct (turns_passed g <? 2).
  - destruct (Z.geb_spec (turns_passed g) 2), (Z.ltb_spec (turns_passed g) 2);
      try lia; reflexivity.
Qed.

(** ** Moves that are turned down *)

Lemma invalid_in_range g m :
  length (board g) = 64%nat -> 0 <= m < 64 ->
  invalid_move g (Some m) -> is_valid_move g m = Ret false.
Proof.
  intros Hlen Hm Hinv. unfold is_valid_move.
  rewrite getitem_in_range by (rewrite Hlen; lia). cbn [py_bind].
  destruct (Z.eqb_spec (cell (board g) m) 0) as [Hc|Hc]; cbn [negb]; [|reflexivity].
  destruct Hinv as [H|[H|H]]; [lia|congruence|]. now rewrite H.
Qed.

(** [apply_move] turns down an absent move and, on a 64-cell board, an
    index of [0..63] whose cell is taken or that captures nothing: the
    message is printed and the game is as it was. An index below -64 or
    above 63 raises [IndexError], also from [is_valid_move]. *)
Theorem apply_move_turns_down (g : OthelloGame) :
  length (board g) = 64%nat ->
  apply_move g None = Ret (g, [InvalidMoveDetected None]) /\
  (forall m, 0 <= m < 64 -> invalid_move g (Some m) ->
     apply_move g (Some m) = Ret (g, [InvalidMoveDetected (Some m)])) /\
  (forall m, m < -64 \/ 64 <= m ->
     is_valid_move g m = Raise IndexError /\
     apply_move g (Some m) = Raise IndexError).
Proof.
  intros Hlen. split; [reflexivity|]. split.
  - intros m Hm Hinv. apply apply_move_not_valid.
    now apply invalid_in_range.
  - intros m Hm.
    assert (H : is_valid_move g m = Raise IndexError).
    { unfold is_valid_move. rewrite getitem_out_of_range by (rewrite Hlen; lia).
      reflexivity. }
    split; [exact H|]. unfold apply_move. now rewrite H.
Qed.

Lemma apply_move_turns_down_witness :
  apply_move new_game None = Ret (new_game, [InvalidMoveDetected None]) /\
  (forall m, 0 <= m < 64 -> invalid_move new_game (Some m) ->
     apply_move new_game (Some m)
     = Ret (new_game, [InvalidMoveDetected (Some m)])) /\
  (forall m, m < -64 \/ 64 <= m ->
     is_valid_move new_game m = Raise IndexError /\
     apply_move new_game (Some m) = Raise IndexError).
Proof. apply (apply_move_turns_down new_game). reflexivity. Defined.

(** * Further properties of the NegaScout player *)

(** At a root with a legal move, the root window keeps the first move of
    largest minimax value. *)
Lemma negascout_root depth root_state move rest :
  get_valid_moves root_state = move :: rest ->
  negascout (S depth) root_state None NegInf PosInf 1 =
  let value m := minimax depth (child_state root_state m) false in
  let r := fold_left
             (fun best m => if value m >? snd best then (Some m, value m) else best)
             rest (Some move, value move) in
  (Fin (snd r), fst r).
Proof.
  intros Hm. cbn [negascout].
  rewrite moves_not_game_over by (rewrite Hm; discriminate). rewrite Hm.
  set (sc := fun child a b c => fst (negascout depth child None a b c)).
  set (exact := fun child => negamax depth child (Z.opp 1)).
  assert (Hsc : forall child a b, ext_ltb a b = true ->
                  fail_soft (sc child a b (Z.opp 1)) (exact child) a b).
  { intros child a b H. apply negascout_fail_soft, H. }
  assert (Hv : forall m, - exact (child_state root_state m)
                         = minimax depth (child_state root_state m) false).
  { intros m. unfold exact. rewrite negamax_minimax by lia.
    change (Z.opp 1 =? 1) with false. lia. }
  rewrite negascout_loop_cons. cbv zeta.
  pose proof (current_score_fail_soft sc exact root_state 1 Hsc move 0
                NegInf PosInf eq_refl ltac:(intros H; now contradict H)) as Hcs.
  apply fail_soft_full_window in Hcs. rewrite Hcs.
  cbn [ext_ltb ext_max ext_leb negb].
  rewrite (negascout_loop_full_window sc exact root_state 1 Hsc).
  cbv zeta. rewrite Hv.
  rewrite (fold_left_ext_eq _
             (fun best m =>
                if minimax depth (child_state root_state m) false >? snd best
                then (Some m, minimax depth (child_state root_state m) false)
                else best))
    by (intros x y; now rewrite Hv).
  reflexivity.
Qed.

Lemma fold_best_in (value : Z -> Z) rest :
  forall m0 v0,
    exists m, fst (fold_left
                     (fun best m => if value m >? snd best then (Some m, value m)
                                    else best)
                     rest (Some m0, v0)) = Some m /\
              In m (m0 :: rest).
Proof.
  induction rest as [|x rest IH]; intros m0 v0; cbn [fold_left snd].
  - exists m0. split; [reflexivity|now left].
  - destruct (value x >? v0).
    + destruct (IH x (value x)) as (m & Hm & Hin). exists m. split; [exact Hm|].
      now right.
    + destruct (IH m0 v0) as (m & Hm & Hin). exists m. split; [exact Hm|].
      destruct Hin as [->|Hin]; [now left|right; now right].
Qed.

(** [NegascoutPlayer.get_move]: with a depth limit of 0 the search
    records no move and the player passes even when it could move; with
    a depth limit of at least 1 it passes exactly when there is no legal
    move, and any move it returns is a legal one. *)
Theorem negascout_get_move_legal (game_state : OthelloGame) :
  negascout_get_move 0 game_state = None /\
  forall depth,
    (negascout_get_move (S depth) game_state = None <->
     get_valid_moves game_state = []) /\
    (forall m, negascout_get_move (S depth) game_state = Some m ->
               In m (get_valid_moves game_state)).
Proof.
  unfold negascout_get_move, negascout_search. split.
  - destruct (get_valid_moves game_state); reflexivity.
  - intros depth.
    destruct (get_valid_moves game_state) as [|move rest] eqn:Hm.
    + split; [tauto|discriminate].
    + rewrite (negascout_root depth game_state move rest Hm). cbv zeta. cbn [fst snd].
      destruct (fold_best_in
                  (fun m => minimax depth (child_state game_state m) false)
                  rest move
                  (minimax depth (child_state game_state move) false))
        as (m & -> & Hin).
      split; [split; discriminate|]. intros m' [= <-]. exact Hin.
Qed.

(** NegaScout is fail-soft for every window: with [alpha < beta] and a
    colour of 1 or -1 the result is a number; at or below [alpha] it is
    an upper bound of the minimax value seen from that colour, at or
    above [beta] a lower bound, and strictly inside the window it is the
    value itself. *)
Theorem negascout_window_bounds (depth : nat) (st : OthelloGame)
    (bm : option Z) (alpha beta : ext) (color : Z) :
  ext_ltb alpha beta = true -> color = 1 \/ color = -1 ->
  exists z,
    fst (negascout depth st bm alpha beta color) = Fin z /\
    (ext_leb (Fin z) alpha = true -> color * minimax depth st (color =? 1) <= z) /\
    (ext_ltb alpha (Fin z) = true -> ext_ltb (Fin z) beta = true ->
     z = color * minimax depth st (color =? 1)) /\
    (ext_leb beta (Fin z) = true -> z <= color * minimax depth st (color =? 1)).
Proof.
  intros Hab Hc. rewrite <- (negamax_minimax depth st color Hc).
  exact (negascout_fail_soft depth st bm alpha beta color Hab).
Qed.

Lemma negascout_window_bounds_witness :
  exists z,
    fst (negascout 2 new_game None (Fin 0) (Fin 1) 1) = Fin z /\
    (ext_leb (Fin z) (Fin 0) = true -> 1 * minimax 2 new_game (1 =? 1) <= z) /\
    (ext_ltb (Fin 0) (Fin z) = true -> ext_ltb (Fin z) (Fin 1) = true ->
     z = 1 * minimax 2 new_game (1 =? 1)) /\
    (ext_leb (Fin 1) (Fin z) = true -> z <= 1 * minimax 2 new_game (1 =? 1)).
Proof.
  apply (negascout_window_bounds 2 new_game None (Fin 0) (Fin 1) 1);
    [reflexivity | lia].
Defined.

(** * Further properties of the MCTS player *)

(** What [expand] builds. *)
Lemma expand_result bound t i n :
  tree_ok bound t -> t !! i = Some n -> untried_moves n <> [] ->
  exists move untried g',
    In move (untried_moves n) /\
    last_move g' = Some move /\
    expand t i =
    Ret (<[i := {| state := state n; parent := parent n;
                   children := children n ++ [length t];
                   visits := visits n; wins := wins n;
                   untried_moves := untried |}]> t
         ++ [new_node g' (Some i)], length t).
Proof.
  intros Hok Hi Hu.
  destruct (pop_nonempty _ Hu) as (move & untried & Hpop & Hmove & Hsub).
  pose proof (ok_untried _ _ Hok i n move Hi Hmove) as Hvalid.
  apply valid_move_in_list in Hvalid as [Hrange Hv].
  rewrite <- is_valid_move_clone in Hv.
  destruct (is_valid_move_true _ _ (proj1 Hrange) Hv) as (Hlt & _).
  destruct (apply_move_valid (clone (state n)) move ltac:(lia) Hv)
    as (g' & Ha & _ & _ & Hl & _).
  exists move, untried, g'. split; [exact Hmove|]. split; [exact Hl|].
  unfold expand. rewrite (node_at_Some _ _ _ Hi). cbn [py_bind].
  rewrite Hpop, Ha. reflexivity.
Qed.

Lemma moves_recorded_shape st t t' :
  map shape t = map shape t' -> moves_recorded st t -> moves_recorded st t'.
Proof.
  intros Hs [(r & Hr & Hst) Hrec]. pose proof (eq_sym Hs) as Hs'. split.
  - destruct (shape_lookup t' t 0%nat r Hs' Hr) as (r' & Hr' & Hsh).
    apply shape_fields in Hsh as (Es & _). exists r'. split; [exact Hr'|congruence].
  - intros c nc p np Hc Hp Hnp.
    destruct (shape_lookup t t' c nc Hs Hc) as (nc0 & Hc0 & Hsh).
    apply shape_fields in Hsh as (Es & Ep & _).
    destruct (shape_lookup t t' p np Hs Hnp) as (np0 & Hp0 & Hsh).
    apply shape_fields in Hsh as (Es' & _).
    rewrite <- Ep in Hp. rewrite <- Es, <- Es'. eauto.
Qed.

Lemma moves_recorded_expand bound st t i n t' c :
  tree_ok bound t -> moves_recorded st t ->
  t !! i = Some n -> untried_moves n <> [] ->
  expand t i = Ret (t', c) -> moves_recorded st t'.
Proof.
  intros Hok [(r & Hr & Hst) Hrec] Hi Hu He.
  destruct (expand_result bound t i n Hok Hi Hu)
    as (move & untried & g' & Hmove & Hl & He').
  rewrite He' in He. injection He as <- <-.
  set (n' := {| state := state n; parent := parent n;
                children := children n ++ [length t];
                visits := visits n; wins := wins n; untried_moves := untried |}).
  set (child := new_node g' (Some i)).
  apply lookup_lt_Some in Hi as Hilt.
  assert (Hlook := fun j => lookup_grown t i n' child j Hilt).
  assert (Hlen : forall j m, t !! j = Some m -> (j < length t)%nat).
  { intros j m H. now apply lookup_lt_Some in H. }
  (* the nodes of the new tree have the states of the old one *)
  assert (Hold : forall j m, j <> length t ->
            (<[i := n']> t ++ [child]) !! j = Some m ->
            exists m0, t !! j = Some m0 /\ state m0 = state m /\ parent m0 = parent m).
  { intros j m Hj Hm. rewrite Hlook in Hm.
    destruct (decide (j = length t)); [congruence|].
    destruct (decide (j = i)) as [->|_].
    - injection Hm as <-. exists n. auto.
    - exists m. auto. }
  split.
  - rewrite Hlook. destruct (decide (0%nat = length t)); [lia|].
    destruct (decide (0%nat = i)) as [<-|_].
    + exists n'. split; [reflexivity|]. replace r with n in Hst by congruence.
      exact Hst.
    + exists r. auto.
  - intros c nc p np Hc Hp Hnp.
    destruct (decide (p = length t)) as [->|Hpl].
    { (* the new node is nobody's parent *)
      exfalso. destruct (decide (c = length t)) as [->|Hcl].
      - rewrite Hlook in Hc. destruct (decide (length t = length t)); [|congruence].
        injection Hc as <-. unfold child, new_node in Hp. cbn [parent] in Hp.
        injection Hp as E. lia.
      - destruct (Hold c nc Hcl Hc) as (nc0 & Hc0 & _ & Ep).
        rewrite <- Ep in Hp.
        destruct (ok_parent _ _ Hok c nc0 _ Hc0 Hp) as (_ & np0 & Hnp0 & _).
        apply Hlen in Hnp0. lia. }
    destruct (Hold p np Hpl Hnp) as (np0 & Hnp0 & Esp & _).
    rewrite <- Esp.
    destruct (decide (c = length t)) as [->|Hcl].
    + rewrite Hlook in Hc. destruct (decide (length t = length t)); [|congruence].
      injection Hc as <-. unfold child, new_node in *. cbn [parent state] in *.
      injection Hp as <-. replace np0 with n by congruence.
      exists move. split; [exact Hl|]. now apply (ok_untried _ _ Hok i n).
    + destruct (Hold c nc Hcl Hc) as (nc0 & Hc0 & Es & Ep).
      rewrite <- Es. rewrite <- Ep in Hp. eauto.
Qed.

Section Invariants.
Variable value : Type.
Variable value_gt : value -> value -> bool.
Variable inf : value.
Variable ucb1 : Z -> Z -> Z -> value -> value.
Variable search_weight : value.
Variable final_weight : value.
Variable rand : nat -> nat.
Variable bound : nat.

(** A property of trees that [expand] and [backpropagate] keep. *)
Variable J : list MCTSNode -> Prop.

Hypothesis J_expand :
  forall t i n t' c,
    tree_ok bound t -> J t -> t !! i = Some n -> untried_moves n <> [] ->
    expand t i = Ret (t', c) -> J t'.

Hypothesis J_backpropagate :
  forall fuel t j n result t',
    tree_ok bound t -> J t -> t !! j = Some n -> j <> 0%nat ->
    backpropagate fuel t j result = Ret t' -> J t'.

Lemma iteration_keeps fuel t k t' k' :
  tree_ok bound t -> J t -> (length t + bound + 1 < fuel)%nat ->
  iteration value value_gt inf ucb1 search_weight rand fuel t k = Ret (t', k') ->
  J t'.
Proof.
  intros Hok HJ Hf.
  destruct (ok_root _ _ Hok) as (r & Hr & Hrp & Hrover).
  destruct (select_node_ok value value_gt inf ucb1 search_weight bound t Hok
              fuel 0%nat r Hr ltac:(lia)) as (j & nj & Hsel & Hj & Hstop).
  unfold iteration. rewrite Hsel. cbn [py_bind].
  rewrite (node_at_Some _ _ _ Hj). cbn [py_bind].
  apply lookup_lt_Some in Hj as Hjlt.
  destruct (is_game_over (state nj)) eqn:Hover; cbn [negb].
  - cbn [py_bind fst snd]. rewrite (node_at_Some _ _ _ Hj). cbn [py_bind].
    pose proof (ok_board _ _ Hok j nj Hj) as Hb.
    destruct (simulate_ends rand fuel k (state nj) ltac:(lia))
      as (final & k1 & -> & _).
    cbn [py_bind fst snd].
    destruct (backpropagate fuel t j (get_winner final)) as [t1|e] eqn:Hbp;
      cbn [py_bind]; [|discriminate].
    intros [= <- _].
    apply (J_backpropagate fuel t j nj (get_winner final) t1 Hok HJ Hj);
      [|exact Hbp].
    intros ->. congruence.
  - destruct Hstop as [Hstop|Hu]; [congruence|].
    destruct (expand_ok bound t j nj Hok Hj Hu)
      as (t1 & nc & He & Hok1 & Hlen1 & Hnc & _).
    rewrite He. cbn [py_bind fst snd]. rewrite (node_at_Some _ _ _ Hnc). cbn [py_bind].
    pose proof (ok_board _ _ Hok1 _ nc Hnc) as Hb.
    destruct (simulate_ends rand fuel k (state nc) ltac:(lia))
      as (final & k1 & -> & _).
    cbn [py_bind fst snd].
    destruct (backpropagate fuel t1 (length t) (get_winner final)) as [t2|e] eqn:Hbp;
      cbn [py_bind]; [|discriminate].
    intros [= <- _].
    apply (J_backpropagate fuel t1 (length t) nc (get_winner final) t2 Hok1);
      [|exact Hnc|lia|exact Hbp].
    apply (J_expand t j nj t1 (length t) Hok HJ Hj Hu He).
Qed.

Lemma iterate_keeps fuel count :
  forall t k t' k',
    tree_ok bound t -> J t -> (length t + count + bound + 1 < fuel)%nat ->
    iterate value value_gt inf ucb1 search_weight rand count fuel t k = Ret (t', k') ->
    J t'.
Proof.
  induction count as [|count IH]; intros t k t' k' Hok HJ Hf.
  - cbn [iterate]. now intros [= <- _].
  - cbn [iterate].
    destruct (iteration_ok value value_gt inf ucb1 search_weight rand bound fuel t k
                Hok ltac:(lia)) as (t1 & k1 & Hit & Hok1 & Hlen1 & _).
    rewrite Hit. cbn [py_bind fst snd].
    apply (IH t1 k1 t' k' Hok1); [|lia].
    apply (iteration_keeps fuel t k t1 k1 Hok HJ ltac:(lia) Hit).
Qed.
End Invariants.

Lemma backpropagate_shape fuel :
  forall t j result t',
    backpropagate fuel t j result = Ret t' -> map shape t' = map shape t.
Proof.
  induction fuel as [|fuel IH]; intros t j result t'; [discriminate|].
  cbn [backpropagate]. unfold node_at.
  destruct (t !! j) as [n|] eqn:Hj; cbn [py_bind]; [|discriminate].
  set (n' := {| state := state n; parent := parent n; children := children n;
                visits := visits n + 1; wins := wins n + result;
                untried_moves := untried_moves n |}).
  assert (Hs : map shape (<[j := n']> t) = map shape t)
    by (now apply (shape_insert t j n n')).
  destruct (parent n) as [p|].
  - intros H. apply IH in H. congruence.
  - intros [= <-]. exact Hs.
Qed.

Lemma moves_recorded_root st : moves_recorded st [new_node st None].
Proof.
  split.
  - exists (new_node st None). split; reflexivity.
  - intros c nc p np Hc Hp _. destruct c as [|c]; [|destruct c; discriminate].
    injection Hc as <-. discriminate.
Qed.

Section SearchResult.
Variable value : Type.
Variable value_gt : value -> value -> bool.
Variable inf : value.
Variable ucb1 : Z -> Z -> Z -> value -> value.
Variable search_weight : value.
Variable final_weight : value.
Variable rand : nat -> nat.

(** After at least one iteration [search] returns a legal move of the
    root state. *)
Lemma search_legal (fuel N k : nat) (root_state : OthelloGame) :
  get_valid_moves root_state <> [] -> (1 <= N)%nat ->
  (N + disc_count 0 (board root_state) + 2 < fuel)%nat ->
  exists m,
    search value value_gt inf ucb1 search_weight final_weight rand
           fuel N k root_state = Ret (Some m) /\
    In m (get_valid_moves root_state).
Proof.
  intros Hm HN Hf. destruct (tree_ok_root root_state Hm) as [Hok H0].
  set (bound := disc_count 0 (board root_state)) in *.
  destruct (iterate_ok value value_gt inf ucb1 search_weight rand bound fuel N
              [new_node root_state None] k Hok ltac:(cbn [length]; lia))
    as (t & k' & Hit & Hok' & _ & Hsum).
  assert (HJ : moves_recorded root_state t).
  { refine (iterate_keeps value value_gt inf ucb1 search_weight rand bound
              (moves_recorded root_state) _ _ fuel N
              [new_node root_state None] k t k' Hok _ _ Hit).
    - intros t0 i n t1 c Hok0 HJ0 Hi Hu He.
      now apply (moves_recorded_expand bound root_state t0 i n t1 c).
    - intros fuel0 t0 j n result t1 _ HJ0 _ _ Hbp.
      apply (moves_recorded_shape root_state t0 t1); [|exact HJ0].
      symmetry. now apply (backpropagate_shape fuel0 t0 j result).
    - apply moves_recorded_root.
    - cbn [length]. lia. }
  destruct HJ as [(r & Hr & Hst) Hrec].
  assert (Hch : children r <> []).
  { intros E. rewrite H0 in Hsum. unfold root_children_visits in Hsum.
    rewrite Hr, E in Hsum. cbn [map fold_right] in Hsum. lia. }
  destruct (best_child_ok value value_gt inf ucb1 bound t 0%nat r final_weight
              Hok' Hr Hch) as (b & Hb & Hin).
  destruct (ok_children _ _ Hok' 0%nat r b Hr Hin) as (nb & Hnb & Hp).
  destruct (Hrec b nb 0%nat r Hnb Hp Hr) as (m & Hl & Hlegal).
  exists m. split; [|now rewrite <- Hst].
  unfold search. rewrite Hit. cbn [py_bind fst]. rewrite Hb. cbn [py_bind].
  rewrite (node_at_Some _ _ _ Hnb). cbn [py_bind]. now rewrite Hl.
Qed.

(** [MCTSPlayer.get_move] with at least one iteration (and fuel for the
    loops): it returns, it passes ([None]) exactly when there is no
    legal move, and any move it returns is legal. *)
Theorem mcts_get_move_legal (fuel N k : nat) (game_state : OthelloGame) :
  (1 <= N)%nat ->
  (N + disc_count 0 (board game_state) + 2 < fuel)%nat ->
  exists r,
    mcts_get_move value value_gt inf ucb1 search_weight final_weight rand
                  fuel N k game_state = Ret r /\
    (r = None <-> get_valid_moves game_state = []) /\
    (forall m, r = Some m -> In m (get_valid_moves game_state)).
Proof.
  intros HN Hf. unfold mcts_get_move.
  destruct (get_valid_moves game_state) as [|m0 ms] eqn:Hm.
  - exists None. split; [reflexivity|]. split; [tauto|discriminate].
  - destruct (search_legal fuel N k game_state ltac:(rewrite Hm; discriminate) HN Hf)
      as (m & Hs & Hin).
    exists (Some m). split; [exact Hs|]. split; [split; discriminate|].
    intros m' [= <-]. now rewrite <- Hm.
Qed.
End SearchResult.

Lemma mcts_get_move_legal_witness :
  exists r,
    mcts_get_move bool (fun a b => andb a (negb b)) true (fun _ _ _ w => w)
                  false false (fun n => n) 70 2 0 new_game = Ret r /\
    (r = None <-> get_valid_moves new_game = []) /\
    (forall m, r = Some m -> In m (get_valid_moves new_game)).
Proof.
  apply (mcts_get_move_legal bool (fun a b => andb a (negb b)) true
           (fun _ _ _ w => w) false false (fun n => n) 70 2 0 new_game).
  - lia.
  - vm_compute. lia.
Defined.

(** ** The statistics of the root *)

Lemma sum_wins_insert (t : list MCTSNode) j n n' l :
  t !! j = Some n -> NoDup l ->
  fold_right Z.add 0 (map (wins_at (<[j := n']> t)) l)
  = fold_right Z.add 0 (map (wins_at t) l)
    + (if decide (j ∈ l) then wins n' - wins n else 0).
Proof.
  intros Hj. induction l as [|c l IH]; intros Hnd.
  - cbn [map fold_right]. destruct (decide (j ∈ [])) as [H|_]; [|lia].
    now apply not_elem_of_nil in H.
  - apply NoDup_cons in Hnd as [Hc Hnd].
    cbn [map fold_right]. rewrite IH by exact Hnd.
    unfold wins_at at 1.
    destruct (decide (j = c)) as [<-|Hne].
    + rewrite list_lookup_insert_eq by (now apply lookup_lt_Some in Hj).
      unfold wins_at at 2. rewrite Hj.
      destruct (decide (j ∈ l)); [tauto|].
      destruct (decide (j ∈ j :: l)) as [_|H]; [lia|].
      exfalso. apply H. now left.
    + rewrite list_lookup_insert_ne by exact Hne.
      fold (wins_at t c).
      destruct (decide (j ∈ l)) as [H|H], (decide (j ∈ c :: l)) as [H'|H'];
        try lia.
      * exfalso. apply H'. now right.
      * apply elem_of_cons in H' as [?|?]; [congruence|tauto].
Qed.

Lemma root_children_wins_insert bound (t : list MCTSNode) j n n' r :
  tree_ok bound t -> t !! 0%nat = Some r -> t !! j = Some n ->
  shape n' = shape n ->
  root_children_wins (<[j := n']> t)
  = root_children_wins t + (if decide (j ∈ children r) then wins n' - wins n else 0).
Proof.
  intros Hok Hr Hj Hs. unfold root_children_wins. rewrite Hr.
  assert (exists r', <[j := n']> t !! 0%nat = Some r' /\ children r' = children r)
    as (r' & -> & ->).
  { destruct (decide (j = 0%nat)) as [->|Hne].
    - exists n'. rewrite list_lookup_insert_eq by (now apply lookup_lt_Some in Hj).
      split; [reflexivity|]. apply shape_fields in Hs.
      replace r with n by congruence. tauto.
    - exists r. now rewrite list_lookup_insert_ne. }
  apply (sum_wins_insert t j n n' _ Hj). now apply (ok_nodup _ _ Hok).
Qed.

(** [backpropagate] adds one visit to the root; what it adds to the
    root's wins it takes from the wins of the root's children. *)
Lemma backpropagate_root bound fuel :
  forall t j n result t',
    tree_ok bound t -> t !! j = Some n ->
    backpropagate fuel t j result = Ret t' ->
    exists s,
      visits_at t' 0 = visits_at t 0 + 1 /\
      wins_at t' 0 = wins_at t 0 + s /\
      root_children_wins t'
      = root_children_wins t + (if decide (j = 0%nat) then 0 else - s) /\
      (j = 0%nat -> s = result).
Proof.
  induction fuel as [|fuel IH]; intros t j n result t' Hok Hj; [discriminate|].
  cbn [backpropagate]. rewrite (node_at_Some _ _ _ Hj). cbn [py_bind].
  set (n' := {| state := state n; parent := parent n; children := children n;
                visits := visits n + 1; wins := wins n + result;
                untried_moves := untried_moves n |}).
  assert (Hs : shape n' = shape n) by reflexivity.
  pose proof (shape_insert t j n n' Hj Hs) as Hshape.
  pose proof (tree_ok_shape bound _ _ (eq_sym Hshape) Hok) as Hok1.
  destruct (ok_root _ _ Hok) as (r & Hr & Hrp & _).
  pose proof (root_children_wins_insert bound t j n n' r Hok Hr Hj Hs) as Hcw.
  replace (wins n' - wins n) with result in Hcw by (cbn [wins n']; lia).
  apply lookup_lt_Some in Hj as Hjlt.
  destruct (parent n) as [p|] eqn:Hp.
  - destruct (ok_parent _ _ Hok j n p Hj Hp) as (Hlt & np & Hnp & Hin).
    assert (Hp1 : <[j := n']> t !! p = Some np).
    { rewrite list_lookup_insert_ne by lia. exact Hnp. }
    intros Hbp.
    destruct (IH _ p np (- result) t' Hok1 Hp1 Hbp) as (s & Hv & Hw & Hc & Hs0).
    assert (Hroot : visits_at (<[j := n']> t) 0 = visits_at t 0 /\
                    wins_at (<[j := n']> t) 0 = wins_at t 0).
    { unfold visits_at, wins_at. rewrite list_lookup_insert_ne by lia. auto. }
    destruct Hroot as [Ev Ew]. exists s.
    split; [lia|]. split; [lia|]. split; [|lia].
    rewrite Hc, Hcw. destruct (decide (j = 0%nat)); [lia|].
    destruct (decide (p = 0%nat)) as [->|Hp0].
    + replace np with r in Hin by congruence. specialize (Hs0 eq_refl).
      destruct (decide (j ∈ children r)) as [_|Hn]; [lia|].
      exfalso. apply Hn. now apply list_elem_of_In.
    + destruct (decide (j ∈ children r)) as [Hjr|_]; [|lia].
      exfalso. apply list_elem_of_In in Hjr.
      destruct (ok_children _ _ Hok 0%nat r j Hr Hjr) as (nc & Hnc & Hpc).
      congruence.
  - pose proof (ok_orphan _ _ Hok j n Hj Hp) as ->. intros [= <-].
    exists result. replace r with n in * by congruence.
    unfold visits_at, wins_at. rewrite list_lookup_insert_eq by exact Hjlt.
    rewrite Hj. cbn [visits wins n'].
    split; [reflexivity|]. split; [reflexivity|]. split; [|reflexivity].
    rewrite Hcw. destruct (decide (0%nat = 0%nat)); [|congruence].
    destruct (decide (0%nat ∈ children n)) as [H0|_]; [|lia].
    exfalso. apply list_elem_of_In in H0.
    destruct (ok_children _ _ Hok 0%nat n 0%nat Hj H0) as (nc & Hnc & Hpc).
    congruence.
Qed.

Lemma backpropagate_more fuel :
  forall t j result t' fuel',
    backpropagate fuel t j result = Ret t' -> (fuel <= fuel')%nat ->
    backpropagate fuel' t j result = Ret t'.
Proof.
  induction fuel as [|fuel IH]; intros t j result t' fuel'; [discriminate|].
  intros H Hle. destruct fuel' as [|fuel']; [lia|].
  cbn [backpropagate] in *.
  destruct (node_at t j) as [n|e]; cbn [py_bind] in *; [|discriminate].
  destruct (parent n) as [p|]; [|exact H].
  apply (IH _ _ _ _ fuel' H). lia.
Qed.

Lemma backpropagate_mirrors bound fuel t j n result t' :
  tree_ok bound t -> root_mirrors t -> t !! j = Some n -> j <> 0%nat ->
  backpropagate fuel t j result = Ret t' -> root_mirrors t'.
Proof.
  intros Hok [Hv Hw] Hj Hne Hbp.
  destruct (backpropagate_root bound fuel t j n result t' Hok Hj Hbp)
    as (s & Hv' & Hw' & Hc' & _).
  destruct (backpropagate_ok bound (fuel + S j) t j n result Hok Hj ltac:(lia))
    as (t'' & Hbp' & _ & Hsum).
  rewrite (backpropagate_more fuel t j result t' (fuel + S j) Hbp ltac:(lia)) in Hbp'.
  injection Hbp' as <-.
  destruct (decide (j = 0%nat)); [congruence|].
  split; lia.
Qed.

Lemma grow_children_wins bound t i n n' child :
  tree_ok bound t -> t !! i = Some n ->
  children n' = children n ++ [length t] -> wins n' = wins n ->
  wins child = 0 ->
  root_children_wins (<[i := n']> t ++ [child]) = root_children_wins t.
Proof.
  intros Hok Hi Ec Ew Hcw.
  apply lookup_lt_Some in Hi as Hilt.
  assert (Hlook := fun j => lookup_grown t i n' child j Hilt).
  set (t' := <[i := n']> t ++ [child]) in *.
  destruct (ok_root _ _ Hok) as (r & Hr & _).
  assert (Hlen : forall j m, t !! j = Some m -> (j < length t)%nat).
  { intros j m H. now apply lookup_lt_Some in H. }
  unfold root_children_wins. rewrite Hr, Hlook.
  destruct (decide (0%nat = length t)); [lia|].
  assert (Hsame : forall c nc, t !! c = Some nc -> wins_at t' c = wins_at t c).
  { intros c nc Hc. unfold wins_at. rewrite Hlook, Hc.
    destruct (decide (c = length t)); [apply Hlen in Hc; lia|].
    destruct (decide (c = i)) as [->|_]; [|reflexivity].
    replace nc with n by congruence. exact Ew. }
  assert (Hsum : fold_right Z.add 0 (map (wins_at t') (children r))
                 = fold_right Z.add 0 (map (wins_at t) (children r))).
  { assert (Hall : forall c, In c (children r) -> exists nc, t !! c = Some nc).
    { intros c Hc. destruct (ok_children _ _ Hok 0%nat r c Hr Hc) as (nc & ? & _).
      eauto. }
    induction (children r) as [|c l IHl]; [reflexivity|].
    cbn [map fold_right].
    destruct (Hall c (or_introl eq_refl)) as [nc Hnc].
    rewrite (Hsame c nc Hnc). rewrite IHl; [reflexivity|].
    intros c' Hc'. apply Hall. now right. }
  destruct (decide (0%nat = i)) as [<-|_]; [|rewrite Hr; exact Hsum].
  assert (r = n) as -> by congruence. rewrite Ec.
  rewrite map_app, fold_right_app. cbn [map fold_right].
  assert (wins_at t' (length t) = 0) as ->.
  { unfold wins_at. rewrite Hlook.
    destruct (decide (length t = length t)); [exact Hcw|congruence]. }
  rewrite Z.add_0_r. exact Hsum.
Qed.

Lemma expand_mirrors bound t i n t' c :
  tree_ok bound t -> root_mirrors t -> t !! i = Some n ->
  untried_moves n <> [] -> expand t i = Ret (t', c) -> root_mirrors t'.
Proof.
  intros Hok [Hv Hw] Hi Hu He.
  destruct (expand_ok bound t i n Hok Hi Hu) as (t1 & nc & He1 & _ & _ & _ & Hsum).
  rewrite He in He1. injection He1 as <- ->.
  destruct (expand_result bound t i n Hok Hi Hu)
    as (move & untried & g' & _ & _ & He').
  rewrite He in He'. injection He' as Et.
  set (n' := {| state := state n; parent := parent n;
                children := children n ++ [length t];
                visits := visits n; wins := wins n; untried_moves := untried |}) in *.
  apply lookup_lt_Some in Hi as Hilt.
  assert (Hlook := fun j => lookup_grown t i n' (new_node g' (Some i)) j Hilt).
  assert (Hroot : visits_at t' 0 = visits_at t 0 /\ wins_at t' 0 = wins_at t 0).
  { unfold visits_at, wins_at. rewrite Et, Hlook.
    destruct (decide (0%nat = length t)); [lia|].
    destruct (decide (0%nat = i)) as [<-|_]; [|auto].
    rewrite Hi. auto. }
  destruct Hroot as [Ev Ew].
  pose proof (grow_children_wins bound t i n n' (new_node g' (Some i)) Hok Hi
                eq_refl eq_refl eq_refl) as Hcw.
  rewrite <- Et in Hcw. split; lia.
Qed.

Lemma root_mirrors_root st : root_mirrors [new_node st None].
Proof.
  unfold root_mirrors, visits_at, wins_at, root_children_visits, root_children_wins.
  cbn [lookup list_lookup]. unfold new_node. cbn [visits wins children map fold_right].
  split; reflexivity.
Qed.

Section Statistics.
Variable value : Type.
Variable value_gt : value -> value -> bool.
Variable inf : value.
Variable ucb1 : Z -> Z -> Z -> value -> value.
Variable search_weight : value.
Variable rand : nat -> nat.

(** After [N] iterations from a root with a legal move the root has
    been visited [N] times, its wins are the opposite of the sum of its
    children's wins, and the tree has at most [N + 1] nodes. *)
Theorem search_root_statistics (fuel N k : nat) (root_state : OthelloGame) :
  get_valid_moves root_state <> [] ->
  (N + disc_count 0 (board root_state) + 2 < fuel)%nat ->
  exists tree k',
    iterate value value_gt inf ucb1 search_weight rand N fuel
            [new_node root_state None] k = Ret (tree, k') /\
    visits_at tree 0 = Z.of_nat N /\
    wins_at tree 0 = - root_children_wins tree /\
    (length tree <= N + 1)%nat.
Proof.
  intros Hm Hf. destruct (tree_ok_root root_state Hm) as [Hok H0].
  set (bound := disc_count 0 (board root_state)) in *.
  destruct (iterate_ok value value_gt inf ucb1 search_weight rand bound fuel N
              [new_node root_state None] k Hok ltac:(cbn [length]; lia))
    as (t & k' & Hit & Hok' & Hlen & Hsum).
  assert (HJ : root_mirrors t).
  { refine (iterate_keeps value value_gt inf ucb1 search_weight rand bound
              root_mirrors _ _ fuel N
              [new_node root_state None] k t k' Hok _ _ Hit).
    - intros t0 i n t1 c. apply expand_mirrors.
    - intros fuel0 t0 j n result t1. apply backpropagate_mirrors.
    - apply root_mirrors_root.
    - cbn [length]. lia. }
  destruct HJ as [Hv Hw]. exists t, k'. split; [exact Hit|].
  split; [lia|]. split; [lia|]. cbn [length] in Hlen. lia.
Qed.
End Statistics.

Lemma search_root_statistics_witness :
  exists tree k',
    iterate bool (fun a b => andb a (negb b)) true (fun _ _ _ w => w) false
            (fun n => n) 3 70 [new_node new_game None] 0 = Ret (tree, k') /\
    visits_at tree 0 = Z.of_nat 3 /\
    wins_at tree 0 = - root_children_wins tree /\
    (length tree <= 3 + 1)%nat.
Proof.
  apply (search_root_statistics bool (fun a b => andb a (negb b)) true
           (fun _ _ _ w => w) false (fun n => n) 70 3 0 new_game).
  - vm_compute. discriminate.
  - vm_compute. lia.
Defined.

(** ** Random draws of a playout *)

Section Draws.
Variable rand : nat -> nat.

Lemma simulate_loop_draws fuel :
  forall k g,
    turns_passed g = 0 ->
    (disc_count 0 (board g) < fuel)%nat ->
    exists final k',
      simulate_loop rand fuel k g = Ret (final, k') /\
      (k <= k')%nat /\
      (k' + disc_count 0 (board final) <= k + disc_count 0 (board g))%nat.
Proof.
  induction fuel as [|fuel IH]; intros k g Ht Hf; [lia|].
  cbn [simulate_loop].
  destruct (is_game_over g) eqn:Hover.
  { exists g, k. split; [reflexivity|]. lia. }
  pose proof (is_game_over_false_moves g ltac:(lia) Hover) as Hmoves.
  pose proof (choice_in rand k _ Hmoves) as Hin.
  apply valid_move_in_list in Hin as [Hr Hv].
  destruct (apply_move_fills g _ (proj1 Hr) Hv) as (g' & Ha & Hz & _ & Ht').
  destruct (get_valid_moves g) as [|m0 ms] eqn:Em; [congruence|].
  rewrite Ha. cbn [py_bind fst].
  destruct (IH (S k) g' Ht' ltac:(lia)) as (final & k' & -> & Hk & Hd).
  exists final, k'. split; [reflexivity|]. lia.
Qed.

(** A playout draws at most one random number per empty cell of the
    state it starts from, and its result is 1, -1 or 0. *)
Theorem simulate_draws (fuel k : nat) (st : OthelloGame) :
  (disc_count 0 (board st) < fuel)%nat ->
  exists w k',
    simulate rand fuel k st = Ret (w, k') /\
    (w = 1 \/ w = -1 \/ w = 0) /\
    (k <= k' <= k + disc_count 0 (board st))%nat.
Proof.
  intros Hf.
  destruct (simulate_loop_draws fuel k (clone st) eq_refl Hf)
    as (final & k' & Hs & Hk & Hd).
  exists (get_winner final), k'. unfold simulate. rewrite Hs. cbn [py_bind fst snd].
  split; [reflexivity|]. split.
  - unfold get_winner. cbv zeta.
    destruct (sum_board (board final) >? 0); [tauto|].
    destruct (sum_board (board final) <? 0); tauto.
  - change (board (clone st)) with (board st) in Hd. lia.
Qed.
End Draws.

Lemma simulate_draws_witness :
  exists w k',
    simulate (fun n => n) 65 0 new_game = Ret (w, k') /\
    (w = 1 \/ w = -1 \/ w = 0) /\
    (0 <= k' <= 0 + disc_count 0 (board new_game))%nat.
Proof.
  apply (simulate_draws (fun n => n) 65 0 new_game). vm_compute. lia.
Defined.

(** ** The game loops *)

Lemma is_valid_move_ext g g' i :
  board g = board g' -> current_player g = current_player g' ->
  is_valid_move g i = is_valid_move g' i.
Proof.
  intros Hb Hp. unfold is_valid_move, can_flip. rewrite Hb, Hp. reflexivity.
Qed.

Lemma get_valid_moves_ext g g' :
  board g = board g' -> current_player g = current_player g' ->
  get_valid_moves g = get_valid_moves g'.
Proof.
  intros Hb Hp. unfold get_valid_moves. apply List.filter_ext. intros i.
  now rewrite (is_valid_move_ext g g').
Qed.

Lemma is_member_In m l : In m l -> is_member m l = true.
Proof.
  intros H. unfold is_member. apply existsb_exists. exists m.
  split; [exact H|apply Z.eqb_refl].
Qed.

Lemma negascout_get_move_some depth g :
  get_valid_moves g <> [] ->
  exists m, negascout_get_move (S depth) g = Some m /\ In m (get_valid_moves g).
Proof.
  intros Hne. unfold negascout_get_move, negascout_search.
  destruct (get_valid_moves g) as [|move rest] eqn:Hm; [congruence|].
  rewrite (negascout_root depth g move rest Hm). cbv zeta. cbn [fst snd].
  destruct (fold_best_in
              (fun m => minimax depth (child_state g m) false)
              rest move
              (minimax depth (child_state g move) false))
    as (m & -> & Hin).
  exists m. split; [reflexivity|exact Hin].
Qed.

Lemma pass_trail_pass g :
  turns_passed g < 2 -> pass_trail g -> get_valid_moves g = [] ->
  pass_trail (fst (pass_turn g)).
Proof.
  intros Ht Hp Hm.
  assert (Hback : get_valid_moves (fst (pass_turn (fst (pass_turn g)))) = []).
  { rewrite <- Hm. apply get_valid_moves_ext; cbn; [reflexivity|lia]. }
  destruct Hp as [H0|[[H1 Ho]|[H2 _]]]; [| |lia].
  - right. left. split; [cbn; lia|exact Hback].
  - right. right. split; [cbn; lia|]. split; [exact Ho|exact Hback].
Qed.

Section Main1Loop.
Variable rand : nat -> nat.

Lemma main1_inner_ends depth fuel :
  forall g k out,
    pass_trail g ->
    (3 * disc_count 0 (board g) + 2 - Z.to_nat (turns_passed g) < fuel)%nat ->
    exists final k' out',
      main1_inner (S depth) rand fuel g k out = Ret (final, k', out') /\
      turns_passed final = 2 /\
      get_valid_moves final = [] /\
      get_valid_moves (fst (pass_turn final)) = [].
Proof.
  induction fuel as [|fuel IH]; intros g k out Hp Hf; [lia|].
  cbn [main1_inner].
  assert (Ht : turns_passed g = 2 \/ 0 <= turns_passed g < 2).
  { destruct Hp as [H|[[H _]|[H _]]]; lia. }
  destruct Ht as [Ht|Ht].
  - rewrite Ht. change (2 >=? 2) with true. cbv iota.
    destruct Hp as [H|[[H _]|(_ & Hm & Ho)]]; [lia|lia|].
    exists g, k, out. auto.
  - destruct (Z.geb_spec (turns_passed g) 2) as [|_]; [lia|]. cbv zeta.
    assert (Hplace : forall m k1 out1,
      In m (get_valid_moves g) ->
      exists final k' out',
        (if is_member m (get_valid_moves g)
         then
           let! r := apply_move g (Some m) in
           main1_inner (S depth) rand fuel (fst r) k1
             (out1 ++ map Engine (snd r) ++ [BoardPrinted (board (fst r))])
         else main1_inner (S depth) rand fuel g k1 (out1 ++ [SaysCannotPlace]))
        = Ret (final, k', out') /\
        turns_passed final = 2 /\
        get_valid_moves final = [] /\
        get_valid_moves (fst (pass_turn final)) = []).
    { intros m k1 out1 Hin. rewrite (is_member_In _ _ Hin).
      destruct (valid_move_in_list g m Hin) as [Hr Hv].
      destruct (apply_move_fills g m ltac:(lia) Hv) as (g' & -> & Hz & _ & Ht').
      cbn [py_bind fst snd]. apply IH; [left; exact Ht'|]. rewrite Ht'. lia. }
    destruct (get_valid_moves g) as [|m0 ms] eqn:Hm.
    + cbn [length Nat.eqb]. apply IH.
      * apply pass_trail_pass; [lia|exact Hp|exact Hm].
      * cbn [pass_turn fst board turns_passed set_turns_passed set_current_player].
        lia.
    + cbn [length Nat.eqb].
      destruct (current_player g =? 1).
      * apply Hplace. apply nth_In. apply Nat.mod_upper_bound. cbn [length]. lia.
      * destruct (negascout_get_move_some depth g ltac:(rewrite Hm; discriminate))
          as (m & -> & Hin).
        apply Hplace. rewrite <- Hm. exact Hin.
Qed.

Lemma main1_loop_spins depth inner_fuel fuel :
  forall g k out,
    2 <= turns_passed g -> board_full (board g) = false ->
    main1_loop depth rand fuel inner_fuel g k out = Raise OutOfFuel.
Proof.
  induction fuel as [|fuel IH]; intros g k out Ht Hb; [reflexivity|].
  cbn [main1_loop]. unfold is_game_over. rewrite Hb.
  destruct (Z.geb_spec (turns_passed g) 2) as [_|]; [|lia].
  destruct inner_fuel as [|f]; [reflexivity|].
  cbn [main1_inner].
  destruct (Z.geb_spec (turns_passed g) 2) as [_|]; [|lia].
  cbn [py_bind fst snd]. apply IH; assumption.
Qed.

(** [main] of [src/main1.py] from a position with no pass behind it in
    which the game is not over (the opening position is one): the inner
    loop does not stop at a move, it plays the game on, passing for a
    player without a move, until two passes in a row, so it ends with a
    pass count of 2 in a position where neither player has a legal
    move. Then the outer loop ends with that position if its board is
    full; if a cell is still empty [is_game_over] answers false for
    ever and the program never reaches [get_winner]: it prints the board
    again and again. *)
Theorem main1_ends_iff_board_full (depth inner_fuel : nat) (g : OthelloGame)
    (k : nat) (out : list line) :
  turns_passed g = 0 -> is_game_over g = false ->
  (3 * disc_count 0 (board g) + 2 < inner_fuel)%nat ->
  exists final k' out',
    main1_inner (S depth) rand inner_fuel g k (out ++ [BoardPrinted (board g)])
    = Ret (final, k', out') /\
    turns_passed final = 2 /\
    get_valid_moves final = [] /\
    get_valid_moves (fst (pass_turn final)) = [] /\
    (board_full (board final) = true ->
     forall fuel, (2 <= fuel)%nat ->
       main1_loop (S depth) rand fuel inner_fuel g k out = Ret (final, k', out')) /\
    (board_full (board final) = false ->
     forall fuel,
       main1_loop (S depth) rand fuel inner_fuel g k out = Raise OutOfFuel).
Proof.
  intros Ht Hover Hf.
  destruct (main1_inner_ends depth inner_fuel g k (out ++ [BoardPrinted (board g)])
              ltac:(left; exact Ht) ltac:(lia))
    as (final & k' & out' & Hrun & Ht2 & Hm & Ho).
  exists final, k', out'. repeat (split; [assumption|]). split.
  - intros Hfull fuel Hfuel. destruct fuel as [|[|fuel]]; [lia|lia|].
    cbn [main1_loop]. rewrite Hover, Hrun. cbn [py_bind fst snd].
    unfold is_game_over. rewrite Hfull, Hm. reflexivity.
  - intros Hfull fuel. destruct fuel as [|fuel]; [reflexivity|].
    cbn [main1_loop]. rewrite Hover, Hrun. cbn [py_bind fst snd].
    apply main1_loop_spins; [lia|exact Hfull].
Qed.
End Main1Loop.

Lemma main1_ends_iff_board_full_witness :
  exists final k' out',
    main1_inner 1 (fun n => n) 200 new_game 0 ([] ++ [BoardPrinted (board new_game)])
    = Ret (final, k', out') /\
    turns_passed final = 2 /\
    get_valid_moves final = [] /\
    get_valid_moves (fst (pass_turn final)) = [] /\
    (board_full (board final) = true ->
     forall fuel, (2 <= fuel)%nat ->
       main1_loop 1 (fun n => n) fuel 200 new_game 0 [] = Ret (final, k', out')) /\
    (board_full (board final) = false ->
     forall fuel,
       main1_loop 1 (fun n => n) fuel 200 new_game 0 [] = Raise OutOfFuel).
Proof.
  apply (main1_ends_iff_board_full (fun n => n) 0 200 new_game 0 []).
  - reflexivity.
  - vm_compute. reflexivity.
  - vm_compute. lia.
Defined.

Section MainLoop.
Variable value : Type.
Variable value_gt : value -> value -> bool.
Variable inf : value.
Variable ucb1 : Z -> Z -> Z -> value -> value.
Variable search_weight : value.
Variable final_weight : value.
Variable rand : nat -> nat.

Lemma ai_move_legal (N sfuel k : nat) (g : OthelloGame) :
  get_valid_moves g <> [] -> (1 <= N)%nat ->
  (N + disc_count 0 (board g) + 2 < sfuel)%nat ->
  exists m k',
    ai_move value value_gt inf ucb1 search_weight final_weight rand N sfuel k g
    = Ret (Some m, k') /\
    In m (get_valid_moves g).
Proof.
  intros Hm HN Hf. unfold ai_move, mcts_get_move.
  destruct (search_legal value value_gt inf ucb1 search_weight final_weight rand
              sfuel N k g Hm HN Hf) as (m & Hs & Hin).
  destruct (tree_ok_root g Hm) as [Hok _].
  destruct (iterate_ok value value_gt inf ucb1 search_weight rand
              (disc_count 0 (board g)) sfuel N [new_node g None] k Hok
              ltac:(cbn [length]; lia)) as (t & k' & Hit & _).
  exists m, k'. split; [|exact Hin].
  destruct (get_valid_moves g) as [|m0 ms]; [congruence|].
  rewrite Hs. cbn [py_bind]. rewrite Hit. reflexivity.
Qed.

Lemma main_inner_moves (N sfuel f : nat) (g : OthelloGame) (k : nat)
    (out : list line) :
  turns_passed g = 0 -> get_valid_moves g <> [] -> (1 <= N)%nat ->
  (N + disc_count 0 (board g) + 2 < sfuel)%nat ->
  exists g' k1,
    main_inner value value_gt inf ucb1 search_weight final_weight rand
               N sfuel (S f) g k out = Ret (g', k1, out) /\
    turns_passed g' = 0 /\
    (disc_count 0 (board g') < disc_count 0 (board g))%nat.
Proof.
  intros Ht Hm HN Hs. cbn [main_inner].
  destruct (Z.geb_spec (turns_passed g) 2) as [|_]; [lia|]. cbv zeta.
  destruct (ai_move_legal N sfuel k g Hm HN Hs) as (ma & ka & Hai & Hina).
  assert (Hplace : forall m k1,
    In m (get_valid_moves g) ->
    exists g' k2,
      (if is_member m (get_valid_moves g)
       then
         let! r := apply_move g (Some m) in
         Ret (fst r, k1, out ++ map Engine (snd r))
       else main_inner value value_gt inf ucb1 search_weight final_weight rand
                       N sfuel f g k1 out)
      = Ret (g', k2, out) /\
      turns_passed g' = 0 /\
      (disc_count 0 (board g') < disc_count 0 (board g))%nat).
  { intros m k1 Hin. rewrite (is_member_In _ _ Hin).
    destruct (valid_move_in_list g m Hin) as [Hr Hv].
    destruct (apply_move_fills g m ltac:(lia) Hv) as (g' & -> & Hz & _ & Ht').
    exists g', k1. cbn [py_bind fst snd map]. rewrite app_nil_r. auto. }
  destruct (get_valid_moves g) as [|m0 ms] eqn:Hmoves; [congruence|].
  cbn [length Nat.eqb].
  destruct (current_player g =? 1).
  - apply Hplace. apply nth_In. apply Nat.mod_upper_bound. cbn [length]. lia.
  - rewrite Hai. cbn [py_bind fst snd]. apply Hplace. exact Hina.
Qed.

(** One game of [main] of [src/main.py] from a position with no pass
    behind it (the opening position is one): every turn of the outer
    loop places one disc, black's by a random draw among the legal moves
    and white's by the search, so [pass_turn] is never called, no move is
    turned down, nothing is printed, and the game ends, after at most as
    many moves as there were empty cells, at the first position in which
    the player to move has no legal move, with a pass count of 0. *)
Theorem main_ends_without_pass (N sfuel inner_fuel fuel : nat) :
  forall g k out,
    turns_passed g = 0 -> (1 <= N)%nat -> (1 <= inner_fuel)%nat ->
    (N + disc_count 0 (board g) + 2 < sfuel)%nat ->
    (disc_count 0 (board g) < fuel)%nat ->
    exists final k',
      main_loop value value_gt inf ucb1 search_weight final_weight rand N sfuel
                fuel inner_fuel g k out = Ret (final, k', out) /\
      is_game_over final = true /\
      turns_passed final = 0 /\
      get_valid_moves final = [] /\
      (disc_count 0 (board final) <= disc_count 0 (board g))%nat.
Proof.
  induction fuel as [|fuel IH]; intros g k out Ht HN Hi Hs Hf; [lia|].
  cbn [main_loop]. destruct (is_game_over g) eqn:Hover.
  - exists g, k. split; [reflexivity|]. split; [exact Hover|]. split; [exact Ht|].
    split; [|lia].
    destruct (get_valid_moves g) eqn:Hm; [reflexivity|].
    rewrite moves_not_game_over in Hover; [discriminate|].
    rewrite Hm. discriminate.
  - pose proof (is_game_over_false_moves g ltac:(lia) Hover) as Hm.
    destruct inner_fuel as [|f]; [lia|].
    destruct (main_inner_moves N sfuel f g k out Ht Hm HN Hs)
      as (g' & k1 & -> & Ht' & Hz).
    cbn [py_bind fst snd].
    destruct (IH g' k1 out Ht' HN Hi ltac:(lia) ltac:(lia))
      as (final & k' & Hloop & Hfin & Htf & Hmf & Hzf).
    exists final, k'. split; [exact Hloop|]. split; [exact Hfin|].
    split; [exact Htf|]. split; [exact Hmf|lia].
Qed.
End MainLoop.

Lemma main_ends_without_pass_witness :
  exists final k',
    main_loop bool (fun a b => andb a (negb b)) true (fun _ _ _ w => w)
              false false (fun n => n) 1 70 61 1 new_game 0 [] = Ret (final, k', []) /\
    is_game_over final = true /\
    turns_passed final = 0 /\
    get_valid_moves final = [] /\
    (disc_count 0 (board final) <= disc_count 0 (board new_game))%nat.
Proof.
  apply (main_ends_without_pass bool (fun a b => andb a (negb b)) true
           (fun _ _ _ w => w) false false (fun n => n) 1 70 1 61 new_game 0 []).
  - reflexivity.
  - lia.
  - lia.
  - vm_compute. lia.
  - vm_compute. lia.
Defined.
